(** * AsyncJson: a pool of worker threads with a task queue

    A shallow embedding of the class [AsyncJson] of AsyncJson.ts and of the
    part of the Node.js runtime its methods talk to (worker threads, timers,
    promises), followed by the properties of the pool orchestrator: the
    settlement of result handles, the size of the registry, dispatch, the
    failure handlers and shutdown. The code of the worker thread, and of the
    benchmark the functions [runNaiveWorker], [powersOfTwoUpTo] and
    [getDefaultWorkerCounts], are embedded as well, with the behaviour of a
    task from submission to settlement, the order of service and what a pool
    without a timeout does. *)

From Stdlib Require Import String.
From Stdlib Require Import List Arith ZArith Bool Lia Sorted.
From Stdlib Require QArith Qround.
Import ListNotations.

(** ** Data model *)

(** A [Worker] object is known to the pool only by its identity, and so are
    the resolve/reject pair of the promise made by [runTask] and the
    [NodeJS.Timeout] returned by [setTimeout]. Values of type [any] are opaque. *)
Definition Worker := nat.
Definition ResultHandle := nat.
Definition Timeout := nat.
Definition any := nat.

Inductive TaskType :=
| parse
| stringify
| TEST_CRASH
| TEST_ERROR
| TEST_HANG
| TEST_UNCAUGHT_ERROR.

Record WorkerTask := { type : TaskType; payload : any }.

(** [{ task, resolve, reject }]: [resolve] and [reject] always come from the
    same [new Promise], so one identity stands for the pair. *)
Record TaskQueueItem := { task : WorkerTask; item_handle : ResultHandle }.

Inductive Status := StatusOk | StatusError.

Record WorkerMessage :=
  { status : Status; data : option any; error : option string }.

(** [{ resolve, reject, timeoutId? }] *)
Record WorkerTaskHandlers :=
  { handle : ResultHandle; timeoutId : option Timeout }.

(** What a result handle is settled with: [resolve(message.data)] or
    [reject(...)] with one of the five errors the class builds. *)
Inductive Reason :=
| MessageError (e : option string)   (* new Error(message.error) *)
| WorkerError (err : string)         (* the err of the 'error' event *)
| ExitError (code : Z)               (* Worker exited with code ${code} *)
| TimedOut                           (* Worker task timed out *)
| PoolClosing.                       (* Worker pool is closing *)

Inductive Outcome :=
| Resolved (value : option any)
| Rejected (reason : Reason).

(** The fields of the class, followed by the state of the runtime that the
    methods read and write: the threads that have not exited yet, the pending
    timers with the [worker] and [reject] their callback closes over, and what
    has been done so far to promises ([settled]), to message ports ([posted])
    and to threads ([terminated]). *)
Record AsyncJson := mkAsyncJson {
  numThreads : nat;
  taskTimeoutMs : option nat;
  workers : list Worker;
  idleWorkers : list Worker;
  taskQueue : list TaskQueueItem;
  workerTaskMap : list (Worker * WorkerTaskHandlers);
  isClosing : bool;
  timedOutWorkers : list Worker;
  erroredWorkers : list Worker;
  threads : list Worker;
  nextWorker : Worker;
  nextHandle : ResultHandle;
  nextTimeout : Timeout;
  timers : list (Timeout * (Worker * ResultHandle));
  settled : list (ResultHandle * Outcome);
  posted : list (Worker * WorkerTask);
  terminated : list Worker
}.

(** Field updates. *)
Definition set_workers v p :=
  mkAsyncJson (numThreads p) (taskTimeoutMs p) v (idleWorkers p) (taskQueue p)
    (workerTaskMap p) (isClosing p) (timedOutWorkers p) (erroredWorkers p)
    (threads p) (nextWorker p) (nextHandle p) (nextTimeout p) (timers p)
    (settled p) (posted p) (terminated p).
Definition set_idleWorkers v p :=
  mkAsyncJson (numThreads p) (taskTimeoutMs p) (workers p) v (taskQueue p)
    (workerTaskMap p) (isClosing p) (timedOutWorkers p) (erroredWorkers p)
    (threads p) (nextWorker p) (nextHandle p) (nextTimeout p) (timers p)
    (settled p) (posted p) (terminated p).
Definition set_taskQueue v p :=
  mkAsyncJson (numThreads p) (taskTimeoutMs p) (workers p) (idleWorkers p) v
    (workerTaskMap p) (isClosing p) (timedOutWorkers p) (erroredWorkers p)
    (threads p) (nextWorker p) (nextHandle p) (nextTimeout p) (timers p)
    (settled p) (posted p) (terminated p).
Definition set_workerTaskMap v p :=
  mkAsyncJson (numThreads p) (taskTimeoutMs p) (workers p) (idleWorkers p)
    (taskQueue p) v (isClosing p) (timedOutWorkers p) (erroredWorkers p)
    (threads p) (nextWorker p) (nextHandle p) (nextTimeout p) (timers p)
    (settled p) (posted p) (terminated p).
Definition set_isClosing v p :=
  mkAsyncJson (numThreads p) (taskTimeoutMs p) (workers p) (idleWorkers p)
    (taskQueue p) (workerTaskMap p) v (timedOutWorkers p) (erroredWorkers p)
    (threads p) (nextWorker p) (nextHandle p) (nextTimeout p) (timers p)
    (settled p) (posted p) (terminated p).
Definition set_timedOutWorkers v p :=
  mkAsyncJson (numThreads p) (taskTimeoutMs p) (workers p) (idleWorkers p)
    (taskQueue p) (workerTaskMap p) (isClosing p) v (erroredWorkers p)
    (threads p) (nextWorker p) (nextHandle p) (nextTimeout p) (timers p)
    (settled p) (posted p) (terminated p).
Definition set_erroredWorkers v p :=
  mkAsyncJson (numThreads p) (taskTimeoutMs p) (workers p) (idleWorkers p)
    (taskQueue p) (workerTaskMap p) (isClosing p) (timedOutWorkers p) v
    (threads p) (nextWorker p) (nextHandle p) (nextTimeout p) (timers p)
    (settled p) (posted p) (terminated p).
Definition set_threads v p :=
  mkAsyncJson (numThreads p) (taskTimeoutMs p) (workers p) (idleWorkers p)
    (taskQueue p) (workerTaskMap p) (isClosing p) (timedOutWorkers p)
    (erroredWorkers p) v (nextWorker p) (nextHandle p) (nextTimeout p)
    (timers p) (settled p) (posted p) (terminated p).
Definition set_nextWorker v p :=
  mkAsyncJson (numThreads p) (taskTimeoutMs p) (workers p) (idleWorkers p)
    (taskQueue p) (workerTaskMap p) (isClosing p) (timedOutWorkers p)
    (erroredWorkers p) (threads p) v (nextHandle p) (nextTimeout p)
    (timers p) (settled p) (posted p) (terminated p).
Definition set_nextHandle v p :=
  mkAsyncJson (numThreads p) (taskTimeoutMs p) (workers p) (idleWorkers p)
    (taskQueue p) (workerTaskMap p) (isClosing p) (timedOutWorkers p)
    (erroredWorkers p) (threads p) (nextWorker p) v (nextTimeout p)
    (timers p) (settled p) (posted p) (terminated p).
Definition set_nextTimeout v p :=
  mkAsyncJson (numThreads p) (taskTimeoutMs p) (workers p) (idleWorkers p)
    (taskQueue p) (workerTaskMap p) (isClosing p) (timedOutWorkers p)
    (erroredWorkers p) (threads p) (nextWorker p) (nextHandle p) v
    (timers p) (settled p) (posted p) (terminated p).
Definition set_timers v p :=
  mkAsyncJson (numThreads p) (taskTimeoutMs p) (workers p) (idleWorkers p)
    (taskQueue p) (workerTaskMap p) (isClosing p) (timedOutWorkers p)
    (erroredWorkers p) (threads p) (nextWorker p) (nextHandle p)
    (nextTimeout p) v (settled p) (posted p) (terminated p).
Definition set_settled v p :=
  mkAsyncJson (numThreads p) (taskTimeoutMs p) (workers p) (idleWorkers p)
    (taskQueue p) (workerTaskMap p) (isClosing p) (timedOutWorkers p)
    (erroredWorkers p) (threads p) (nextWorker p) (nextHandle p)
    (nextTimeout p) (timers p) v (posted p) (terminated p).
Definition set_posted v p :=
  mkAsyncJson (numThreads p) (taskTimeoutMs p) (workers p) (idleWorkers p)
    (taskQueue p) (workerTaskMap p) (isClosing p) (timedOutWorkers p)
    (erroredWorkers p) (threads p) (nextWorker p) (nextHandle p)
    (nextTimeout p) (timers p) (settled p) v (terminated p).
Definition set_terminated v p :=
  mkAsyncJson (numThreads p) (taskTimeoutMs p) (workers p) (idleWorkers p)
    (taskQueue p) (workerTaskMap p) (isClosing p) (timedOutWorkers p)
    (erroredWorkers p) (threads p) (nextWorker p) (nextHandle p)
    (nextTimeout p) (timers p) (settled p) (posted p) v.

(** ** Runtime primitives *)

(** [array.filter((w) => w !== worker)] *)
Definition without (worker : Worker) (l : list Worker) : list Worker :=
  filter (fun w => negb (w =? worker)) l.

(** [Map<Worker, WorkerTaskHandlers>], in insertion order. *)
Module WMap.
Definition t := list (Worker * WorkerTaskHandlers).

Fixpoint get (w : Worker) (m : t) : option WorkerTaskHandlers :=
  match m with
  | [] => None
  | (k, v) :: r => if k =? w then Some v else get w r
  end.

Definition has (w : Worker) (m : t) : bool :=
  match get w m with Some _ => true | None => false end.

Fixpoint set (w : Worker) (h : WorkerTaskHandlers) (m : t) : t :=
  match m with
  | [] => [(w, h)]
  | (k, v) :: r => if k =? w then (k, h) :: r else (k, v) :: set w h r
  end.

Definition delete (w : Worker) (m : t) : t :=
  filter (fun e => negb (fst e =? w)) m.
End WMap.

(** [WeakSet<Worker>] *)
Module WeakSet.
Definition has (w : Worker) (s : list Worker) : bool := existsb (Nat.eqb w) s.
Definition add (w : Worker) (s : list Worker) : list Worker :=
  if has w s then s else w :: s.
Definition delete (w : Worker) (s : list Worker) : list Worker := without w s.
End WeakSet.

(** A call of [resolve] or [reject] of the pair [h]. *)
Definition settle (h : ResultHandle) (o : Outcome) (p : AsyncJson) : AsyncJson :=
  set_settled (settled p ++ [(h, o)]) p.

(** [if (timeoutId) clearTimeout(timeoutId)] *)
Definition clearTimeout (timeoutId : option Timeout) (p : AsyncJson) : AsyncJson :=
  match timeoutId with
  | Some t => set_timers (filter (fun e => negb (fst e =? t)) (timers p)) p
  | None => p
  end.

(** [setTimeout(callback, ms)], where the callback closes over [worker] and
    [reject]. *)
Definition setTimeout (worker : Worker) (reject : ResultHandle) (p : AsyncJson)
  : Timeout * AsyncJson :=
  (nextTimeout p,
   set_nextTimeout (S (nextTimeout p))
     (set_timers (timers p ++ [(nextTimeout p, (worker, reject))]) p)).

(** [worker.terminate()] *)
Definition terminate (worker : Worker) (p : AsyncJson) : AsyncJson :=
  set_terminated (terminated p ++ [worker]) p.

(** [worker.postMessage(task)] *)
Definition postMessage (worker : Worker) (t : WorkerTask) (p : AsyncJson) : AsyncJson :=
  set_posted (posted p ++ [(worker, t)]) p.

(** ** The methods of the class *)

(** [createWorker]: [new Worker(...)] starts a thread with a fresh identity;
    its three listeners are [onMessage], [onError] and [onExit] below. *)
Definition createWorker (p : AsyncJson) : Worker * AsyncJson :=
  (nextWorker p,
   set_nextWorker (S (nextWorker p)) (set_threads (threads p ++ [nextWorker p]) p)).

Definition removeWorker (worker : Worker) (p : AsyncJson) : AsyncJson :=
  set_idleWorkers (without worker (idleWorkers p))
    (set_workers (without worker (workers p)) p).

Definition dispatch (p : AsyncJson) : AsyncJson :=
  if isClosing p
     || (length (taskQueue p) =? 0)
     || (length (idleWorkers p) =? 0)
  then p
  else
    match taskQueue p, idleWorkers p with
    | item :: queue, worker :: idle =>
        let p := set_idleWorkers idle (set_taskQueue queue p) in
        let '(handlers, p) :=
          match taskTimeoutMs p with
          | Some _ =>
              let '(t, p) := setTimeout worker (item_handle item) p in
              ({| handle := item_handle item; timeoutId := Some t |}, p)
          | None => ({| handle := item_handle item; timeoutId := None |}, p)
          end in
        let p := set_workerTaskMap (WMap.set worker handlers (workerTaskMap p)) p in
        postMessage worker (task item) p
    | _, _ => p
    end.

(** What [runTask] returns: the promise it made, or one rejected already. *)
Inductive Submission :=
| Pending (h : ResultHandle)
| RejectedNow (reason : Reason).

Section Supervisor.

(** [this.dispatch], kept as a variable so that the methods can also be run
    with the dispatcher of the specification. *)
Variable this_dispatch : AsyncJson -> AsyncJson.

Definition spawnWorker (p : AsyncJson) : AsyncJson :=
  if isClosing p then p
  else
    let '(worker, p) := createWorker p in
    let p := set_workers (workers p ++ [worker]) p in
    let p := set_idleWorkers (idleWorkers p ++ [worker]) p in
    this_dispatch p.

Definition replaceWorker (worker : Worker) (p : AsyncJson) : AsyncJson :=
  spawnWorker (removeWorker worker p).

Fixpoint initWorkers (n : nat) (p : AsyncJson) : AsyncJson :=
  match n with
  | 0 => p
  | S n => initWorkers n (spawnWorker p)
  end.

(** The listener of 'message'. *)
Definition onMessage (worker : Worker) (message : WorkerMessage) (p : AsyncJson)
  : AsyncJson :=
  match WMap.get worker (workerTaskMap p) with
  | None => p
  | Some promiseHandlers =>
      let p := clearTimeout (timeoutId promiseHandlers) p in
      let p :=
        match status message with
        | StatusOk => settle (handle promiseHandlers) (Resolved (data message)) p
        | StatusError =>
            settle (handle promiseHandlers) (Rejected (MessageError (error message))) p
        end in
      let p := set_workerTaskMap (WMap.delete worker (workerTaskMap p)) p in
      let p := set_idleWorkers (idleWorkers p ++ [worker]) p in
      this_dispatch p
  end.

(** The listener of 'error'. *)
Definition onError (worker : Worker) (err : string) (p : AsyncJson) : AsyncJson :=
  let p := set_erroredWorkers (WeakSet.add worker (erroredWorkers p)) p in
  let p :=
    match WMap.get worker (workerTaskMap p) with
    | Some promiseHandlers =>
        let p := clearTimeout (timeoutId promiseHandlers) p in
        let p := settle (handle promiseHandlers) (Rejected (WorkerError err)) p in
        set_workerTaskMap (WMap.delete worker (workerTaskMap p)) p
    | None => p
    end in
  replaceWorker worker p.

(** The listener of 'exit'. *)
Definition onExit (worker : Worker) (code : Z) (p : AsyncJson) : AsyncJson :=
  let timedOut := WeakSet.has worker (timedOutWorkers p) in
  let errored := WeakSet.has worker (erroredWorkers p) in
  let p := if timedOut
           then set_timedOutWorkers (WeakSet.delete worker (timedOutWorkers p)) p
           else p in
  let p := if errored
           then set_erroredWorkers (WeakSet.delete worker (erroredWorkers p)) p
           else p in
  let p :=
    if negb (code =? 0)%Z && negb (isClosing p) && negb timedOut && negb errored
    then
      match WMap.get worker (workerTaskMap p) with
      | Some promiseHandlers =>
          let p := clearTimeout (timeoutId promiseHandlers) p in
          let p := settle (handle promiseHandlers) (Rejected (ExitError code)) p in
          set_workerTaskMap (WMap.delete worker (workerTaskMap p)) p
      | None => p
      end
    else p in
  if negb (code =? 0)%Z && negb timedOut && negb errored
  then replaceWorker worker p
  else removeWorker worker p.

(** The callback given to [setTimeout] in [dispatch]. *)
Definition onTimeout (worker : Worker) (reject : ResultHandle) (p : AsyncJson)
  : AsyncJson :=
  if negb (WMap.has worker (workerTaskMap p)) then p
  else
    let p := set_workerTaskMap (WMap.delete worker (workerTaskMap p)) p in
    let p := settle reject (Rejected TimedOut) p in
    let p := set_timedOutWorkers (WeakSet.add worker (timedOutWorkers p)) p in
    let p := terminate worker p in
    let p := replaceWorker worker p in
    this_dispatch p.

Definition runTask (t : WorkerTask) (p : AsyncJson) : Submission * AsyncJson :=
  if isClosing p then (RejectedNow PoolClosing, p)
  else
    let h := nextHandle p in
    let p := set_nextHandle (S h) p in
    let p := set_taskQueue (taskQueue p ++ [{| task := t; item_handle := h |}]) p in
    (Pending h, this_dispatch p).

Definition parse_ (jsonString : any) (p : AsyncJson) : Submission * AsyncJson :=
  runTask {| type := parse; payload := jsonString |} p.

Definition stringify_ (dataObject : any) (p : AsyncJson) : Submission * AsyncJson :=
  runTask {| type := stringify; payload := dataObject |} p.

(** The constructor: [new AsyncJson(numThreads, { taskTimeoutMs })]. *)
Definition new (numThreads : nat) (taskTimeoutMs : option nat) : AsyncJson :=
  initWorkers numThreads
    (mkAsyncJson numThreads taskTimeoutMs [] [] [] [] false [] []
       [] 0 0 0 [] [] [] []).

End Supervisor.

(** [close], up to its [await]: the queue is drained, the entries of the map
    are rejected and deleted in iteration order, and [terminate] is called on
    every registered worker. The promise it returns resolves once each of
    those threads has emitted 'exit'. *)
Fixpoint drainQueue (queue : list TaskQueueItem) (p : AsyncJson) : AsyncJson :=
  match queue with
  | [] => p
  | item :: queue =>
      drainQueue queue
        (settle (item_handle item) (Rejected PoolClosing) (set_taskQueue queue p))
  end.

Fixpoint rejectInFlight (entries : list (Worker * WorkerTaskHandlers)) (p : AsyncJson)
  : AsyncJson :=
  match entries with
  | [] => p
  | (worker, promiseHandlers) :: entries =>
      let p := clearTimeout (timeoutId promiseHandlers) p in
      let p := settle (handle promiseHandlers) (Rejected PoolClosing) p in
      let p := set_workerTaskMap (WMap.delete worker (workerTaskMap p)) p in
      rejectInFlight entries p
  end.

Definition close (p : AsyncJson) : AsyncJson :=
  let p := set_isClosing true p in
  let p := drainQueue (taskQueue p) p in
  let p := rejectInFlight (workerTaskMap p) p in
  fold_left (fun p worker => terminate worker p) (workers p) p.

Record Stats := { stat_workers : nat; stat_idle : nat; stat_queue : nat }.

Definition stats (p : AsyncJson) : Stats :=
  {| stat_workers := length (workers p);
     stat_idle := length (idleWorkers p);
     stat_queue := length (taskQueue p) |}.

(** ** The dispatcher of the specification

    "While the queue is non-empty and an idle unit exists": the loop the
    specification describes, each turn of which is one [dispatch] of the
    class. A turn takes one task off the queue, so the length of the queue
    bounds the number of turns. *)
Definition canAssign (p : AsyncJson) : bool :=
  negb (isClosing p)
  && negb (length (taskQueue p) =? 0)
  && negb (length (idleWorkers p) =? 0).

Fixpoint dispatch_loop (turns : nat) (p : AsyncJson) : AsyncJson :=
  match turns with
  | 0 => p
  | S turns => if canAssign p then dispatch_loop turns (dispatch p) else p
  end.

Definition dispatch_spec (p : AsyncJson) : AsyncJson :=
  dispatch_loop (length (taskQueue p)) p.

(** ** Events

    The orchestrator runs one handler at a time, in reaction to a call of
    [runTask] (through [parse] or [stringify]) or [close], to an event of a
    worker, or to a timer. A worker emits events until it has emitted 'exit';
    a timer fires if it is pending, that is, set and not cleared. *)
Inductive Event :=
| Call_runTask (t : WorkerTask)
| Call_close
| On_message (worker : Worker) (message : WorkerMessage)
| On_error (worker : Worker) (err : string)
| On_exit (worker : Worker) (code : Z)
| On_timeout (t : Timeout).

Definition pendingTimer (t : Timeout) (p : AsyncJson)
  : option (Worker * ResultHandle) :=
  match find (fun e => fst e =? t) (timers p) with
  | Some e => Some (snd e)
  | None => None
  end.

Definition enabled (p : AsyncJson) (ev : Event) : bool :=
  match ev with
  | Call_runTask _ | Call_close => true
  | On_message w _ | On_error w _ | On_exit w _ => existsb (Nat.eqb w) (threads p)
  | On_timeout t =>
      match pendingTimer t p with Some _ => true | None => false end
  end.

Section Run.

Variable this_dispatch : AsyncJson -> AsyncJson.

Definition handle_event (ev : Event) (p : AsyncJson) : AsyncJson :=
  match ev with
  | Call_runTask t => snd (runTask this_dispatch t p)
  | Call_close => close p
  | On_message w m => onMessage this_dispatch w m p
  | On_error w err => onError this_dispatch w err p
  | On_exit w code =>
      onExit this_dispatch w code (set_threads (without w (threads p)) p)
  | On_timeout t =>
      match pendingTimer t p with
      | Some (w, reject) =>
          onTimeout this_dispatch w reject
            (set_timers (filter (fun e => negb (fst e =? t)) (timers p)) p)
      | None => p
      end
  end.

(** The state after a sequence of events, if each was enabled in its turn. *)
Fixpoint run (evs : list Event) (p : AsyncJson) : option AsyncJson :=
  match evs with
  | [] => Some p
  | ev :: evs =>
      if enabled p ev then run evs (handle_event ev p) else None
  end.

End Run.

(** The states of a pool of [n] workers between two handlers. *)
Definition Reachable (n : nat) (timeout : option nat) (p : AsyncJson) : Prop :=
  exists evs, run dispatch evs (new dispatch n timeout) = Some p.

(** ** Predicates on states *)

Definition keys (m : WMap.t) : list Worker := map fst m.

(** The handles waiting in the queue, held in the map, and settled so far. *)
Definition queued (p : AsyncJson) : list ResultHandle :=
  map item_handle (taskQueue p).
Definition inFlight (p : AsyncJson) : list ResultHandle :=
  map (fun e => handle (snd e)) (workerTaskMap p).
Definition settledHandles (p : AsyncJson) : list ResultHandle :=
  map fst (settled p).

Definition occ (h : ResultHandle) (l : list ResultHandle) : nat :=
  count_occ Nat.eq_dec l h.
Arguments occ : simpl never.

(** How many times [h] is waiting, in flight, or has been settled. *)
Definition tally (p : AsyncJson) (h : ResultHandle) : nat :=
  occ h (queued p) + occ h (inFlight p) + occ h (settledHandles p).

(** The number of calls of [resolve] or [reject] of the pair [h]. *)
Definition settlements (p : AsyncJson) (h : ResultHandle) : nat :=
  occ h (settledHandles p).

(** The state [dispatch] leaves when it hands [item] to [worker]. *)
Definition assigned (item : TaskQueueItem) (queue : list TaskQueueItem)
    (worker : Worker) (idle : list Worker) (p : AsyncJson) : AsyncJson :=
  let armed := match taskTimeoutMs p with Some _ => true | None => false end in
  mkAsyncJson (numThreads p) (taskTimeoutMs p) (workers p) idle queue
    (WMap.set worker
       {| handle := item_handle item;
          timeoutId := if armed then Some (nextTimeout p) else None |}
       (workerTaskMap p))
    (isClosing p) (timedOutWorkers p) (erroredWorkers p) (threads p)
    (nextWorker p) (nextHandle p)
    (if armed then S (nextTimeout p) else nextTimeout p)
    (if armed then timers p ++ [(nextTimeout p, (worker, item_handle item))]
     else timers p)
    (settled p) (posted p ++ [(worker, task item)]) (terminated p).

(** The state after a handler has cancelled the timer of [worker]'s task,
    settled its handle with [o] and cleared the assignment. *)
Definition finished (worker : Worker) (hs : WorkerTaskHandlers) (o : Outcome)
    (p : AsyncJson) : AsyncJson :=
  set_workerTaskMap (WMap.delete worker (workerTaskMap p))
    (settle (handle hs) o (clearTimeout (timeoutId hs) p)).

(** The state in which [spawnWorker] calls [dispatch]. *)
Definition spawned (p : AsyncJson) : AsyncJson :=
  set_idleWorkers (idleWorkers p ++ [nextWorker p])
    (set_workers (workers p ++ [nextWorker p])
       (set_nextWorker (S (nextWorker p))
          (set_threads (threads p ++ [nextWorker p]) p))).

(** The state in which [runTask] calls [dispatch]. *)
Definition enqueued (t : WorkerTask) (p : AsyncJson) : AsyncJson :=
  set_taskQueue (taskQueue p ++ [{| task := t; item_handle := nextHandle p |}])
    (set_nextHandle (S (nextHandle p)) p).

(** Two states that differ at most in the marks of the workers, in what was
    posted and in what was terminated. *)
Definition same_core (p q : AsyncJson) : Prop :=
  workers p = workers q /\ idleWorkers p = idleWorkers q
  /\ taskQueue p = taskQueue q /\ workerTaskMap p = workerTaskMap q
  /\ isClosing p = isClosing q /\ threads p = threads q
  /\ nextWorker p = nextWorker q /\ nextHandle p = nextHandle q
  /\ nextTimeout p = nextTimeout q /\ timers p = timers q
  /\ settled p = settled q.

(** The timers that [close] leaves pending: those of no entry of the map. *)
Definition clearedBy (entries : WMap.t)
    (tm : list (Timeout * (Worker * ResultHandle)))
  : list (Timeout * (Worker * ResultHandle)) :=
  filter (fun e =>
            negb (existsb (fun x => match timeoutId (snd x) with
                                    | Some t => fst e =? t
                                    | None => false
                                    end) entries)) tm.

Definition closingRejections (p : AsyncJson) : list (ResultHandle * Outcome) :=
  map (fun item => (item_handle item, Rejected PoolClosing)) (taskQueue p)
  ++ map (fun e => (handle (snd e), Rejected PoolClosing)) (workerTaskMap p).

(** The state [close] leaves. *)
Definition closed (p : AsyncJson) : AsyncJson :=
  mkAsyncJson (numThreads p) (taskTimeoutMs p) (workers p) (idleWorkers p)
    [] [] true (timedOutWorkers p) (erroredWorkers p) (threads p)
    (nextWorker p) (nextHandle p) (nextTimeout p)
    (clearedBy (workerTaskMap p) (timers p))
    (settled p ++ closingRejections p)
    (posted p) (terminated p ++ workers p).

(** A worker that holds a task or waits for one. *)
Definition Occupied (p : AsyncJson) (w : Worker) : Prop :=
  In w (keys (workerTaskMap p)) \/ In w (idleWorkers p).

(** From [p] to [q] only new workers came to hold or wait for a task. *)
Definition Grows (p q : AsyncJson) : Prop :=
  nextWorker p <= nextWorker q
  /\ forall w, Occupied q w -> Occupied p w \/ nextWorker p <= w.

(** A worker whose end was attributed to a timeout or to a fault holds no
    task and waits for none. *)
Definition Attributed (p : AsyncJson) : Prop :=
  forall w, In w (timedOutWorkers p) \/ In w (erroredWorkers p) ->
            w < nextWorker p /\ ~ Occupied p w.

(** The handle that an event takes out of the pool: those of the queue and of
    the map for [close], the one assigned to the worker for a message, a
    fault or an exit with a status other than 0, the one of the timer for a
    deadline. *)
Definition ends (p : AsyncJson) (ev : Event) (h : ResultHandle) : Prop :=
  match ev with
  | Call_runTask _ => False
  | Call_close => In h (queued p) \/ In h (inFlight p)
  | On_message w _ | On_error w _ =>
      exists hs, WMap.get w (workerTaskMap p) = Some hs /\ handle hs = h
  | On_exit w code =>
      code <> 0%Z
      /\ exists hs, WMap.get w (workerTaskMap p) = Some hs /\ handle hs = h
  | On_timeout t => exists w, pendingTimer t p = Some (w, h)
  end.

(** Events that the handlers attribute once: no fault of a worker already
    marked as timed out or faulted, and no exit with status 0 of a worker
    that holds a task. *)
Definition regular (p : AsyncJson) (ev : Event) : bool :=
  match ev with
  | On_error w _ =>
      negb (WeakSet.has w (timedOutWorkers p))
      && negb (WeakSet.has w (erroredWorkers p))
  | On_exit w code =>
      negb (code =? 0)%Z || negb (WMap.has w (workerTaskMap p))
  | _ => true
  end.

Fixpoint run_regular (evs : list Event) (p : AsyncJson) : option AsyncJson :=
  match evs with
  | [] => Some p
  | ev :: evs =>
      if enabled p ev && regular p ev
      then run_regular evs (handle_event dispatch ev p)
      else None
  end.

(** The registry of a pool of capacity [n]. *)
Record Census (n : nat) (p : AsyncJson) : Prop := {
  cen_nodup : NoDup (workers p);
  cen_fresh : forall w, In w (workers p) -> w < nextWorker p;
  cen_capacity : length (workers p) <= n;
  cen_idle : incl (idleWorkers p) (workers p);
  cen_busy : forall w, In w (keys (workerTaskMap p)) -> In w (workers p);
  cen_placed :
    isClosing p = false ->
    forall w, In w (workers p) ->
              In w (idleWorkers p) \/ In w (keys (workerTaskMap p));
  cen_gone :
    forall w, In w (threads p) -> ~ In w (workers p) ->
              In w (timedOutWorkers p) \/ In w (erroredWorkers p)
}.

(** No task waits while a worker is idle. *)
Definition Quiescent (p : AsyncJson) : Prop :=
  taskQueue p = [] \/ idleWorkers p = [].

(** At most one turn of the loop is possible. *)
Definition OneTurn (p : AsyncJson) : Prop :=
  length (taskQueue p) <= 1 \/ length (idleWorkers p) <= 1.

Definition Settled (p : AsyncJson) : Prop :=
  Quiescent p /\ (isClosing p = true -> taskQueue p = []).

(** The bookkeeping of the registry, the map, the timers and the handles. *)
Record Inv (p : AsyncJson) : Prop := {
  inv_workers_nodup : NoDup (workers p);
  inv_idle_nodup : NoDup (idleWorkers p);
  inv_idle_workers : incl (idleWorkers p) (workers p);
  inv_workers_threads : incl (workers p) (threads p);
  inv_threads_fresh : forall w, In w (threads p) -> w < nextWorker p;
  inv_map_fresh : forall w, In w (keys (workerTaskMap p)) -> w < nextWorker p;
  inv_idle_unassigned :
    forall w, In w (idleWorkers p) -> ~ In w (keys (workerTaskMap p));
  inv_map_nodup : NoDup (keys (workerTaskMap p));
  inv_busy_registered :
    forall w, In w (keys (workerTaskMap p)) -> In w (threads p) ->
              In w (workers p);
  inv_timers :
    forall t w h, In (t, (w, h)) (timers p) ->
      In (w, {| handle := h; timeoutId := Some t |}) (workerTaskMap p);
  inv_timers_fresh : forall t x, In (t, x) (timers p) -> t < nextTimeout p;
  inv_map_timeout_fresh :
    forall w h t, In (w, h) (workerTaskMap p) -> timeoutId h = Some t ->
                  t < nextTimeout p;
  inv_closing : isClosing p = true -> taskQueue p = [] /\ workerTaskMap p = [];
  inv_tally : forall h, tally p h = if h <? nextHandle p then 1 else 0
}.

(** ** Sample runs *)

Definition aTask : WorkerTask := {| type := parse; payload := 7 |}.
Definition okMessage : WorkerMessage :=
  {| status := StatusOk; data := Some 7; error := None |}.
Definition errorMessage : WorkerMessage :=
  {| status := StatusError; data := None; error := Some "Unexpected token"%string |}.

(** The state of a pool of [n] workers after the events [evs]. *)
Definition after (n : nat) (timeout : option nat) (evs : list Event) : AsyncJson :=
  match run dispatch evs (new dispatch n timeout) with
  | Some p => p
  | None => new dispatch n timeout
  end.

(** ** The code of the worker thread

    The listener that [WORKER_CODE] installs on [parentPort]. [JSON.parse]
    and [JSON.stringify] are taken as given: each returns a value or throws
    an error with a message. *)
Inductive Computed :=
| Returns (value : option any)
| Throws (message : string).

(** How the listener leaves a task: it posts one message, ends the thread
    with [process.exit], returns without an answer, or returns after setting
    a timer whose callback throws outside of any [try]. *)
Inductive Reaction :=
| Posts (message : WorkerMessage)
| Exits (code : Z)
| NeverAnswers
| ThrowsLater (message : string).

Section WorkerCode.

Variable JSON_parse : any -> Computed.
Variable JSON_stringify : any -> Computed.

(** The [try] block: a reaction that leaves the listener, or the [result]
    it computed, or the error it threw. The last [else] of the source, for a
    [type] that is none of the six, has no task to run on. *)
Definition tryBlock (t : WorkerTask) : Reaction + Computed :=
  match type t with
  | TEST_CRASH => inl (Exits 1)
  | TEST_ERROR => inr (Throws "Simulated worker error")
  | TEST_HANG => inl NeverAnswers
  | TEST_UNCAUGHT_ERROR => inl (ThrowsLater "Uncaught worker error")
  | parse => inr (JSON_parse (payload t))
  | stringify => inr (JSON_stringify (payload t))
  end.

Definition workerOnMessage (t : WorkerTask) : Reaction :=
  match tryBlock t with
  | inl r => r
  | inr (Returns result) =>
      Posts {| status := StatusOk; data := result; error := None |}
  | inr (Throws message) =>
      Posts {| status := StatusError; data := None; error := Some message |}
  end.

End WorkerCode.

(** What the main thread sees of a reaction of worker [w]: a 'message'; an
    'exit' with the code given to [process.exit]; nothing; or, for an
    uncaught exception, an 'error' followed by an 'exit' with code 1. *)
Definition workerEvents (w : Worker) (r : Reaction) : list Event :=
  match r with
  | Posts m => [On_message w m]
  | Exits code => [On_exit w code]
  | NeverAnswers => []
  | ThrowsLater message => [On_error w message; On_exit w 1%Z]
  end.

(** What [resolve] or [reject] is called with for a message. *)
Definition messageOutcome (m : WorkerMessage) : Outcome :=
  match status m with
  | StatusOk => Resolved (data m)
  | StatusError => Rejected (MessageError (error m))
  end.

(** ** [runNaiveWorker]

    One worker per call. The promise it returns has two listeners, each
    registered with [once]: the record says which are still registered, how
    often [terminate] was called and the calls of [resolve] and [reject].
    [TaskType] is wider here than the ["parse" | "stringify"] of the source:
    the worker treats whatever is not ['parse'] as ['stringify']. *)
Record NaiveCall := mkNaiveCall {
  workerData : WorkerTask;
  onceMessage : bool;
  onceError : bool;
  naiveTerminated : nat;
  naiveSettled : list Outcome
}.

Inductive NaiveEvent :=
| Naive_message (message : WorkerMessage)
| Naive_error (err : string).

Definition runNaiveWorker (type : TaskType) (payload : any) : NaiveCall :=
  {| workerData := {| type := type; payload := payload |};
     onceMessage := true; onceError := true;
     naiveTerminated := 0; naiveSettled := [] |}.

Definition naiveHandle (ev : NaiveEvent) (c : NaiveCall) : NaiveCall :=
  match ev with
  | Naive_message message =>
      if onceMessage c then
        {| workerData := workerData c;
           onceMessage := false; onceError := onceError c;
           naiveTerminated := S (naiveTerminated c);
           naiveSettled :=
             naiveSettled c
             ++ [match status message with
                 | StatusOk => Resolved (data message)
                 | StatusError => Rejected (MessageError (error message))
                 end] |}
      else c
  | Naive_error err =>
      if onceError c then
        {| workerData := workerData c;
           onceMessage := onceMessage c; onceError := false;
           naiveTerminated := S (naiveTerminated c);
           naiveSettled := naiveSettled c ++ [Rejected (WorkerError err)] |}
      else c
  end.

(** The state of a promise: that of the first call of [resolve] or
    [reject]; later calls do nothing. *)
Definition promiseState (calls : list Outcome) : option Outcome := hd_error calls.

Section NaiveWorkerCode.

Variable JSON_parse : any -> Computed.
Variable JSON_stringify : any -> Computed.

(** The code of the naive worker, run once on [workerData]: any [type]
    other than ['parse'] is stringified. *)
Definition naiveWorkerCode (t : WorkerTask) : WorkerMessage :=
  match (match type t with
         | parse => JSON_parse (payload t)
         | _ => JSON_stringify (payload t)
         end) with
  | Returns result => {| status := StatusOk; data := result; error := None |}
  | Throws message =>
      {| status := StatusError; data := None; error := Some message |}
  end.

End NaiveWorkerCode.

(** ** [powersOfTwoUpTo]

    A [number] is a finite value, which is a rational, or one of the three
    others. [Math.floor], [Math.max] and the shift are exact on them. *)
Inductive number :=
| Finite (q : QArith_base.Q)
| PlusInfinity
| MinusInfinity
| NaN.

(** [Math.floor(limit)] and then [Math.max(1, _)]: an integer, or one of
    the others. *)
Inductive Bound :=
| BoundZ (z : Z)
| BoundInfinity
| BoundNaN.

Definition Math_max_1_floor (limit : number) : Bound :=
  match limit with
  | Finite q => BoundZ (Z.max 1 (Qround.Qfloor q))
  | PlusInfinity => BoundInfinity
  | MinusInfinity => BoundZ 1
  | NaN => BoundNaN
  end.

(** [n <= max] *)
Definition leBound (n : Z) (max : Bound) : bool :=
  match max with
  | BoundZ z => (n <=? z)%Z
  | BoundInfinity => true
  | BoundNaN => false
  end.

(** [n <<= 1] on a 32-bit integer. *)
Definition toInt32 (z : Z) : Z :=
  ((z + 2 ^ 31) mod 2 ^ 32 - 2 ^ 31)%Z.

Definition shl1 (n : Z) : Z := toInt32 (Z.shiftl n 1).

(** The [for] loop, for at most [turns] turns: [None] if it has not ended
    by then. *)
Fixpoint powersLoop (turns : nat) (n : Z) (max : Bound) (counts : list Z)
  : option (list Z) :=
  match turns with
  | 0 => None
  | S turns =>
      if leBound n max
      then powersLoop turns (shl1 n) max (counts ++ [n])
      else Some counts
  end.

Definition powersOfTwoUpTo (turns : nat) (limit : number) : option (list Z) :=
  powersLoop turns 1%Z (Math_max_1_floor limit) [].

(** [getDefaultWorkerCounts]: [os.availableParallelism?.()] if the function
    exists, else the length of [os.cpus()], and 1 if that is 0. Both are
    counts. *)
Definition getDefaultWorkerCounts (turns : nat)
    (availableParallelism : option nat) (cpus : nat) : option (list Z) :=
  let available :=
    match availableParallelism with
    | Some a => a
    | None => cpus
    end in
  let available := if available =? 0 then 1 else available in
  powersOfTwoUpTo turns (Finite (QArith_base.inject_Z (Z.of_nat available))).

(** ** Order of service *)

(** The handles that have left the queue. *)
Definition served (p : AsyncJson) : list ResultHandle :=
  inFlight p ++ settledHandles p.

(** The queue is in order of submission, and whatever has left it was
    submitted before whatever waits in it. *)
Definition Fifo (p : AsyncJson) : Prop :=
  StronglySorted lt (queued p)
  /\ forall h h', In h (queued p) -> In h' (served p) -> h' < h.

(** From [p] to [q] handles only left the queue, from its front. *)
Definition Leaves (p q : AsyncJson) : Prop :=
  exists front,
    queued p = front ++ queued q
    /\ forall h, In h (served q) -> In h (served p) \/ In h front.

(** A pool without a timeout. *)
Definition NoDeadline (p : AsyncJson) : Prop :=
  taskTimeoutMs p = None
  /\ timers p = []
  /\ timedOutWorkers p = []
  /\ (forall h, ~ In (h, Rejected TimedOut) (settled p))
  /\ (forall w hs, In (w, hs) (workerTaskMap p) -> timeoutId hs = None).

(** What the caller gets for what [JSON.parse] or [JSON.stringify] did. *)
Definition computedOutcome (c : Computed) : Outcome :=
  match c with
  | Returns result => Resolved result
  | Throws message => Rejected (MessageError (Some message))
  end.

(** The state of a running pool after the worker [w], idle when the task
    was submitted, has been replaced by a new one and the handle of the task
    rejected with [reason]. *)
Definition replaced_state (p : AsyncJson) (t : WorkerTask) (w : Worker)
    (idle : list Worker) (reason : Reason) : AsyncJson :=
  mkAsyncJson (numThreads p) (taskTimeoutMs p)
    (without w (workers p) ++ [nextWorker p]) (idle ++ [nextWorker p]) []
    (workerTaskMap p) false (timedOutWorkers p) (erroredWorkers p)
    (without w (threads p) ++ [nextWorker p]) (S (nextWorker p))
    (S (nextHandle p))
    (match taskTimeoutMs p with
     | Some _ => S (nextTimeout p)
     | None => nextTimeout p
     end)
    (timers p)
    (settled p ++ [(nextHandle p, Rejected reason)])
    (posted p ++ [(w, t)]) (terminated p).


(** ** Order of posting *)

(** The tasks given to [runTask] by a sequence of events, in order. *)
Definition submitted (evs : list Event) : list WorkerTask :=
  flat_map (fun ev => match ev with Call_runTask t => [t] | _ => [] end) evs.

(** The tasks posted to workers so far, followed by those of the queue. *)
Definition tasksOf (p : AsyncJson) : list WorkerTask :=
  map snd (posted p) ++ map task (taskQueue p).

(** From [p] to [q] tasks only moved from the front of the queue to the
    back of what was posted, and no handle was allotted. *)
Definition Hands (p q : AsyncJson) : Prop :=
  tasksOf q = tasksOf p /\ nextHandle q = nextHandle p
  /\ isClosing q = isClosing p.

(** ** Events of other workers *)

(** An event that is neither [close] nor an event of the worker [w] nor
    the deadline of a task of [w]. *)
Definition spares (w : Worker) (p : AsyncJson) (ev : Event) : bool :=
  match ev with
  | Call_runTask _ => true
  | Call_close => false
  | On_message x _ | On_error x _ | On_exit x _ => negb (x =? w)
  | On_timeout t =>
      match pendingTimer t p with
      | Some (x, _) => negb (x =? w)
      | None => true
      end
  end.

(** A run of such events only. *)
Fixpoint run_sparing (w : Worker) (evs : list Event) (p : AsyncJson)
  : option AsyncJson :=
  match evs with
  | [] => Some p
  | ev :: evs =>
      if enabled p ev && spares w p ev
      then run_sparing w evs (handle_event dispatch ev p)
      else None
  end.

(** The same without reference to timers, for a pool that sets none. *)
Definition quiet (w : Worker) (ev : Event) : bool :=
  match ev with
  | Call_runTask _ | On_timeout _ => true
  | Call_close => false
  | On_message x _ | On_error x _ | On_exit x _ => negb (x =? w)
  end.

(** [w] is not idle and is not a worker yet to be created. *)
Definition Free (w : Worker) (p : AsyncJson) : Prop :=
  ~ In w (idleWorkers p) /\ w < nextWorker p.

(** From [p] to [q] nothing happened to [w]: its assignment is the same, it
    did not become idle and it did not leave the registry. *)
Definition Undisturbed (w : Worker) (p q : AsyncJson) : Prop :=
  WMap.get w (workerTaskMap q) = WMap.get w (workerTaskMap p)
  /\ (In w (idleWorkers q) -> In w (idleWorkers p))
  /\ (In w (workers p) -> In w (workers q))
  /\ nextWorker p <= nextWorker q.

(** ** Threads *)

(** From [p] to [q] the only threads that appeared are new ones. *)
Definition Fresh (p q : AsyncJson) : Prop :=
  nextWorker p <= nextWorker q
  /\ forall x, In x (threads q) -> In x (threads p) \/ nextWorker p <= x.

(** ** Tactics *)

(** Equal fields, after the case analysis that the handlers make. *)
Ltac core := unfold same_core, finished, clearTimeout, settle, terminate; simpl;
             repeat match goal with |- context [match ?x with _ => _ end] => destruct x end;
             simpl; repeat split; reflexivity.

Ltac frame := unfold removeWorker, finished, clearTimeout, settle, terminate; simpl;
              repeat match goal with |- context [match ?x with _ => _ end] => destruct x end;
              simpl; try reflexivity; try (intros ->; reflexivity).

(** ** Lists, maps and sets *)

Lemma without_In w x l : In x (without w l) <-> In x l /\ x <> w.
Proof.
  unfold without. rewrite filter_In, negb_true_iff, Nat.eqb_neq. tauto.
Qed.

Lemma without_NoDup w l : NoDup l -> NoDup (without w l).
Proof. apply NoDup_filter. Qed.

Lemma without_self w l : ~ In w (without w l).
Proof. rewrite without_In. tauto. Qed.

Lemma without_absent w l : ~ In w l -> without w l = l.
Proof.
  induction l as [|x l IH]; simpl; intros H; [reflexivity|].
  destruct (Nat.eqb_spec x w) as [->|Hne]; simpl.
  - exfalso. apply H. now left.
  - f_equal. apply IH. intros Hin. apply H. now right.
Qed.

Lemma without_length w l : length (without w l) <= length l.
Proof. apply filter_length_le. Qed.

Lemma without_length_In w l :
  NoDup l -> In w l -> S (length (without w l)) = length l.
Proof.
  induction 1 as [|x l Hx Hnd IH]; simpl; [tauto|].
  intros [->|Hin].
  - rewrite Nat.eqb_refl. simpl. now rewrite without_absent.
  - destruct (Nat.eqb_spec x w) as [->|Hne]; [tauto|]. simpl.
    now rewrite IH.
Qed.

Lemma existsb_eqb_In w l : existsb (Nat.eqb w) l = true <-> In w l.
Proof.
  rewrite existsb_exists. split.
  - intros (x & Hin & Heq). apply Nat.eqb_eq in Heq. now subst.
  - intros Hin. exists w. split; [assumption | apply Nat.eqb_refl].
Qed.

Lemma WeakSet_has_In w s : WeakSet.has w s = true <-> In w s.
Proof. apply existsb_eqb_In. Qed.

Lemma WeakSet_add_In w x s : In x (WeakSet.add w s) <-> x = w \/ In x s.
Proof.
  unfold WeakSet.add. destruct (WeakSet.has w s) eqn:E; simpl.
  - apply WeakSet_has_In in E. split; [tauto|]. intros [->|H]; assumption.
  - split; intros [H|H]; auto.
Qed.

Lemma get_None_keys w m : WMap.get w m = None <-> ~ In w (keys m).
Proof.
  induction m as [|[k v] m IH]; simpl; [tauto|].
  destruct (Nat.eqb_spec k w) as [->|Hne].
  - split; [discriminate | intros H; exfalso; apply H; now left].
  - rewrite IH. tauto.
Qed.

Lemma get_Some_In w h m : WMap.get w m = Some h -> In (w, h) m.
Proof.
  induction m as [|[k v] m IH]; simpl; [discriminate|].
  destruct (Nat.eqb_spec k w) as [->|Hne].
  - intros [= ->]. now left.
  - intros H. right. now apply IH.
Qed.

Lemma In_keys w h (m : WMap.t) : In (w, h) m -> In w (keys m).
Proof. intros H. apply (in_map fst) in H. exact H. Qed.

Lemma In_get w h m : NoDup (keys m) -> In (w, h) m -> WMap.get w m = Some h.
Proof.
  induction m as [|[k v] m IH]; simpl; [tauto|].
  intros Hnd [Heq|Hin].
  - injection Heq as -> ->. now rewrite Nat.eqb_refl.
  - inversion Hnd as [|? ? Hk Hnd']; subst.
    destruct (Nat.eqb_spec k w) as [->|Hne].
    + exfalso. apply Hk. eapply In_keys; eassumption.
    + now apply IH.
Qed.

Lemma has_get w m :
  WMap.has w m = true <-> exists h, WMap.get w m = Some h.
Proof.
  unfold WMap.has. destruct (WMap.get w m).
  - split; eauto.
  - split; [discriminate | intros [h H]; discriminate].
Qed.

Lemma set_absent w h m : ~ In w (keys m) -> WMap.set w h m = m ++ [(w, h)].
Proof.
  induction m as [|[k v] m IH]; simpl; intros H; [reflexivity|].
  destruct (Nat.eqb_spec k w) as [->|Hne].
  - exfalso. apply H. now left.
  - f_equal. apply IH. intros Hin. apply H. now right.
Qed.

Lemma delete_In w e m : In e (WMap.delete w m) <-> In e m /\ fst e <> w.
Proof.
  unfold WMap.delete. rewrite filter_In, negb_true_iff, Nat.eqb_neq. tauto.
Qed.

Lemma delete_keys w m : keys (WMap.delete w m) = without w (keys m).
Proof.
  induction m as [|[k v] m IH]; simpl; [reflexivity|].
  destruct (k =? w); simpl; now rewrite IH.
Qed.

Lemma delete_absent w m : ~ In w (keys m) -> WMap.delete w m = m.
Proof.
  induction m as [|[k v] m IH]; simpl; intros H; [reflexivity|].
  destruct (Nat.eqb_spec k w) as [->|Hne]; simpl.
  - exfalso. apply H. now left.
  - f_equal. apply IH. intros Hin. apply H. now right.
Qed.

Lemma occ_app h l1 l2 : occ h (l1 ++ l2) = occ h l1 + occ h l2.
Proof. apply count_occ_app. Qed.

Lemma occ_single h x : occ h [x] = if x =? h then 1 else 0.
Proof.
  unfold occ. simpl. destruct (Nat.eq_dec x h) as [->|Hne].
  - now rewrite Nat.eqb_refl.
  - apply Nat.eqb_neq in Hne. now rewrite Hne.
Qed.

Lemma occ_cons h x l : occ h (x :: l) = (if x =? h then 1 else 0) + occ h l.
Proof. change (x :: l) with ([x] ++ l). now rewrite occ_app, occ_single. Qed.

(** Deleting the entry of [w] takes its handle, once, out of the map. *)
Lemma delete_occ w hs m x :
  NoDup (keys m) -> WMap.get w m = Some hs ->
  occ x (map (fun e => handle (snd e)) m)
  = occ x (map (fun e => handle (snd e)) (WMap.delete w m))
    + (if handle hs =? x then 1 else 0).
Proof.
  induction m as [|[k v] m IH]; simpl; [discriminate|].
  intros Hnd Hget. inversion Hnd as [|? ? Hk Hnd']; subst.
  destruct (Nat.eqb_spec k w) as [->|Hne]; simpl.
  - injection Hget as ->. rewrite delete_absent by assumption.
    rewrite occ_cons. lia.
  - rewrite !occ_cons. rewrite (IH Hnd' Hget). lia.
Qed.

(** ** One turn of the dispatcher *)

Lemma dispatch_cases p :
  (canAssign p = false /\ dispatch p = p)
  \/ (exists item queue worker idle,
        isClosing p = false /\ taskQueue p = item :: queue
        /\ idleWorkers p = worker :: idle
        /\ dispatch p = assigned item queue worker idle p).
Proof.
  unfold dispatch, canAssign, assigned.
  destruct p as [n tmo ws idle q m c tow ew th nw nh nt tm st po te]; simpl.
  destruct c; simpl; [now left|].
  destruct q as [|item q]; simpl; [now left|].
  destruct idle as [|w idle]; simpl; [now left|].
  right. exists item, q, w, idle. repeat split.
  destruct tmo; reflexivity.
Qed.

Lemma dispatch_idle p : canAssign p = false -> dispatch p = p.
Proof.
  intros H. destruct (dispatch_cases p) as [[_ E]|(i & q & w & l & Hc & Hq & Hi & _)].
  - exact E.
  - unfold canAssign in H. rewrite Hc, Hq, Hi in H. discriminate.
Qed.

Lemma dispatch_assigned p item queue worker idle :
  isClosing p = false -> taskQueue p = item :: queue ->
  idleWorkers p = worker :: idle ->
  dispatch p = assigned item queue worker idle p.
Proof.
  intros Hc Hq Hi.
  destruct (dispatch_cases p) as [[E _]|(i & q & w & l & _ & Hq' & Hi' & E)].
  - unfold canAssign in E. rewrite Hc, Hq, Hi in E. discriminate.
  - rewrite Hq in Hq'. rewrite Hi in Hi'.
    injection Hq' as <- <-. injection Hi' as <- <-. exact E.
Qed.

Lemma Inv_assigned p item queue worker idle :
  Inv p -> isClosing p = false -> taskQueue p = item :: queue ->
  idleWorkers p = worker :: idle ->
  Inv (assigned item queue worker idle p).
Proof.
  intros [H1 H2 H3 H4 H5 H6 H7 H8 H9 H10 H11 H12 H13 H14] Hc Hq Hi.
  assert (Hw : ~ In worker (keys (workerTaskMap p))).
  { apply H7. rewrite Hi. now left. }
  assert (Hwi : ~ In worker idle /\ NoDup idle).
  { rewrite Hi in H2. inversion H2; auto. }
  assert (Hww : In worker (workers p)).
  { apply H3. rewrite Hi. now left. }
  unfold assigned. rewrite (set_absent _ _ _ Hw).
  constructor; simpl; unfold keys in *.
  - assumption.
  - tauto.
  - intros x Hx. apply H3. rewrite Hi. now right.
  - assumption.
  - assumption.
  - intros w. rewrite map_app, in_app_iff. simpl. intros [H|[<-|[]]]; auto.
  - intros w Hin. rewrite map_app, in_app_iff. simpl.
    intros [H|[<-|[]]].
    + apply (H7 w); [rewrite Hi; now right | assumption].
    + tauto.
  - rewrite map_app. simpl. apply NoDup_app; auto.
    + constructor; [tauto | constructor].
    + intros x Hx [<-|[]]. tauto.
  - intros w. rewrite map_app, in_app_iff. simpl. intros [H|[<-|[]]]; auto.
  - intros t w h. destruct (taskTimeoutMs p); rewrite ?in_app_iff; simpl.
    + intros [H|[[= <- <- <-]|[]]]; [left; auto | right; now left].
    + intros H. left; auto.
  - intros t x. destruct (taskTimeoutMs p); rewrite ?in_app_iff; simpl.
    + intros [H|[[= <- <-]|[]]]; [apply H11 in H; lia | lia].
    + apply H11.
  - intros w h t. rewrite in_app_iff. simpl.
    intros [H|[[= <- <-]|[]]] Ht.
    + specialize (H12 _ _ _ H Ht). destruct (taskTimeoutMs p); lia.
    + simpl in Ht. destruct (taskTimeoutMs p); [injection Ht as <-; lia | discriminate].
  - congruence.
  - intros h. specialize (H14 h). unfold tally, queued, inFlight, settledHandles in *.
    simpl. rewrite Hq in H14. simpl in H14. rewrite occ_cons in H14.
    rewrite map_app, occ_app. simpl. rewrite occ_single. lia.
Qed.

(** ** The invariant, step by step *)

Lemma Inv_finished p w hs o :
  Inv p -> WMap.get w (workerTaskMap p) = Some hs -> Inv (finished w hs o p).
Proof.
  intros [H1 H2 H3 H4 H5 H6 H7 H8 H9 H10 H11 H12 H13 H14] Hget.
  assert (Htm : forall e, In e (timers (clearTimeout (timeoutId hs) p)) ->
                          In e (timers p) /\ timeoutId hs <> Some (fst e)).
  { intros e. unfold clearTimeout. destruct (timeoutId hs) as [t|]; simpl.
    - rewrite filter_In, negb_true_iff, Nat.eqb_neq. intros [Ha Hb].
      split; [assumption | intros [= E]; apply Hb; now rewrite E].
    - intros ?. split; [assumption | discriminate]. }
  assert (Hfld : forall q, workerTaskMap (clearTimeout (timeoutId hs) q) = workerTaskMap q
                      /\ settled (clearTimeout (timeoutId hs) q) = settled q
                      /\ taskQueue (clearTimeout (timeoutId hs) q) = taskQueue q
                      /\ nextTimeout (clearTimeout (timeoutId hs) q) = nextTimeout q
                      /\ nextHandle (clearTimeout (timeoutId hs) q) = nextHandle q
                      /\ isClosing (clearTimeout (timeoutId hs) q) = isClosing q
                      /\ workers (clearTimeout (timeoutId hs) q) = workers q
                      /\ idleWorkers (clearTimeout (timeoutId hs) q) = idleWorkers q
                      /\ threads (clearTimeout (timeoutId hs) q) = threads q
                      /\ nextWorker (clearTimeout (timeoutId hs) q) = nextWorker q).
  { intros q. unfold clearTimeout. destruct (timeoutId hs); simpl; repeat split. }
  destruct (Hfld p) as (F1 & F2 & F3 & F4 & F5 & F6 & F7 & F8 & F9 & F10).
  unfold finished, settle.
  constructor; simpl; rewrite ?F1, ?F2, ?F3, ?F4, ?F5, ?F6, ?F7, ?F8, ?F9, ?F10;
    try assumption.
  - intros x. rewrite delete_keys, without_In. intros [? _]. auto.
  - intros x Hx. rewrite delete_keys, without_In. intros [? _]. now apply (H7 x).
  - rewrite delete_keys. now apply without_NoDup.
  - intros x. rewrite delete_keys, without_In. intros [? _]. auto.
  - intros t x h Hin. apply Htm in Hin. destruct Hin as [Hin Hne]. simpl in Hne.
    apply delete_In. split; [auto|]. simpl. intros ->.
    apply H10 in Hin. apply (In_get _ _ _ H8) in Hin.
    rewrite Hget in Hin. injection Hin as ->. simpl in Hne. congruence.
  - intros t x Hin. apply Htm in Hin. destruct Hin as [Hin _]. eauto.
  - intros x h t. rewrite delete_In. intros [Hin _]. eauto.
  - intros Hc. destruct (H13 Hc) as [Hq Hm]. rewrite Hm in Hget. discriminate.
  - intros h. specialize (H14 h). unfold tally, queued, inFlight, settledHandles in *.
    simpl. rewrite ?F1, ?F2, ?F3. rewrite map_app, occ_app. simpl. rewrite occ_single.
    rewrite (delete_occ w hs _ h H8 Hget) in H14. lia.
Qed.

Lemma Inv_removeWorker p w :
  Inv p -> ~ In w (keys (workerTaskMap p)) -> Inv (removeWorker w p).
Proof.
  intros [H1 H2 H3 H4 H5 H6 H7 H8 H9 H10 H11 H12 H13 H14] Hw.
  unfold removeWorker. constructor; simpl; try assumption.
  - now apply without_NoDup.
  - now apply without_NoDup.
  - intros x. rewrite !without_In. intros [? ?]. split; auto.
  - intros x. rewrite without_In. intros [? ?]. auto.
  - intros x. rewrite without_In. intros [? ?]. auto.
  - intros x Hx Ht. rewrite without_In. split; [auto | congruence].
Qed.

Lemma Inv_exited p w :
  Inv p -> Inv (removeWorker w (set_threads (without w (threads p)) p)).
Proof.
  intros [H1 H2 H3 H4 H5 H6 H7 H8 H9 H10 H11 H12 H13 H14].
  unfold removeWorker. constructor; simpl; try assumption.
  - now apply without_NoDup.
  - now apply without_NoDup.
  - intros x. rewrite !without_In. intros [? ?]. split; auto.
  - intros x. rewrite !without_In. intros [? ?]. split; auto.
  - intros x. rewrite without_In. intros [? ?]. auto.
  - intros x. rewrite without_In. intros [? ?]. auto.
  - intros x Hx. rewrite !without_In. intros [? ?]. split; auto.
Qed.

Lemma Inv_spawned p : Inv p -> Inv (spawned p).
Proof.
  intros [H1 H2 H3 H4 H5 H6 H7 H8 H9 H10 H11 H12 H13 H14].
  assert (Hth : ~ In (nextWorker p) (threads p)).
  { intros H. apply H5 in H. lia. }
  assert (Hws : ~ In (nextWorker p) (workers p)) by (intros H; auto).
  assert (Hid : ~ In (nextWorker p) (idleWorkers p)) by (intros H; auto).
  unfold spawned. constructor; simpl; try assumption.
  - apply NoDup_app; auto.
    + constructor; [simpl; tauto | constructor].
    + intros x Hx [<-|[]]. tauto.
  - apply NoDup_app; auto.
    + constructor; [simpl; tauto | constructor].
    + intros x Hx [<-|[]]. tauto.
  - intros x. rewrite !in_app_iff. intros [?|?]; auto.
  - intros x. rewrite !in_app_iff. intros [?|?]; auto.
  - intros x. rewrite in_app_iff. simpl. intros [H|[<-|[]]]; [apply H5 in H|]; lia.
  - intros x Hx. apply H6 in Hx. lia.
  - intros x. rewrite in_app_iff. simpl. intros [H|[<-|[]]]; auto.
    intros Hk. apply H6 in Hk. lia.
  - intros x Hx. rewrite !in_app_iff. simpl. intros [H|[<-|[]]]; auto.
Qed.

Lemma Inv_enqueued p t : Inv p -> isClosing p = false -> Inv (enqueued t p).
Proof.
  intros [H1 H2 H3 H4 H5 H6 H7 H8 H9 H10 H11 H12 H13 H14] Hc.
  unfold enqueued. constructor; simpl; try assumption.
  - congruence.
  - intros h. specialize (H14 h). unfold tally, queued, inFlight, settledHandles in *.
    simpl. rewrite map_app, occ_app. simpl. rewrite occ_single.
    destruct (Nat.eqb_spec (nextHandle p) h) as [<-|Hne].
    + rewrite Nat.ltb_irrefl in H14.
      replace (nextHandle p <? S (nextHandle p)) with true
        by (symmetry; apply Nat.ltb_lt; lia). lia.
    + destruct (Nat.ltb_spec h (nextHandle p)), (Nat.ltb_spec h (S (nextHandle p))); lia.
Qed.

Lemma Inv_released p w :
  Inv p -> In w (workers p) -> ~ In w (idleWorkers p) ->
  ~ In w (keys (workerTaskMap p)) ->
  Inv (set_idleWorkers (idleWorkers p ++ [w]) p).
Proof.
  intros [H1 H2 H3 H4 H5 H6 H7 H8 H9 H10 H11 H12 H13 H14] Hw Hi Hk.
  constructor; simpl; try assumption.
  - apply NoDup_app; auto.
    + constructor; [simpl; tauto | constructor].
    + intros x Hx [<-|[]]. tauto.
  - intros x. rewrite in_app_iff. simpl. intros [H|[<-|[]]]; auto.
  - intros x. rewrite in_app_iff. simpl. intros [H|[<-|[]]]; auto.
Qed.

Lemma Inv_timedOut p v : Inv p -> Inv (set_timedOutWorkers v p).
Proof. intros []. constructor; simpl; assumption. Qed.

Lemma Inv_errored p v : Inv p -> Inv (set_erroredWorkers v p).
Proof. intros []. constructor; simpl; assumption. Qed.

Lemma Inv_terminate p w : Inv p -> Inv (terminate w p).
Proof. intros []. constructor; simpl; assumption. Qed.

Lemma Inv_dispatch p : Inv p -> Inv (dispatch p).
Proof.
  intros H. destruct (dispatch_cases p) as [[_ E]|(i & q & w & l & Hc & Hq & Hi & E)];
    rewrite E; [assumption|]. now apply Inv_assigned.
Qed.

Lemma spawnWorker_eq d p :
  spawnWorker d p = if isClosing p then p else d (spawned p).
Proof. reflexivity. Qed.

Lemma Inv_spawnWorker p : Inv p -> Inv (spawnWorker dispatch p).
Proof.
  intros H. rewrite spawnWorker_eq. destruct (isClosing p); [assumption|].
  apply Inv_dispatch. now apply Inv_spawned.
Qed.

Lemma Inv_frame p q : same_core p q -> Inv p -> Inv q.
Proof.
  intros (E1 & E2 & E3 & E4 & E5 & E6 & E7 & E8 & E9 & E10 & E11)
         [H1 H2 H3 H4 H5 H6 H7 H8 H9 H10 H11 H12 H13 H14].
  constructor; unfold tally, queued, inFlight, settledHandles in *;
    rewrite <- ?E1, <- ?E2, <- ?E3, <- ?E4, <- ?E5, <- ?E6, <- ?E7, <- ?E8,
            <- ?E9, <- ?E10, <- ?E11; assumption.
Qed.

(** ** Shutdown *)

Lemma drainQueue_eq queue p :
  drainQueue queue p
  = set_settled
      (settled p ++ map (fun item => (item_handle item, Rejected PoolClosing)) queue)
      (set_taskQueue (match queue with [] => taskQueue p | _ => [] end) p).
Proof.
  revert p. induction queue as [|item queue IH]; intros p; simpl.
  - destruct p; unfold set_settled, set_taskQueue; simpl. now rewrite app_nil_r.
  - rewrite IH. unfold set_settled, set_taskQueue, settle; simpl.
    rewrite <- app_assoc. simpl. destruct queue; reflexivity.
Qed.

Lemma filter_filter {A} (f g : A -> bool) l :
  filter f (filter g l) = filter (fun x => g x && f x) l.
Proof.
  induction l as [|x l IH]; simpl; [reflexivity|].
  destruct (g x); simpl; [destruct (f x)|]; now rewrite IH.
Qed.

Lemma AsyncJson_ext p q :
  numThreads p = numThreads q -> taskTimeoutMs p = taskTimeoutMs q ->
  workers p = workers q -> idleWorkers p = idleWorkers q ->
  taskQueue p = taskQueue q -> workerTaskMap p = workerTaskMap q ->
  isClosing p = isClosing q -> timedOutWorkers p = timedOutWorkers q ->
  erroredWorkers p = erroredWorkers q -> threads p = threads q ->
  nextWorker p = nextWorker q -> nextHandle p = nextHandle q ->
  nextTimeout p = nextTimeout q -> timers p = timers q ->
  settled p = settled q -> posted p = posted q -> terminated p = terminated q ->
  p = q.
Proof. destruct p, q; simpl; intros; subst; reflexivity. Qed.

Lemma clearedBy_cons w hs entries tm :
  clearedBy entries
    (match timeoutId hs with
     | Some t => filter (fun e => negb (fst e =? t)) tm
     | None => tm
     end)
  = clearedBy ((w, hs) :: entries) tm.
Proof.
  unfold clearedBy. simpl. destruct (timeoutId hs) as [t|].
  - rewrite filter_filter. apply filter_ext. intros [k v]. simpl.
    now rewrite negb_orb.
  - reflexivity.
Qed.

Lemma rejectInFlight_eq entries p :
  rejectInFlight entries p
  = set_workerTaskMap
      (filter (fun e => negb (existsb (Nat.eqb (fst e)) (keys entries)))
         (workerTaskMap p))
      (set_settled
         (settled p ++ map (fun e => (handle (snd e), Rejected PoolClosing)) entries)
         (set_timers (clearedBy entries (timers p)) p)).
Proof.
  revert p. induction entries as [|[w hs] entries IH]; intros p.
  - apply AsyncJson_ext; simpl; try reflexivity.
    + induction (workerTaskMap p) as [|e m IHm]; simpl; [reflexivity | now f_equal].
    + unfold clearedBy. simpl.
      induction (timers p) as [|e m IHm]; simpl; [reflexivity | now f_equal].
    + now rewrite app_nil_r.
  - cbn [rejectInFlight]. rewrite IH. clear IH.
    apply AsyncJson_ext; unfold clearTimeout; destruct (timeoutId hs) as [t|] eqn:Et;
      simpl; try reflexivity.
    + unfold WMap.delete. rewrite filter_filter. apply filter_ext.
      intros [k v]. simpl. now rewrite negb_orb, (Nat.eqb_sym k w).
    + unfold WMap.delete. rewrite filter_filter. apply filter_ext.
      intros [k v]. simpl. now rewrite negb_orb, (Nat.eqb_sym k w).
    + rewrite <- (clearedBy_cons w hs). now rewrite Et.
    + rewrite <- (clearedBy_cons w hs). now rewrite Et.
    + now rewrite <- app_assoc.
    + now rewrite <- app_assoc.
Qed.

Lemma terminate_all ws p :
  fold_left (fun p worker => terminate worker p) ws p
  = set_terminated (terminated p ++ ws) p.
Proof.
  revert p. induction ws as [|w ws IH]; intros p; simpl.
  - destruct p; unfold set_terminated; simpl. now rewrite app_nil_r.
  - rewrite IH. unfold terminate, set_terminated; simpl. now rewrite <- app_assoc.
Qed.

Lemma unassign_all (m : WMap.t) :
  filter (fun e => negb (existsb (Nat.eqb (fst e)) (keys m))) m = [].
Proof.
  assert (G : forall l, incl l m ->
            filter (fun e => negb (existsb (Nat.eqb (fst e)) (keys m))) l = []).
  { induction l as [|[k v] l IH]; intros Hl; [reflexivity|].
    assert (Hex : existsb (Nat.eqb k) (keys m) = true).
    { apply existsb_eqb_In. apply (in_map fst _ (k, v)). apply Hl. now left. }
    cbn [filter fst]. rewrite Hex. cbn [negb]. apply IH.
    intros x Hx. apply Hl. now right. }
  apply G. apply incl_refl.
Qed.

Lemma close_eq p : close p = closed p.
Proof.
  unfold close. rewrite terminate_all, rejectInFlight_eq, drainQueue_eq.
  unfold closed, closingRejections. simpl.
  rewrite unassign_all, <- app_assoc.
  destruct (taskQueue p); reflexivity.
Qed.

Lemma clearedBy_In entries tm e :
  In e (clearedBy entries tm) ->
  In e tm /\ forall w hs, In (w, hs) entries -> timeoutId hs <> Some (fst e).
Proof.
  unfold clearedBy. intros H. apply filter_In in H. destruct H as [Hin Hex].
  apply negb_true_iff, not_true_iff_false in Hex.
  split; [assumption|]. intros w hs Hhs Ht. apply Hex.
  apply existsb_exists. exists (w, hs). split; [assumption|]. simpl.
  rewrite Ht. apply Nat.eqb_refl.
Qed.

Lemma Inv_timers_cleared p : Inv p -> clearedBy (workerTaskMap p) (timers p) = [].
Proof.
  intros H. destruct (clearedBy (workerTaskMap p) (timers p)) as [|[t [w h]] l] eqn:E;
    [reflexivity|].
  assert (Hin : In (t, (w, h)) (clearedBy (workerTaskMap p) (timers p)))
    by (rewrite E; now left).
  apply clearedBy_In in Hin. destruct Hin as [Hin Hno].
  apply (inv_timers _ H) in Hin. exfalso. now apply (Hno _ _ Hin).
Qed.

Lemma Inv_close p : Inv p -> Inv (close p).
Proof.
  intros H. rewrite close_eq. pose proof (Inv_timers_cleared p H) as Htm.
  destruct H as [H1 H2 H3 H4 H5 H6 H7 H8 H9 H10 H11 H12 H13 H14].
  unfold closed. rewrite Htm. constructor; simpl; try assumption; try tauto.
  - constructor.
  - intros h. specialize (H14 h).
    unfold tally, queued, inFlight, settledHandles, closingRejections in *. simpl.
    rewrite !map_app, !occ_app, !map_map. simpl.
    change (fun x : TaskQueueItem => item_handle x) with item_handle.
    change (occ h []) with 0 in H14. lia.
Qed.

(** ** The handlers keep the invariant *)

Lemma finished_frame w hs o p :
  workers (finished w hs o p) = workers p
  /\ idleWorkers (finished w hs o p) = idleWorkers p
  /\ taskQueue (finished w hs o p) = taskQueue p
  /\ isClosing (finished w hs o p) = isClosing p
  /\ threads (finished w hs o p) = threads p
  /\ nextWorker (finished w hs o p) = nextWorker p
  /\ workerTaskMap (finished w hs o p) = WMap.delete w (workerTaskMap p)
  /\ settled (finished w hs o p) = settled p ++ [(handle hs, o)].
Proof.
  unfold finished, clearTimeout. destruct (timeoutId hs); simpl; repeat split.
Qed.

Lemma finished_unassigned w hs o p :
  ~ In w (keys (workerTaskMap (finished w hs o p))).
Proof.
  destruct (finished_frame w hs o p) as (_ & _ & _ & _ & _ & _ & E & _).
  rewrite E, delete_keys. apply without_self.
Qed.

Lemma Inv_runTask p t : Inv p -> Inv (snd (runTask dispatch t p)).
Proof.
  intros H. unfold runTask. destruct (isClosing p) eqn:Hc; simpl; [assumption|].
  apply Inv_dispatch. now apply (Inv_enqueued p t).
Qed.

Lemma Inv_onMessage p w m :
  Inv p -> In w (threads p) -> Inv (onMessage dispatch w m p).
Proof.
  intros H Hth. unfold onMessage.
  destruct (WMap.get w (workerTaskMap p)) as [hs|] eqn:Hget; [|assumption].
  apply Inv_dispatch.
  set (o := match status m with
            | StatusOk => Resolved (data m)
            | StatusError => Rejected (MessageError (error m))
            end).
  pose proof (Inv_finished p w hs o H Hget) as Hf.
  destruct (finished_frame w hs o p) as (F1 & F2 & F3 & F4 & F5 & F6 & F7 & F8).
  assert (Hk : In w (keys (workerTaskMap p))).
  { apply get_Some_In in Hget. eapply In_keys; eassumption. }
  apply (Inv_frame (set_idleWorkers (idleWorkers (finished w hs o p) ++ [w])
                      (finished w hs o p))).
  - subst o. destruct (status m); core.
  - apply Inv_released; [assumption | | | apply finished_unassigned].
    + rewrite F1. now apply (inv_busy_registered _ H).
    + rewrite F2. intros Hi. now apply (inv_idle_unassigned _ H w).
Qed.

Lemma Inv_replaceWorker p w :
  Inv p -> ~ In w (keys (workerTaskMap p)) -> Inv (replaceWorker dispatch w p).
Proof.
  intros H Hk. unfold replaceWorker. apply Inv_spawnWorker.
  now apply Inv_removeWorker.
Qed.

Lemma Inv_onError p w err : Inv p -> Inv (onError dispatch w err p).
Proof.
  intros H. unfold onError. apply Inv_replaceWorker.
  - simpl. destruct (WMap.get w (workerTaskMap p)) as [hs|] eqn:Hget.
    + apply (Inv_frame (finished w hs (Rejected (WorkerError err)) p)); [core|].
      now apply Inv_finished.
    + now apply Inv_errored.
  - simpl. destruct (WMap.get w (workerTaskMap p)) as [hs|] eqn:Hget.
    + simpl. rewrite delete_keys. apply without_self.
    + simpl. now apply get_None_keys.
Qed.

Lemma Inv_onExit p w code :
  Inv p -> Inv (onExit dispatch w code (set_threads (without w (threads p)) p)).
Proof.
  intros H.
  assert (G0 : forall q, same_core (removeWorker w (set_threads (without w (threads p)) p)) q ->
                         Inv q).
  { intros q Hq. apply (Inv_frame _ _ Hq). now apply Inv_exited. }
  assert (G1 : forall hs q,
             WMap.get w (workerTaskMap p) = Some hs ->
             same_core
               (removeWorker w
                  (set_threads (without w (threads p))
                     (finished w hs (Rejected (ExitError code)) p))) q ->
             Inv q).
  { intros hs q Hget Hq. apply (Inv_frame _ _ Hq).
    pose proof (Inv_finished p w hs (Rejected (ExitError code)) H Hget) as Hf.
    destruct (finished_frame w hs (Rejected (ExitError code)) p)
      as (_ & _ & _ & _ & F5 & _).
    rewrite <- F5. now apply Inv_exited. }
  unfold onExit, replaceWorker. simpl.
  destruct (WeakSet.has w (timedOutWorkers p)), (WeakSet.has w (erroredWorkers p));
    simpl;
    destruct (code =? 0)%Z, (isClosing p) eqn:Hc; simpl;
    try (apply G0; unfold removeWorker; core);
    try (apply Inv_spawnWorker; apply G0; unfold removeWorker; core).
  destruct (WMap.get w (workerTaskMap p)) as [hs|] eqn:Hget.
  - apply Inv_spawnWorker. apply (G1 hs _ eq_refl). unfold removeWorker. core.
  - apply Inv_spawnWorker. apply G0. unfold removeWorker. core.
Qed.

Lemma pendingTimer_In t w h p :
  pendingTimer t p = Some (w, h) -> In (t, (w, h)) (timers p).
Proof.
  unfold pendingTimer.
  destruct (find (fun e => fst e =? t) (timers p)) as [[t' x]|] eqn:E; [|discriminate].
  apply find_some in E. destruct E as [Hin Heq]. simpl in *.
  apply Nat.eqb_eq in Heq. subst t'. intros [= ->]. exact Hin.
Qed.

Lemma Inv_onTimeout p t w h :
  Inv p -> pendingTimer t p = Some (w, h) ->
  Inv (onTimeout dispatch w h
         (set_timers (filter (fun e => negb (fst e =? t)) (timers p)) p)).
Proof.
  intros H Hp. apply pendingTimer_In in Hp.
  pose proof (inv_timers _ H _ _ _ Hp) as Hin.
  pose proof (In_get _ _ _ (inv_map_nodup _ H) Hin) as Hget.
  unfold onTimeout, WMap.has. simpl. rewrite Hget. simpl.
  apply Inv_dispatch. apply Inv_replaceWorker.
  - apply (Inv_frame (finished w {| handle := h; timeoutId := Some t |}
                        (Rejected TimedOut) p)); [core|].
    now apply Inv_finished.
  - simpl. rewrite delete_keys. apply without_self.
Qed.

Lemma Inv_handle_event p ev :
  Inv p -> enabled p ev = true -> Inv (handle_event dispatch ev p).
Proof.
  intros H He. destruct ev as [t| |w m|w err|w code|t]; simpl in *.
  - now apply Inv_runTask.
  - now apply Inv_close.
  - apply Inv_onMessage; [assumption | now apply existsb_eqb_In].
  - now apply Inv_onError.
  - now apply Inv_onExit.
  - destruct (pendingTimer t p) as [[w h]|] eqn:Hp; [|assumption].
    now apply Inv_onTimeout.
Qed.

Lemma Inv_run evs : forall p p',
  Inv p -> run dispatch evs p = Some p' -> Inv p'.
Proof.
  induction evs as [|ev evs IH]; simpl; intros p p' H Hr.
  - now injection Hr as <-.
  - destruct (enabled p ev) eqn:He; [|discriminate].
    eapply IH; [|eassumption]. now apply Inv_handle_event.
Qed.

Lemma Inv_initWorkers n : forall p, Inv p -> Inv (initWorkers dispatch n p).
Proof.
  induction n as [|n IH]; simpl; intros p H; [assumption|].
  apply IH. now apply Inv_spawnWorker.
Qed.

Lemma Inv_new n tmo : Inv (new dispatch n tmo).
Proof.
  unfold new. apply Inv_initWorkers.
  constructor; simpl; try (constructor; fail); try (intros ? []; fail);
    try (intros ? ? []; fail); try (intros ? ? ? []; fail); try discriminate.
Qed.

Lemma Inv_Reachable n tmo p : Reachable n tmo p -> Inv p.
Proof. intros [evs Hr]. eapply Inv_run; [apply Inv_new | eassumption]. Qed.

(** ** One turn is enough

    [dispatch] is called after one task was queued or one worker became
    idle, in a state where no task waited while a worker was idle. There the
    loop of the specification makes at most one turn. *)

Lemma dispatch_loop_idle n p : canAssign p = false -> dispatch_loop n p = p.
Proof. intros H. destruct n; simpl; [reflexivity | now rewrite H]. Qed.

Lemma canAssign_assigned item queue worker idle p :
  canAssign (assigned item queue worker idle p)
  = negb (isClosing p) && negb (length queue =? 0) && negb (length idle =? 0).
Proof. reflexivity. Qed.

Lemma dispatch_spec_one_turn p : OneTurn p -> dispatch_spec p = dispatch p.
Proof.
  intros Hone. unfold dispatch_spec.
  destruct (dispatch_cases p) as [[Hno E]|(i & q & w & l & Hc & Hq & Hi & E)].
  - rewrite E. now apply dispatch_loop_idle.
  - rewrite Hq. simpl. unfold canAssign. rewrite Hc, Hq, Hi. simpl.
    rewrite E. apply dispatch_loop_idle. rewrite canAssign_assigned.
    destruct Hone as [Hone|Hone]; [rewrite Hq in Hone|rewrite Hi in Hone];
      simpl in Hone.
    + destruct q; [|simpl in Hone; lia]. simpl. now rewrite andb_false_r.
    + destruct l; [|simpl in Hone; lia]. simpl. now rewrite andb_false_r.
Qed.

(** The loop stops because nothing more can be assigned, not because its
    turns ran out. *)
Lemma dispatch_loop_done n : forall p,
  length (taskQueue p) <= n -> canAssign (dispatch_loop n p) = false.
Proof.
  induction n as [|n IH]; intros p Hn; simpl.
  - unfold canAssign. destruct (taskQueue p); [|simpl in Hn; lia].
    simpl. now rewrite andb_false_r.
  - destruct (canAssign p) eqn:Hcan; [|assumption].
    apply IH.
    destruct (dispatch_cases p) as [[Hno E]|(i & q & w & l & Hc & Hq & Hi & E)].
    + congruence.
    + rewrite E. simpl. rewrite Hq in Hn. simpl in Hn. lia.
Qed.

Lemma dispatch_spec_done p : canAssign (dispatch_spec p) = false.
Proof. apply dispatch_loop_done. lia. Qed.

Lemma Settled_OneTurn p : Settled p -> OneTurn p.
Proof. intros [[H|H] _]; [left|right]; rewrite H; simpl; lia. Qed.

Lemma Settled_dispatch p :
  OneTurn p -> (isClosing p = true -> taskQueue p = []) -> Settled (dispatch p).
Proof.
  intros Hone Hcl.
  destruct (dispatch_cases p) as [[Hno E]|(i & q & w & l & Hc & Hq & Hi & E)];
    rewrite E.
  - split; [|assumption]. unfold canAssign in Hno. unfold Quiescent.
    destruct (isClosing p); [left; auto|].
    destruct (taskQueue p); [now left|].
    destruct (idleWorkers p); [now right|]. discriminate.
  - split; simpl; [|congruence].
    destruct Hone as [Hone|Hone]; [rewrite Hq in Hone|rewrite Hi in Hone];
      simpl in Hone.
    + left. destruct q; [reflexivity | simpl in Hone; lia].
    + right. destruct l; [reflexivity | simpl in Hone; lia].
Qed.

Lemma Settled_sub p q :
  Settled p -> taskQueue q = taskQueue p -> isClosing q = isClosing p ->
  (idleWorkers p = [] -> idleWorkers q = []) -> Settled q.
Proof.
  intros [Hq Hc] E1 E2 E3. split; [|rewrite E1, E2; exact Hc].
  destruct Hq as [Hq|Hq]; [left; congruence | right; auto].
Qed.

Lemma OneTurn_spawned p : Settled p -> OneTurn (spawned p).
Proof.
  intros [[H|H] _]; [left|right]; simpl; rewrite H; simpl; lia.
Qed.

Lemma Settled_spawnWorker p : Settled p -> Settled (spawnWorker dispatch p).
Proof.
  intros H. rewrite spawnWorker_eq. destruct (isClosing p) eqn:Hc; [assumption|].
  apply Settled_dispatch; [now apply OneTurn_spawned|]. simpl. congruence.
Qed.

Lemma Settled_close p : Settled (close p).
Proof. rewrite close_eq. split; [now left | reflexivity]. Qed.

Section Dispatchers.

(** A dispatcher that does what [dispatch] does wherever one turn is
    enough. *)
Variable d : AsyncJson -> AsyncJson.
Hypothesis d_one_turn : forall p, OneTurn p -> d p = dispatch p.

Lemma spawnWorker_agree p : Settled p -> spawnWorker d p = spawnWorker dispatch p.
Proof.
  intros H. rewrite !spawnWorker_eq. destruct (isClosing p); [reflexivity|].
  apply d_one_turn. now apply OneTurn_spawned.
Qed.

Lemma replaceWorker_agree w p q :
  Settled p -> taskQueue q = taskQueue p -> isClosing q = isClosing p ->
  (idleWorkers p = [] -> idleWorkers q = []) ->
  replaceWorker d w q = replaceWorker dispatch w q
  /\ Settled (replaceWorker dispatch w q).
Proof.
  intros H E1 E2 E3. unfold replaceWorker.
  assert (Hs : Settled (removeWorker w q)).
  { apply (Settled_sub p); try assumption. simpl. intros Hi.
    now rewrite (E3 Hi). }
  split; [now apply spawnWorker_agree | now apply Settled_spawnWorker].
Qed.

Lemma runTask_agree t p :
  Settled p -> runTask d t p = runTask dispatch t p
               /\ Settled (snd (runTask dispatch t p)).
Proof.
  intros H. unfold runTask. destruct (isClosing p) eqn:Hc; simpl; [now split|].
  assert (Hone : OneTurn (enqueued t p)).
  { destruct H as [[H|H] _]; [left|right]; simpl; rewrite H; simpl; lia. }
  split.
  - f_equal. now apply (d_one_turn (enqueued t p)).
  - apply (Settled_dispatch (enqueued t p)); [assumption|]. simpl. congruence.
Qed.

Lemma onMessage_agree w m p :
  Settled p -> onMessage d w m p = onMessage dispatch w m p
               /\ Settled (onMessage dispatch w m p).
Proof.
  intros H. unfold onMessage.
  destruct (WMap.get w (workerTaskMap p)) as [hs|]; [|now split].
  match goal with |- d ?q = _ /\ _ => assert (Hone : OneTurn q /\ taskQueue q = taskQueue p /\ isClosing q = isClosing p) end.
  { destruct (status m), (timeoutId hs); simpl; (split; [|split; reflexivity]);
      (destruct H as [[H|H] _]; [left|right]; simpl; rewrite H; simpl; lia). }
  destruct Hone as (Hone & E1 & E2). split.
  - now apply d_one_turn.
  - apply Settled_dispatch; [assumption|]. rewrite E1, E2. apply H.
Qed.

Lemma onError_agree w err p :
  Settled p -> onError d w err p = onError dispatch w err p
               /\ Settled (onError dispatch w err p).
Proof.
  intros H. unfold onError. apply (replaceWorker_agree w p); try assumption; frame.
Qed.

Lemma onExit_agree w code p :
  Settled p ->
  onExit d w code (set_threads (without w (threads p)) p)
  = onExit dispatch w code (set_threads (without w (threads p)) p)
  /\ Settled (onExit dispatch w code (set_threads (without w (threads p)) p)).
Proof.
  intros H. unfold onExit. simpl.
  destruct (WeakSet.has w (timedOutWorkers p)), (WeakSet.has w (erroredWorkers p));
    simpl; destruct (code =? 0)%Z, (isClosing p) eqn:Hc; simpl;
    try (split; [reflexivity | apply (Settled_sub p); try assumption; frame;
                               try (rewrite Hc; reflexivity); intros ->; reflexivity]);
    try (apply (replaceWorker_agree w p); try assumption; frame;
         rewrite Hc; reflexivity).
Qed.

Lemma onTimeout_agree w h p q :
  Settled p -> taskQueue q = taskQueue p -> isClosing q = isClosing p ->
  idleWorkers q = idleWorkers p ->
  onTimeout d w h q = onTimeout dispatch w h q
  /\ Settled (onTimeout dispatch w h q).
Proof.
  intros H E1 E2 E3. unfold onTimeout.
  destruct (WMap.has w (workerTaskMap q)); simpl.
  - match goal with |- d (replaceWorker d w ?x) = _ /\ _ =>
      destruct (replaceWorker_agree w p x H) as [Ea Hs]; try assumption end.
    { simpl. now rewrite E3. }
    rewrite Ea. split.
    + apply d_one_turn. now apply Settled_OneTurn.
    + apply Settled_dispatch; [now apply Settled_OneTurn | apply Hs].
  - split; [reflexivity|]. apply (Settled_sub p); try assumption.
    now rewrite E3.
Qed.

Lemma handle_event_agree ev p :
  Settled p -> handle_event d ev p = handle_event dispatch ev p
               /\ Settled (handle_event dispatch ev p).
Proof.
  intros H. destruct ev as [t| |w m|w err|w code|t]; simpl.
  - destruct (runTask_agree t p H) as [E Hs]. now rewrite E.
  - split; [reflexivity | apply Settled_close].
  - now apply onMessage_agree.
  - now apply onError_agree.
  - now apply onExit_agree.
  - destruct (pendingTimer t p) as [[w h]|]; [|now split].
    now apply (onTimeout_agree w h p).
Qed.

Lemma run_agree evs : forall p,
  Settled p ->
  run d evs p = run dispatch evs p
  /\ forall p', run dispatch evs p = Some p' -> Settled p'.
Proof.
  induction evs as [|ev evs IH]; simpl; intros p H.
  - split; [reflexivity|]. now intros p' [= <-].
  - destruct (enabled p ev); [|split; [reflexivity | discriminate]].
    destruct (handle_event_agree ev p H) as [E Hs]. rewrite E. now apply IH.
Qed.

Lemma initWorkers_agree n : forall p,
  Settled p -> initWorkers d n p = initWorkers dispatch n p
               /\ Settled (initWorkers dispatch n p).
Proof.
  induction n as [|n IH]; simpl; intros p H; [now split|].
  rewrite (spawnWorker_agree p H). apply IH. now apply Settled_spawnWorker.
Qed.

Lemma new_agree n tmo :
  new d n tmo = new dispatch n tmo /\ Settled (new dispatch n tmo).
Proof. unfold new. apply initWorkers_agree. split; [now left | reflexivity]. Qed.

End Dispatchers.

Lemma Settled_Reachable n tmo p : Reachable n tmo p -> Settled p.
Proof.
  intros [evs Hr].
  destruct (new_agree dispatch (fun _ _ => eq_refl) n tmo) as [_ H0].
  destruct (run_agree dispatch (fun _ _ => eq_refl) evs _ H0) as [_ H].
  now apply H.
Qed.

(** ** What the dispatcher and the spawner leave alone *)

Lemma dispatch_frame p :
  numThreads (dispatch p) = numThreads p
  /\ taskTimeoutMs (dispatch p) = taskTimeoutMs p
  /\ workers (dispatch p) = workers p
  /\ isClosing (dispatch p) = isClosing p
  /\ timedOutWorkers (dispatch p) = timedOutWorkers p
  /\ erroredWorkers (dispatch p) = erroredWorkers p
  /\ threads (dispatch p) = threads p
  /\ nextWorker (dispatch p) = nextWorker p
  /\ nextHandle (dispatch p) = nextHandle p
  /\ settled (dispatch p) = settled p
  /\ terminated (dispatch p) = terminated p.
Proof.
  destruct (dispatch_cases p) as [[_ E]|(i & q & w & l & _ & _ & _ & E)];
    rewrite E; repeat split.
Qed.

Lemma spawnWorker_frame p :
  numThreads (spawnWorker dispatch p) = numThreads p
  /\ taskTimeoutMs (spawnWorker dispatch p) = taskTimeoutMs p
  /\ isClosing (spawnWorker dispatch p) = isClosing p
  /\ timedOutWorkers (spawnWorker dispatch p) = timedOutWorkers p
  /\ erroredWorkers (spawnWorker dispatch p) = erroredWorkers p
  /\ nextHandle (spawnWorker dispatch p) = nextHandle p
  /\ settled (spawnWorker dispatch p) = settled p
  /\ terminated (spawnWorker dispatch p) = terminated p
  /\ nextWorker (spawnWorker dispatch p)
     = (if isClosing p then nextWorker p else S (nextWorker p))
  /\ workers (spawnWorker dispatch p)
     = (if isClosing p then workers p else workers p ++ [nextWorker p])
  /\ threads (spawnWorker dispatch p)
     = (if isClosing p then threads p else threads p ++ [nextWorker p]).
Proof.
  rewrite spawnWorker_eq. destruct (isClosing p) eqn:Hc; [repeat split; auto|].
  destruct (dispatch_frame (spawned p))
    as (F1 & F2 & F3 & F4 & F5 & F6 & F7 & F8 & F9 & F10 & F11).
  rewrite F1, F2, F3, F4, F5, F6, F7, F8, F9, F10, F11. repeat split; auto.
Qed.

Lemma set_keys w h m x : In x (keys (WMap.set w h m)) <-> x = w \/ In x (keys m).
Proof.
  induction m as [|[k v] m IH]; simpl.
  - split; intros [H|H]; auto.
  - destruct (Nat.eqb_spec k w) as [->|Hne]; simpl.
    + intuition auto.
    + rewrite IH. intuition auto.
Qed.

Lemma get_set_same w h m : WMap.get w (WMap.set w h m) = Some h.
Proof.
  induction m as [|[k v] m IH]; simpl.
  - now rewrite Nat.eqb_refl.
  - destruct (Nat.eqb_spec k w) as [->|Hne]; simpl.
    + now rewrite Nat.eqb_refl.
    + apply Nat.eqb_neq in Hne. now rewrite Hne.
Qed.

(** ** Attributed workers stay out of the way *)

Lemma Grows_refl p : Grows p p.
Proof. split; auto. Qed.

Lemma Grows_trans p q r : Grows p q -> Grows q r -> Grows p r.
Proof.
  intros [H1 H2] [H3 H4]. split; [lia|].
  intros w Hw. destruct (H4 w Hw) as [H|H]; [|right; lia].
  destruct (H2 w H) as [H'|H']; auto.
Qed.

Lemma Grows_dispatch p : Grows p (dispatch p).
Proof.
  destruct (dispatch_cases p) as [[_ E]|(i & q & w & l & _ & _ & Hi & E)];
    rewrite E; [apply Grows_refl|].
  split; [simpl; lia|]. intros x [Hx|Hx]; simpl in Hx; left.
  - apply set_keys in Hx. destruct Hx as [->|Hx]; [right|left; assumption].
    rewrite Hi. now left.
  - right. rewrite Hi. now right.
Qed.

Lemma Grows_spawnWorker p : Grows p (spawnWorker dispatch p).
Proof.
  rewrite spawnWorker_eq. destruct (isClosing p); [apply Grows_refl|].
  apply (Grows_trans _ (spawned p)); [|apply Grows_dispatch].
  split; [simpl; lia|]. intros x [Hx|Hx]; simpl in Hx.
  - left. now left.
  - apply in_app_iff in Hx. destruct Hx as [Hx|[<-|[]]]; [left; now right|right; lia].
Qed.

Lemma Grows_sub p q :
  nextWorker q = nextWorker p ->
  (forall w, In w (keys (workerTaskMap q)) -> In w (keys (workerTaskMap p))) ->
  (forall w, In w (idleWorkers q) -> In w (idleWorkers p)) ->
  Grows p q.
Proof.
  intros E H1 H2. split; [lia|]. intros w [H|H]; left; [left|right]; auto.
Qed.

Lemma Grows_free p q w :
  Grows p q -> ~ Occupied p w -> w < nextWorker p -> ~ Occupied q w.
Proof. intros [_ H] Hw Hlt Hq. destruct (H w Hq); [tauto | lia]. Qed.

Lemma Attributed_Grows p q :
  Attributed p -> Grows p q ->
  (forall w, In w (timedOutWorkers q) -> In w (timedOutWorkers p)) ->
  (forall w, In w (erroredWorkers q) -> In w (erroredWorkers p)) ->
  Attributed q.
Proof.
  intros Ha Hg H1 H2 w Hw.
  assert (Hp : In w (timedOutWorkers p) \/ In w (erroredWorkers p))
    by (destruct Hw; auto).
  destruct (Ha w Hp) as [Hlt Hfree]. split.
  - destruct Hg. lia.
  - eapply Grows_free; eassumption.
Qed.

Lemma Attributed_dispatch p : Attributed p -> Attributed (dispatch p).
Proof.
  intros H. destruct (dispatch_frame p) as (_ & _ & _ & _ & F5 & F6 & _).
  apply (Attributed_Grows p); [assumption | apply Grows_dispatch | |];
    intros w; rewrite ?F5, ?F6; auto.
Qed.

Lemma Attributed_spawnWorker p :
  Attributed p -> Attributed (spawnWorker dispatch p).
Proof.
  intros H.
  destruct (spawnWorker_frame p) as (_ & _ & _ & F4 & F5 & _).
  apply (Attributed_Grows p); [assumption | apply Grows_spawnWorker | |];
    intros x; rewrite ?F4, ?F5; auto.
Qed.

Lemma Attributed_sub p q :
  Attributed p -> nextWorker q = nextWorker p ->
  (forall w, In w (keys (workerTaskMap q)) -> In w (keys (workerTaskMap p))) ->
  (forall w, In w (idleWorkers q) -> In w (idleWorkers p)) ->
  (forall w, In w (timedOutWorkers q) -> In w (timedOutWorkers p)) ->
  (forall w, In w (erroredWorkers q) -> In w (erroredWorkers p)) ->
  Attributed q.
Proof.
  intros Ha En Hk Hi H1 H2.
  apply (Attributed_Grows p); try assumption. now apply Grows_sub.
Qed.

(** Marking [w] once its assignment, if any, is gone and before it is taken
    out of the idle workers. *)
Lemma Attributed_mark p q w :
  Attributed p -> w < nextWorker p ->
  nextWorker q = nextWorker p ->
  (forall x, In x (keys (workerTaskMap q)) -> In x (keys (workerTaskMap p)) /\ x <> w) ->
  idleWorkers q = idleWorkers p ->
  (forall x, In x (timedOutWorkers q) \/ In x (erroredWorkers q) ->
             x = w \/ In x (timedOutWorkers p) \/ In x (erroredWorkers p)) ->
  Attributed (removeWorker w q).
Proof.
  intros Ha Hlt En Hk Ei Hm x Hx. simpl in Hx. simpl. rewrite En.
  assert (Hfree : ~ Occupied (removeWorker w q) w).
  { intros [H|H]; simpl in H.
    - apply Hk in H. tauto.
    - now apply without_self in H. }
  destruct (Hm x Hx) as [->|Hp]; [split; assumption|].
  destruct (Ha x Hp) as [Hx1 Hx2]. split; [assumption|].
  intros [H|H]; simpl in H; apply Hx2.
  - left. now apply Hk.
  - right. rewrite Ei in H. apply without_In in H. tauto.
Qed.

Lemma Attributed_handle_event p ev :
  Inv p -> Attributed p -> enabled p ev = true ->
  Attributed (handle_event dispatch ev p).
Proof.
  intros Hinv Ha He. destruct ev as [t| |w m|w err|w code|t]; simpl in *.
  - unfold runTask. destruct (isClosing p); simpl; [assumption|].
    apply Attributed_dispatch. intros w Hw. apply (Ha w Hw).
  - rewrite close_eq. intros w Hw. destruct (Ha w Hw) as [H1 H2].
    split; [assumption|]. intros [[]|H]. apply H2. now right.
  - unfold onMessage.
    destruct (WMap.get w (workerTaskMap p)) as [hs|] eqn:Hget; [|assumption].
    apply Attributed_dispatch.
    assert (Hk : In w (keys (workerTaskMap p))).
    { apply get_Some_In in Hget. eapply In_keys; eassumption. }
    assert (G : forall q, timedOutWorkers q = timedOutWorkers p ->
                erroredWorkers q = erroredWorkers p ->
                nextWorker q = nextWorker p ->
                workerTaskMap q = WMap.delete w (workerTaskMap p) ->
                idleWorkers q = idleWorkers p ++ [w] -> Attributed q).
    { intros q E1 E2 E3 E4 E5 x Hx. rewrite E1, E2 in Hx.
      destruct (Ha x Hx) as [H1 H2]. rewrite E3. split; [assumption|].
      unfold Occupied. rewrite E4, E5, delete_keys, in_app_iff, without_In. simpl.
      intros [[H _]|[H|[<-|[]]]]; apply H2; [left|right|left]; assumption. }
    apply G; destruct (status m), (timeoutId hs); reflexivity.
  - apply existsb_eqb_In in He. pose proof (inv_threads_fresh _ Hinv w He) as Hlt.
    unfold onError, replaceWorker. apply Attributed_spawnWorker. simpl.
    destruct (WMap.get w (workerTaskMap p)) as [hs|] eqn:Hget;
      [unfold clearTimeout; destruct (timeoutId hs)|];
      (apply (Attributed_mark p); try assumption; try reflexivity; simpl;
       intros x Hx;
       first [ rewrite delete_keys, without_In in Hx; exact Hx
             | rewrite WeakSet_add_In in Hx; tauto
             | split; [exact Hx|]; intros ->;
               apply get_None_keys in Hget; now apply Hget ]).
  - unfold onExit, replaceWorker. simpl.
    destruct (WeakSet.has w (timedOutWorkers p)), (WeakSet.has w (erroredWorkers p));
      simpl; destruct (code =? 0)%Z, (isClosing p); simpl;
      try destruct (WMap.get w (workerTaskMap p)) as [hs|];
      unfold clearTimeout; try destruct (timeoutId hs);
      try apply Attributed_spawnWorker;
      (apply (Attributed_sub p); try assumption; try reflexivity; simpl;
       intros x Hx; unfold WeakSet.delete in *;
       rewrite ?delete_keys, ?without_In in Hx; tauto).
  - destruct (pendingTimer t p) as [[w h]|] eqn:Hp; [|assumption].
    unfold onTimeout. simpl.
    destruct (WMap.has w (workerTaskMap p)) eqn:Hhas; simpl.
    + apply has_get in Hhas. destruct Hhas as [hs Hget].
      assert (Hlt : w < nextWorker p).
      { apply (inv_map_fresh _ Hinv). apply get_Some_In in Hget.
        eapply In_keys; eassumption. }
      apply Attributed_dispatch. unfold replaceWorker.
      apply Attributed_spawnWorker.
      apply (Attributed_mark p); try assumption; try reflexivity; simpl;
        intros x Hx;
        first [ rewrite delete_keys, without_In in Hx; exact Hx
              | rewrite WeakSet_add_In in Hx; tauto ].
    + apply (Attributed_sub p); try assumption; try reflexivity; auto.
Qed.

Lemma Attributed_run evs : forall p p',
  Inv p -> Attributed p -> run dispatch evs p = Some p' -> Attributed p'.
Proof.
  induction evs as [|ev evs IH]; simpl; intros p p' Hi Ha Hr.
  - now injection Hr as <-.
  - destruct (enabled p ev) eqn:He; [|discriminate].
    eapply IH; [| |eassumption].
    + now apply Inv_handle_event.
    + now apply Attributed_handle_event.
Qed.

Lemma Attributed_initWorkers n : forall p,
  Attributed p -> Attributed (initWorkers dispatch n p).
Proof.
  induction n as [|n IH]; simpl; intros p H; [assumption|].
  apply IH. now apply Attributed_spawnWorker.
Qed.

Lemma Attributed_Reachable n tmo p : Reachable n tmo p -> Attributed p.
Proof.
  intros [evs Hr]. eapply Attributed_run; [apply Inv_new | | eassumption].
  unfold new. apply Attributed_initWorkers. intros w [[]|[]].
Qed.

(** ** Result handles *)

Lemma occ_In h l : In h l <-> 1 <= occ h l.
Proof. unfold occ. rewrite (count_occ_In Nat.eq_dec). lia. Qed.

Lemma occ_not_In h l : ~ In h l <-> occ h l = 0.
Proof. unfold occ. apply count_occ_not_In. Qed.

Lemma settlements_In h o p : In (h, o) (settled p) -> 1 <= settlements p h.
Proof.
  intros H. apply occ_In. unfold settledHandles.
  apply (in_map fst) in H. exact H.
Qed.

Lemma settled_replaceWorker w p :
  settled (replaceWorker dispatch w p) = settled p.
Proof.
  unfold replaceWorker.
  destruct (spawnWorker_frame (removeWorker w p)) as (_ & _ & _ & _ & _ & _ & F & _).
  now rewrite F.
Qed.

Lemma settled_dispatch p : settled (dispatch p) = settled p.
Proof. apply dispatch_frame. Qed.

Lemma get_Some_keys w hs m : WMap.get w m = Some hs -> In w (keys m).
Proof. intros H. apply get_Some_In in H. eapply In_keys; eassumption. Qed.

(** Every event that takes a handle out of the pool settles it. *)
Lemma ends_settles p ev h :
  Inv p -> Attributed p -> enabled p ev = true -> ends p ev h ->
  exists o, In (h, o) (settled (handle_event dispatch ev p)).
Proof.
  intros Hinv Ha He Hends.
  destruct ev as [t| |w m|w err|w code|t]; simpl in *.
  - contradiction.
  - exists (Rejected PoolClosing). rewrite close_eq. simpl.
    apply in_app_iff. right. unfold closingRejections. apply in_app_iff.
    unfold queued, inFlight in Hends.
    destruct Hends as [H|H]; apply in_map_iff in H; destruct H as (x & <- & Hx);
      [left|right]; apply in_map_iff; exists x; auto.
  - destruct Hends as (hs & Hget & <-). unfold onMessage. rewrite Hget.
    rewrite settled_dispatch.
    destruct (status m); eexists; simpl; apply in_app_iff; right; now left.
  - destruct Hends as (hs & Hget & <-). unfold onError.
    rewrite settled_replaceWorker. simpl. rewrite Hget.
    eexists. simpl. apply in_app_iff. right. now left.
  - destruct Hends as (Hcode & hs & Hget & <-).
    pose proof (get_Some_keys _ _ _ Hget) as Hk.
    assert (Hc : isClosing p = false).
    { destruct (isClosing p) eqn:Hc; [|reflexivity].
      destruct (inv_closing _ Hinv Hc) as [_ Hm]. rewrite Hm in Hk. destruct Hk. }
    assert (Hto : WeakSet.has w (timedOutWorkers p) = false).
    { destruct (WeakSet.has w (timedOutWorkers p)) eqn:E; [|reflexivity].
      apply WeakSet_has_In in E. destruct (Ha w (or_introl E)) as [_ Hf].
      exfalso. apply Hf. now left. }
    assert (Her : WeakSet.has w (erroredWorkers p) = false).
    { destruct (WeakSet.has w (erroredWorkers p)) eqn:E; [|reflexivity].
      apply WeakSet_has_In in E. destruct (Ha w (or_intror E)) as [_ Hf].
      exfalso. apply Hf. now left. }
    apply Z.eqb_neq in Hcode.
    unfold onExit. simpl. rewrite Hto, Her. simpl. rewrite Hcode, Hc. simpl.
    rewrite Hget.
    rewrite settled_replaceWorker.
    eexists. simpl. apply in_app_iff. right. now left.
  - destruct Hends as (w & Hp). rewrite Hp.
    pose proof (pendingTimer_In _ _ _ _ Hp) as Hin.
    apply (inv_timers _ Hinv) in Hin.
    apply (In_get _ _ _ (inv_map_nodup _ Hinv)) in Hin.
    unfold onTimeout, WMap.has. simpl. rewrite Hin. simpl.
    rewrite settled_dispatch, settled_replaceWorker.
    eexists. simpl. apply in_app_iff. right. now left.
Qed.

Lemma Reachable_step n tmo p ev :
  Reachable n tmo p -> enabled p ev = true ->
  Reachable n tmo (handle_event dispatch ev p).
Proof.
  intros [evs Hr] He. exists (evs ++ [ev]).
  revert Hr. generalize (new dispatch n tmo).
  induction evs as [|e evs IH]; simpl; intros q Hr.
  - injection Hr as ->. now rewrite He.
  - destruct (enabled q e); [|discriminate]. now apply IH.
Qed.

Lemma settlements_le_1 p h : Inv p -> settlements p h <= 1.
Proof.
  intros H. pose proof (inv_tally _ H h) as Ht. unfold tally, settlements in *.
  destruct (h <? nextHandle p); lia.
Qed.

(** C1: in every state that a pool reaches, whatever the events were, a
    result handle has been settled at most once; the handle of an accepted
    task has been settled exactly once as soon as neither the queue nor the
    map holds it, and not at all while one of them does; no other handle is
    ever settled; and every event that takes a handle out of the pool (a
    message, a fault, an exit with a status other than 0, a deadline, close)
    leaves it settled exactly once. *)
Theorem result_handle_settled_exactly_once n tmo p :
  Reachable n tmo p ->
  (forall h, settlements p h <= 1)
  /\ (forall h, h < nextHandle p ->
        (settlements p h = 1 <-> ~ In h (queued p) /\ ~ In h (inFlight p))
        /\ (settlements p h = 0 <-> In h (queued p) \/ In h (inFlight p)))
  /\ (forall h, nextHandle p <= h -> settlements p h = 0)
  /\ (forall t, isClosing p = false ->
        fst (runTask dispatch t p) = Pending (nextHandle p)
        /\ nextHandle (snd (runTask dispatch t p)) = S (nextHandle p))
  /\ (forall ev h, enabled p ev = true -> ends p ev h ->
        settlements (handle_event dispatch ev p) h = 1).
Proof.
  intros Hr. pose proof (Inv_Reachable _ _ _ Hr) as Hinv.
  pose proof (Attributed_Reachable _ _ _ Hr) as Ha.
  split; [|split; [|split; [|split]]].
  - intros h. now apply settlements_le_1.
  - intros h Hh. pose proof (inv_tally _ Hinv h) as Ht.
    apply Nat.ltb_lt in Hh. rewrite Hh in Ht.
    unfold tally, settlements in *.
    rewrite !occ_not_In. rewrite !occ_In. lia.
  - intros h Hh. pose proof (inv_tally _ Hinv h) as Ht.
    apply Nat.ltb_ge in Hh. rewrite Hh in Ht.
    unfold tally, settlements in *. lia.
  - intros t Hc. unfold runTask. rewrite Hc. simpl. split; [reflexivity|].
    destruct (dispatch_frame (enqueued t p)) as (_ & _ & _ & _ & _ & _ & _ & _ & F & _).
    exact F.
  - intros ev h He Hends.
    destruct (ends_settles p ev h Hinv Ha He Hends) as [o Ho].
    apply settlements_In in Ho.
    pose proof (settlements_le_1 (handle_event dispatch ev p) h
                  (Inv_handle_event p ev Hinv He)). lia.
Qed.

(** ** Attribution and the exit of an attributed worker *)

(** The marks of a worker stay until its 'exit'. *)
Lemma marks_kept p ev w :
  (forall c, ev <> On_exit w c) ->
  (In w (timedOutWorkers p) -> In w (timedOutWorkers (handle_event dispatch ev p)))
  /\ (In w (erroredWorkers p) -> In w (erroredWorkers (handle_event dispatch ev p))).
Proof.
  intros Hev.
  assert (D : forall q, timedOutWorkers (dispatch q) = timedOutWorkers q
                        /\ erroredWorkers (dispatch q) = erroredWorkers q).
  { intros q. destruct (dispatch_frame q) as (_ & _ & _ & _ & F5 & F6 & _). auto. }
  assert (Sp : forall q, timedOutWorkers (spawnWorker dispatch q) = timedOutWorkers q
                        /\ erroredWorkers (spawnWorker dispatch q) = erroredWorkers q).
  { intros q. destruct (spawnWorker_frame q) as (_ & _ & _ & F4 & F5 & _). auto. }
  destruct ev as [t| |x m|x err|x code|t]; simpl.
  - unfold runTask. destruct (isClosing p); simpl; [auto|].
    match goal with |- context [dispatch ?q] => destruct (D q) as [-> ->] end.
    auto.
  - rewrite close_eq. auto.
  - unfold onMessage. destruct (WMap.get x (workerTaskMap p)) as [hs|]; [|auto].
    match goal with |- context [dispatch ?q] => destruct (D q) as [-> ->] end.
    unfold clearTimeout. destruct (status m), (timeoutId hs); simpl; auto.
  - unfold onError, replaceWorker.
    match goal with |- context [spawnWorker dispatch ?q] => destruct (Sp q) as [-> ->] end.
    simpl. unfold clearTimeout.
    destruct (WMap.get x (workerTaskMap p)) as [hs|]; [destruct (timeoutId hs)|];
      simpl; rewrite ?WeakSet_add_In; auto.
  - assert (Hx : x <> w) by (intros ->; now apply (Hev code)).
    assert (Hdel : forall s, In w s -> In w (WeakSet.delete x s)).
    { intros s Hs. apply without_In. auto. }
    unfold onExit, replaceWorker. simpl.
    destruct (WeakSet.has x (timedOutWorkers p)), (WeakSet.has x (erroredWorkers p));
      simpl; destruct (code =? 0)%Z, (isClosing p); simpl;
      try match goal with |- context [spawnWorker dispatch ?q] =>
            destruct (Sp q) as [-> ->] end;
      try destruct (WMap.get x (workerTaskMap p)) as [hs|];
      unfold clearTimeout; try destruct (timeoutId hs); simpl; auto.
  - destruct (pendingTimer t p) as [[x h]|]; [|auto].
    unfold onTimeout. simpl. destruct (WMap.has x (workerTaskMap p)); simpl; [|auto].
    match goal with |- context [dispatch ?q] => destruct (D q) as [-> ->] end.
    unfold replaceWorker.
    match goal with |- context [spawnWorker dispatch ?q] => destruct (Sp q) as [-> ->] end.
    simpl. rewrite WeakSet_add_In. auto.
Qed.

Lemma marks_kept_run w evs : forall p p',
  (forall c, ~ In (On_exit w c) evs) ->
  run dispatch evs p = Some p' ->
  (In w (timedOutWorkers p) -> In w (timedOutWorkers p'))
  /\ (In w (erroredWorkers p) -> In w (erroredWorkers p')).
Proof.
  induction evs as [|ev evs IH]; simpl; intros p p' Hno Hr.
  - injection Hr as <-. auto.
  - destruct (enabled p ev); [|discriminate].
    assert (Hev : forall c, ev <> On_exit w c).
    { intros c ->. apply (Hno c). now left. }
    destruct (marks_kept p ev w Hev) as [M1 M2].
    destruct (IH _ _ (fun c H => Hno c (or_intror H)) Hr) as [N1 N2]. auto.
Qed.

(** The 'exit' of a worker attributed to a timeout or to a fault: the worker
    is taken out of the registry, and that is all. *)
Lemma exit_attributed p w code :
  In w (timedOutWorkers p) \/ In w (erroredWorkers p) ->
  handle_event dispatch (On_exit w code) p
  = set_idleWorkers (without w (idleWorkers p))
      (set_workers (without w (workers p))
         (set_erroredWorkers (without w (erroredWorkers p))
            (set_timedOutWorkers (without w (timedOutWorkers p))
               (set_threads (without w (threads p)) p)))).
Proof.
  intros Hm. simpl. unfold onExit, removeWorker, WeakSet.delete. simpl.
  destruct (WeakSet.has w (timedOutWorkers p)) eqn:E1,
           (WeakSet.has w (erroredWorkers p)) eqn:E2; simpl;
    rewrite ?andb_false_r; simpl.
  - reflexivity.
  - rewrite (without_absent w (erroredWorkers p)); [reflexivity|].
    intros H. apply WeakSet_has_In in H. congruence.
  - rewrite (without_absent w (timedOutWorkers p)); [reflexivity|].
    intros H. apply WeakSet_has_In in H. congruence.
  - exfalso. destruct Hm as [H|H]; apply WeakSet_has_In in H; congruence.
Qed.

Lemma onError_spawns p w err :
  nextWorker (onError dispatch w err p)
  = (if isClosing p then nextWorker p else S (nextWorker p))
  /\ In w (erroredWorkers (onError dispatch w err p)).
Proof.
  unfold onError, replaceWorker.
  match goal with |- context [spawnWorker dispatch ?q] =>
    destruct (spawnWorker_frame q) as (_ & _ & _ & _ & F5 & _ & _ & _ & F9 & _) end.
  rewrite F5, F9. simpl. unfold clearTimeout.
  destruct (WMap.get w (workerTaskMap p)) as [hs|]; [destruct (timeoutId hs)|];
    simpl; rewrite WeakSet_add_In; auto.
Qed.

(** The two handlers of a worker that faults and then exits spawn one worker
    between them, or none if the pool is closing. The fault handler spawns
    it and marks the worker; the mark stays until the 'exit' of that worker;
    and the exit handler, for a worker marked as faulted or timed out,
    clears the marks and takes the worker out of the registry, settling
    nothing and spawning nothing. *)
Lemma fault_then_exit_handlers p w err :
  let p1 := handle_event dispatch (On_error w err) p in
  nextWorker p1 = (if isClosing p then nextWorker p else S (nextWorker p))
  /\ (forall evs p2 code,
        (forall c, ~ In (On_exit w c) evs) ->
        run dispatch evs p1 = Some p2 ->
        let p3 := handle_event dispatch (On_exit w code) p2 in
        nextWorker p3 = nextWorker p2
        /\ settled p3 = settled p2
        /\ workerTaskMap p3 = workerTaskMap p2
        /\ workers p3 = without w (workers p2)
        /\ idleWorkers p3 = without w (idleWorkers p2))
  /\ (forall q code,
        In w (timedOutWorkers q) \/ In w (erroredWorkers q) ->
        let q' := handle_event dispatch (On_exit w code) q in
        nextWorker q' = nextWorker q
        /\ settled q' = settled q
        /\ workerTaskMap q' = workerTaskMap q
        /\ workers q' = without w (workers q)
        /\ idleWorkers q' = without w (idleWorkers q)).
Proof.
  assert (G : forall q code,
             In w (timedOutWorkers q) \/ In w (erroredWorkers q) ->
             let q' := handle_event dispatch (On_exit w code) q in
             nextWorker q' = nextWorker q
             /\ settled q' = settled q
             /\ workerTaskMap q' = workerTaskMap q
             /\ workers q' = without w (workers q)
             /\ idleWorkers q' = without w (idleWorkers q)).
  { intros q code Hm q'. subst q'. rewrite (exit_attributed q w code Hm).
    repeat split. }
  destruct (onError_spawns p w err) as [Hn Hm].
  split; [exact Hn|]. split; [|exact G].
  intros evs p2 code Hno Hr. apply G. right.
  now apply (marks_kept_run w evs _ _ Hno Hr).
Qed.

(** ** Once the pool is closing *)

Lemma dispatch_closing p : isClosing p = true -> dispatch p = p.
Proof. intros H. apply dispatch_idle. unfold canAssign. now rewrite H. Qed.

Lemma without_incl w l : incl (without w l) l.
Proof. intros x Hx. apply without_In in Hx. tauto. Qed.

Lemma closing_handle_event p ev :
  isClosing p = true ->
  isClosing (handle_event dispatch ev p) = true
  /\ nextWorker (handle_event dispatch ev p) = nextWorker p
  /\ incl (workers (handle_event dispatch ev p)) (workers p)
  /\ length (workers (handle_event dispatch ev p)) <= length (workers p).
Proof.
  intros Hc.
  assert (R : forall q w, isClosing q = true -> nextWorker q = nextWorker p ->
                workers q = workers p ->
                isClosing (replaceWorker dispatch w q) = true
                /\ nextWorker (replaceWorker dispatch w q) = nextWorker p
                /\ incl (workers (replaceWorker dispatch w q)) (workers p)
                /\ length (workers (replaceWorker dispatch w q)) <= length (workers p)).
  { intros q w Hq En Ew. unfold replaceWorker. rewrite spawnWorker_eq. simpl.
    rewrite Hq. simpl. rewrite En, Ew.
    repeat split; auto using without_incl, without_length. }
  assert (M : forall q w, isClosing q = true -> nextWorker q = nextWorker p ->
                workers q = workers p ->
                isClosing (removeWorker w q) = true
                /\ nextWorker (removeWorker w q) = nextWorker p
                /\ incl (workers (removeWorker w q)) (workers p)
                /\ length (workers (removeWorker w q)) <= length (workers p)).
  { intros q w Hq En Ew. simpl. rewrite Hq, En, Ew.
    repeat split; auto using without_incl, without_length. }
  assert (I : forall q, isClosing q = true -> nextWorker q = nextWorker p ->
                workers q = workers p ->
                isClosing q = true /\ nextWorker q = nextWorker p
                /\ incl (workers q) (workers p)
                /\ length (workers q) <= length (workers p)).
  { intros q Hq En Ew. rewrite Ew. repeat split; auto. apply incl_refl. }
  destruct ev as [t| |w m|w err|w code|t]; simpl.
  - unfold runTask. rewrite Hc. simpl. now apply I.
  - rewrite close_eq. now apply I.
  - unfold onMessage. destruct (WMap.get w (workerTaskMap p)) as [hs|]; [|now apply I].
    rewrite dispatch_closing;
      unfold clearTimeout; destruct (status m), (timeoutId hs); simpl; auto.
  - unfold onError. unfold clearTimeout.
    apply R; simpl; destruct (WMap.get w (workerTaskMap p)) as [hs|];
      try destruct (timeoutId hs); simpl; auto.
  - unfold onExit. simpl.
    destruct (WeakSet.has w (timedOutWorkers p)), (WeakSet.has w (erroredWorkers p));
      simpl; rewrite Hc; simpl; rewrite ?andb_false_r;
      destruct (code =? 0)%Z; simpl;
      first [apply R | apply M]; simpl; auto.
  - destruct (pendingTimer t p) as [[w h]|]; [|now apply I].
    unfold onTimeout. simpl. destruct (WMap.has w (workerTaskMap p)); simpl;
      [|now apply I].
    assert (H : isClosing (replaceWorker dispatch w
                  (terminate w
                     (set_timedOutWorkers (WeakSet.add w (timedOutWorkers p))
                        (settle h (Rejected TimedOut)
                           (set_workerTaskMap (WMap.delete w (workerTaskMap p))
                              (set_timers
                                 (filter (fun e => negb (fst e =? t)) (timers p))
                                 p)))))) = true).
    { apply R; simpl; auto. }
    rewrite (dispatch_closing _ H). apply R; simpl; auto.
Qed.

Lemma closing_run evs : forall p p',
  isClosing p = true -> run dispatch evs p = Some p' ->
  isClosing p' = true /\ nextWorker p' = nextWorker p
  /\ incl (workers p') (workers p)
  /\ length (workers p') <= length (workers p).
Proof.
  induction evs as [|ev evs IH]; simpl; intros p p' Hc Hr.
  - injection Hr as <-. repeat split; auto. apply incl_refl.
  - destruct (enabled p ev); [|discriminate].
    destruct (closing_handle_event p ev Hc) as (H1 & H2 & H3 & H4).
    destruct (IH _ _ H1 Hr) as (K1 & K2 & K3 & K4).
    repeat split; [assumption | lia | | lia].
    intros x Hx. auto.
Qed.

Lemma clearedBy_nil tm : clearedBy [] tm = tm.
Proof.
  unfold clearedBy. simpl.
  induction tm as [|e tm IH]; simpl; [reflexivity | now rewrite IH].
Qed.

Lemma close_again p :
  taskQueue p = [] -> workerTaskMap p = [] -> isClosing p = true ->
  close p = set_terminated (terminated p ++ workers p) p.
Proof.
  intros Hq Hm Hc. rewrite close_eq. unfold closed, closingRejections.
  destruct p; simpl in *; subst. unfold set_terminated. simpl.
  now rewrite clearedBy_nil, app_nil_r.
Qed.

(** C4: [close] rejects the handle of every queued task and of every task in
    flight with the pool-closing error, each being settled exactly once by
    then; it leaves no timer pending, the queue and the map empty, and has
    called [terminate] on every registered worker. The promise it returns
    resolves when each of those workers has exited: in every state reached
    by then, [stats] is all zeros. *)
Theorem close_rejects_and_empties n tmo p :
  Reachable n tmo p ->
  (forall item, In item (taskQueue p) ->
     In (item_handle item, Rejected PoolClosing) (settled (close p))
     /\ settlements (close p) (item_handle item) = 1)
  /\ (forall w hs, In (w, hs) (workerTaskMap p) ->
        In (handle hs, Rejected PoolClosing) (settled (close p))
        /\ settlements (close p) (handle hs) = 1)
  /\ timers (close p) = []
  /\ taskQueue (close p) = []
  /\ workerTaskMap (close p) = []
  /\ isClosing (close p) = true
  /\ (forall w, In w (workers p) -> In w (terminated (close p)))
  /\ (forall evs p',
        run dispatch evs (close p) = Some p' ->
        (forall w, In w (workers p) -> ~ In w (threads p')) ->
        stats p' = {| stat_workers := 0; stat_idle := 0; stat_queue := 0 |}).
Proof.
  intros Hr. pose proof (Inv_Reachable _ _ _ Hr) as Hinv.
  pose proof (Inv_close p Hinv) as Hinv1.
  assert (Hr1 : Reachable n tmo (close p)).
  { apply (Reachable_step n tmo p Call_close Hr). reflexivity. }
  assert (Hone : forall h o, In (h, o) (settled (close p)) ->
                             settlements (close p) h = 1).
  { intros h o Hin. apply settlements_In in Hin.
    pose proof (settlements_le_1 (close p) h Hinv1). lia. }
  assert (Hq : forall item, In item (taskQueue p) ->
                 In (item_handle item, Rejected PoolClosing) (settled (close p))).
  { intros item Hin. rewrite close_eq. simpl. unfold closingRejections.
    rewrite !in_app_iff. right. left.
    apply (in_map (fun item => (item_handle item, Rejected PoolClosing))).
    exact Hin. }
  assert (Hm : forall w hs, In (w, hs) (workerTaskMap p) ->
                 In (handle hs, Rejected PoolClosing) (settled (close p))).
  { intros w hs Hin. rewrite close_eq. simpl. unfold closingRejections.
    rewrite !in_app_iff. right. right.
    apply (in_map (fun e => (handle (snd e), Rejected PoolClosing))) in Hin.
    exact Hin. }
  repeat split.
  - now apply Hq.
  - eapply Hone. now apply Hq.
  - eapply Hm; eassumption.
  - eapply Hone. eapply Hm; eassumption.
  - rewrite close_eq. simpl. now apply Inv_timers_cleared.
  - rewrite close_eq. reflexivity.
  - rewrite close_eq. reflexivity.
  - rewrite close_eq. reflexivity.
  - intros w Hw. rewrite close_eq. simpl. apply in_app_iff. now right.
  - intros evs p' Hrun Hexited.
    assert (Hc : isClosing (close p) = true) by (rewrite close_eq; reflexivity).
    destruct (closing_run evs _ _ Hc Hrun) as (Hc' & _ & Hsub & _).
    pose proof (Inv_run evs _ _ Hinv1 Hrun) as Hinv'.
    assert (Hnone : forall w, ~ In w (workers p')).
    { intros w Hw. apply (Hexited w).
      - apply Hsub in Hw. rewrite close_eq in Hw. exact Hw.
      - now apply (inv_workers_threads _ Hinv'). }
    assert (Hws : workers p' = []).
    { destruct (workers p') as [|w ws]; [reflexivity|]. exfalso.
      apply (Hnone w). now left. }
    assert (Hid : idleWorkers p' = []).
    { pose proof (inv_idle_workers _ Hinv') as Hi.
      destruct (idleWorkers p') as [|w ws]; [reflexivity|]. exfalso.
      apply (Hnone w). apply Hi. now left. }
    destruct (inv_closing _ Hinv' Hc') as [Hqe _].
    unfold stats. now rewrite Hws, Hid, Hqe.
Qed.

(** C7: while the pool is closing, [runTask], and so [parse] and
    [stringify], return a promise rejected with the pool-closing error and
    leave the state as it is: nothing is queued, nothing is sent to a worker.
    The same holds in every state reached after a call of [close]. *)
Theorem submission_rejected_when_closing p t :
  isClosing p = true ->
  runTask dispatch t p = (RejectedNow PoolClosing, p)
  /\ (forall jsonString, parse_ dispatch jsonString p = (RejectedNow PoolClosing, p))
  /\ (forall dataObject,
        stringify_ dispatch dataObject p = (RejectedNow PoolClosing, p))
  /\ handle_event dispatch (Call_runTask t) p = p
  /\ (forall evs p',
        run dispatch evs p = Some p' ->
        runTask dispatch t p' = (RejectedNow PoolClosing, p')).
Proof.
  intros Hc. unfold parse_, stringify_, handle_event, runTask. rewrite Hc.
  repeat split. intros evs p' Hr.
  destruct (closing_run evs _ _ Hc Hr) as (Hc' & _). now rewrite Hc'.
Qed.

(** C10: once the pool is closing it stays so; from then on no worker is
    created, the registry only loses workers, and [spawnWorker] returns at
    once, also when an exit handler asks for a replacement. A further call
    of [close] changes none of the fields of the pool and settles nothing:
    it only calls [terminate] again on the workers still registered. *)
Theorem closing_is_final n tmo p :
  Reachable n tmo p -> isClosing p = true ->
  (forall evs p',
     run dispatch evs p = Some p' ->
     isClosing p' = true
     /\ nextWorker p' = nextWorker p
     /\ incl (workers p') (workers p)
     /\ length (workers p') <= length (workers p))
  /\ spawnWorker dispatch p = p
  /\ (forall w, replaceWorker dispatch w p = removeWorker w p)
  /\ close p = set_terminated (terminated p ++ workers p) p
  /\ isClosing (close p) = true.
Proof.
  intros Hr Hc. pose proof (Inv_Reachable _ _ _ Hr) as Hinv.
  destruct (inv_closing _ Hinv Hc) as [Hq Hm].
  split; [|split; [|split; [|split]]].
  - intros evs p' Hrun. now apply (closing_run evs p p').
  - rewrite spawnWorker_eq. now rewrite Hc.
  - intros w. unfold replaceWorker. rewrite spawnWorker_eq. simpl. now rewrite Hc.
  - now apply close_again.
  - rewrite close_eq. reflexivity.
Qed.

(** ** Dispatch *)

Lemma get_set_other w x h m : x <> w -> WMap.get x (WMap.set w h m) = WMap.get x m.
Proof.
  intros Hne. induction m as [|[k v] m IH]; simpl.
  - destruct (Nat.eqb_spec w x); [congruence | reflexivity].
  - destruct (Nat.eqb_spec k w) as [->|Hkw]; simpl.
    + destruct (Nat.eqb_spec w x); [congruence | reflexivity].
    + destruct (k =? x); [reflexivity | exact IH].
Qed.

(** C5: [dispatch] does nothing while the pool is closing, while the queue is
    empty or while no worker is idle. Otherwise it makes one turn of the loop
    of the specification: it takes the oldest task off the queue and the
    first worker off the idle ones, records the assignment, sets a timer if
    a timeout is configured, and posts the task to that worker, once. The
    loop of the specification ends with nothing left to assign, and where at
    most one turn is possible it is [dispatch]. That is so wherever the
    class calls [dispatch]: on every sequence of events a pool run with the
    loop goes through the same states as the pool of the class, and in each
    of them no task waits while a worker is idle. *)
Theorem dispatch_is_the_specified_loop :
  (forall p, isClosing p = true -> dispatch p = p)
  /\ (forall p, taskQueue p = [] \/ idleWorkers p = [] -> dispatch p = p)
  /\ (forall p item queue worker idle,
        isClosing p = false -> taskQueue p = item :: queue ->
        idleWorkers p = worker :: idle ->
        let armed := match taskTimeoutMs p with Some _ => true | None => false end in
        taskQueue (dispatch p) = queue
        /\ idleWorkers (dispatch p) = idle
        /\ WMap.get worker (workerTaskMap (dispatch p))
           = Some {| handle := item_handle item;
                     timeoutId := if armed then Some (nextTimeout p) else None |}
        /\ (forall w, w <> worker ->
              WMap.get w (workerTaskMap (dispatch p)) = WMap.get w (workerTaskMap p))
        /\ timers (dispatch p)
           = (if armed then timers p ++ [(nextTimeout p, (worker, item_handle item))]
              else timers p)
        /\ posted (dispatch p) = posted p ++ [(worker, task item)]
        /\ settled (dispatch p) = settled p
        /\ workers (dispatch p) = workers p)
  /\ (forall p, canAssign (dispatch_spec p) = false)
  /\ (forall p, OneTurn p -> dispatch_spec p = dispatch p)
  /\ (forall n tmo evs p,
        run dispatch evs (new dispatch n tmo) = Some p ->
        run dispatch_spec evs (new dispatch_spec n tmo) = Some p
        /\ Quiescent p).
Proof.
  split; [exact dispatch_closing|]. split; [|split; [|split; [|split]]].
  - intros p H. apply dispatch_idle. unfold canAssign.
    destruct H as [-> | ->]; simpl; now rewrite ?andb_false_r.
  - intros p item queue worker idle Hc Hq Hi armed.
    rewrite (dispatch_assigned p item queue worker idle Hc Hq Hi).
    subst armed. unfold assigned. simpl.
    repeat split.
    + apply get_set_same.
    + intros w Hw. now apply get_set_other.
  - exact dispatch_spec_done.
  - exact dispatch_spec_one_turn.
  - intros n tmo evs p Hr.
    destruct (new_agree dispatch_spec dispatch_spec_one_turn n tmo) as [E0 H0].
    destruct (run_agree dispatch_spec dispatch_spec_one_turn evs _ H0) as [E H].
    rewrite E0, E. split; [exact Hr|]. now apply (H p).
Qed.

(** ** Deadlines *)

Lemma pendingTimer_None t p :
  (forall x, ~ In (t, x) (timers p)) -> pendingTimer t p = None.
Proof.
  intros H. unfold pendingTimer.
  destruct (find (fun e => fst e =? t) (timers p)) as [[t' x]|] eqn:E; [|reflexivity].
  apply find_some in E. destruct E as [Hin Heq]. simpl in Heq.
  apply Nat.eqb_eq in Heq. subst t'. exfalso. now apply (H x).
Qed.

Lemma onTimeout_eq w h p :
  WMap.has w (workerTaskMap p) = true ->
  onTimeout dispatch w h p
  = dispatch
      (spawnWorker dispatch
         (removeWorker w
            (terminate w
               (set_timedOutWorkers (WeakSet.add w (timedOutWorkers p))
                  (settle h (Rejected TimedOut)
                     (set_workerTaskMap (WMap.delete w (workerTaskMap p)) p)))))).
Proof. intros H. unfold onTimeout. now rewrite H. Qed.

(** C6: the callback of a deadline does nothing if its worker has no
    assignment any more. In a pool as it runs, a pending timer finds its
    worker still assigned to the task of its handle; its callback rejects
    that handle with the timeout error, which settles it exactly once, marks
    the worker as timed out, terminates it, takes it out of the registry,
    spawns one new worker and runs [dispatch]. When the terminated worker
    later exits, whatever happens in between, the exit handler only takes it
    out of the registry: nothing is settled and no worker is spawned. *)
Theorem deadline_elapsed n tmo p t w h :
  (forall q, WMap.get w (workerTaskMap q) = None -> onTimeout dispatch w h q = q)
  /\ (Reachable n tmo p -> pendingTimer t p = Some (w, h) ->
      let p' := handle_event dispatch (On_timeout t) p in
      WMap.get w (workerTaskMap p) = Some {| handle := h; timeoutId := Some t |}
      /\ settled p' = settled p ++ [(h, Rejected TimedOut)]
      /\ settlements p' h = 1
      /\ In w (timedOutWorkers p')
      /\ terminated p' = terminated p ++ [w]
      /\ WMap.get w (workerTaskMap p') = None
      /\ ~ In w (workers p') /\ ~ In w (idleWorkers p')
      /\ nextWorker p' = S (nextWorker p)
      /\ workers p' = without w (workers p) ++ [nextWorker p]
      /\ Quiescent p'
      /\ (forall evs p2 code,
            (forall c, ~ In (On_exit w c) evs) ->
            run dispatch evs p' = Some p2 ->
            let p3 := handle_event dispatch (On_exit w code) p2 in
            settled p3 = settled p2
            /\ nextWorker p3 = nextWorker p2
            /\ workerTaskMap p3 = workerTaskMap p2
            /\ workers p3 = without w (workers p2))).
Proof.
  split.
  { intros q Hq. unfold onTimeout, WMap.has. now rewrite Hq. }
  intros Hr Hp p'.
  pose proof (Inv_Reachable _ _ _ Hr) as Hinv.
  assert (He : enabled p (On_timeout t) = true) by (simpl; now rewrite Hp).
  pose proof (Reachable_step n tmo p _ Hr He) as Hr'.
  pose proof (Inv_Reachable _ _ _ Hr') as Hinv'.
  pose proof (Attributed_Reachable _ _ _ Hr') as Ha'.
  pose proof (Settled_Reachable _ _ _ Hr') as [Hq' _].
  fold p' in Hr', Hinv', Ha', Hq'.
  pose proof (pendingTimer_In _ _ _ _ Hp) as Hin.
  apply (inv_timers _ Hinv) in Hin.
  pose proof (In_get _ _ _ (inv_map_nodup _ Hinv) Hin) as Hget.
  assert (Hc : isClosing p = false).
  { destruct (isClosing p) eqn:Hc; [|reflexivity].
    destruct (inv_closing _ Hinv Hc) as [_ Hm]. rewrite Hm in Hin. destruct Hin. }
  assert (Hlt : w < nextWorker p).
  { apply (inv_map_fresh _ Hinv). eapply In_keys; eassumption. }
  assert (Ep : p' = dispatch
      (spawnWorker dispatch
         (removeWorker w
            (terminate w
               (set_timedOutWorkers (WeakSet.add w (timedOutWorkers p))
                  (settle h (Rejected TimedOut)
                     (set_workerTaskMap (WMap.delete w (workerTaskMap p))
                        (set_timers (filter (fun e => negb (fst e =? t)) (timers p))
                           p)))))))).
  { subst p'. simpl. rewrite Hp. rewrite onTimeout_eq; [reflexivity|].
    simpl. unfold WMap.has. now rewrite Hget. }
  match type of Ep with _ = dispatch (spawnWorker dispatch ?q) =>
    destruct (dispatch_frame (spawnWorker dispatch q))
      as (_ & _ & D3 & _ & D5 & _ & _ & D8 & _ & D10 & D11);
    destruct (spawnWorker_frame q)
      as (_ & _ & _ & S4 & _ & _ & S7 & S8 & S9 & S10 & _)
  end.
  simpl in S4, S7, S8, S9, S10. rewrite Hc in S9, S10.
  assert (Hto : In w (timedOutWorkers p')).
  { rewrite Ep, D5, S4. apply WeakSet_add_In. now left. }
  destruct (Ha' w (or_introl Hto)) as [_ Hfree].
  assert (Hws : workers p' = without w (workers p) ++ [nextWorker p]).
  { now rewrite Ep, D3, S10. }
  assert (Hst : settled p' = settled p ++ [(h, Rejected TimedOut)]).
  { now rewrite Ep, D10, S7. }
  repeat split.
  - exact Hget.
  - exact Hst.
  - assert (1 <= settlements p' h).
    { apply (settlements_In h (Rejected TimedOut)). rewrite Hst.
      apply in_app_iff. right. now left. }
    pose proof (settlements_le_1 p' h Hinv'). lia.
  - exact Hto.
  - now rewrite Ep, D11, S8.
  - apply get_None_keys. intros H. apply Hfree. now left.
  - rewrite Hws, in_app_iff, without_In. simpl. intros [[_ H]|[H|[]]]; [tauto | lia].
  - intros H. apply Hfree. now right.
  - now rewrite Ep, D8, S9.
  - exact Hws.
  - exact Hq'.
  - rewrite (exit_attributed p2 w code); [reflexivity|].
    left. now apply (marks_kept_run w evs p' p2).
  - rewrite (exit_attributed p2 w code); [reflexivity|].
    left. now apply (marks_kept_run w evs p' p2).
  - rewrite (exit_attributed p2 w code); [reflexivity|].
    left. now apply (marks_kept_run w evs p' p2).
  - rewrite (exit_attributed p2 w code); [reflexivity|].
    left. now apply (marks_kept_run w evs p' p2).
Qed.

(** ** Messages *)

(** C9: a message from a worker that has no assignment leaves the state as
    it is, and [dispatch] is not called: the result is the same whatever the
    dispatcher. A worker marked as timed out or faulted is in that case. *)
Theorem stale_message_ignored p w m :
  (WMap.get w (workerTaskMap p) = None ->
   forall d, onMessage d w m p = p /\ handle_event d (On_message w m) p = p)
  /\ (forall n tmo,
        Reachable n tmo p ->
        In w (timedOutWorkers p) \/ In w (erroredWorkers p) ->
        handle_event dispatch (On_message w m) p = p).
Proof.
  assert (G : WMap.get w (workerTaskMap p) = None ->
              forall d, onMessage d w m p = p).
  { intros H d. unfold onMessage. now rewrite H. }
  split.
  - intros H d. split; [now apply G | simpl; now apply G].
  - intros n tmo Hr Hm. simpl. apply G. apply get_None_keys.
    destruct (Attributed_Reachable _ _ _ Hr w Hm) as [_ Hfree].
    intros H. apply Hfree. now left.
Qed.

(** C8: when a busy worker reports an error, its timer is cancelled and the
    handle of its task is rejected with the message of the error, which
    settles it exactly once. The worker is neither marked, terminated nor
    replaced: the registry and the threads are as before and no worker is
    created. It is put back with the idle workers and [dispatch] runs: if no
    task was waiting the worker is idle afterwards, otherwise it has been
    handed the oldest waiting task. *)
Theorem compute_failure_keeps_worker n tmo p w m hs :
  Reachable n tmo p ->
  enabled p (On_message w m) = true ->
  status m = StatusError ->
  WMap.get w (workerTaskMap p) = Some hs ->
  let p' := handle_event dispatch (On_message w m) p in
  p' = dispatch
         (set_idleWorkers (idleWorkers p ++ [w])
            (finished w hs (Rejected (MessageError (error m))) p))
  /\ settled p' = settled p ++ [(handle hs, Rejected (MessageError (error m)))]
  /\ settlements p' (handle hs) = 1
  /\ (forall t, timeoutId hs = Some t -> pendingTimer t p' = None)
  /\ workers p' = workers p /\ In w (workers p')
  /\ threads p' = threads p /\ nextWorker p' = nextWorker p
  /\ terminated p' = terminated p
  /\ timedOutWorkers p' = timedOutWorkers p
  /\ erroredWorkers p' = erroredWorkers p
  /\ (taskQueue p = [] ->
      idleWorkers p' = idleWorkers p ++ [w]
      /\ WMap.get w (workerTaskMap p') = None)
  /\ (forall item queue,
        taskQueue p = item :: queue ->
        idleWorkers p' = [] /\ taskQueue p' = queue
        /\ exists tid,
             WMap.get w (workerTaskMap p')
             = Some {| handle := item_handle item; timeoutId := tid |})
  /\ Quiescent p'.
Proof.
  intros Hr He Hs Hget p'.
  pose proof (Inv_Reachable _ _ _ Hr) as Hinv.
  pose proof (Settled_Reachable _ _ _ Hr) as [Hquiet _].
  pose proof (Reachable_step n tmo p _ Hr He) as Hr'.
  pose proof (Inv_Reachable _ _ _ Hr') as Hinv'.
  pose proof (Settled_Reachable _ _ _ Hr') as [Hquiet' _].
  fold p' in Hr', Hinv', Hquiet'.
  simpl in He. apply existsb_eqb_In in He.
  pose proof (get_Some_keys _ _ _ Hget) as Hk.
  pose proof (inv_busy_registered _ Hinv w Hk He) as Hw.
  assert (Hc : isClosing p = false).
  { destruct (isClosing p) eqn:Hc; [|reflexivity].
    destruct (inv_closing _ Hinv Hc) as [_ Hm]. rewrite Hm in Hk. destruct Hk. }
  set (o := Rejected (MessageError (error m))).
  set (q := set_idleWorkers (idleWorkers p ++ [w]) (finished w hs o p)).
  assert (Ep : p' = dispatch q).
  { subst p' q o. simpl. unfold onMessage. rewrite Hget, Hs.
    unfold finished, clearTimeout. destruct (timeoutId hs); reflexivity. }
  destruct (finished_frame w hs o p) as (F1 & F2 & F3 & F4 & F5 & F6 & F7 & F8).
  destruct (dispatch_frame q)
    as (_ & _ & D3 & _ & D5 & D6 & D7 & D8 & _ & D10 & D11).
  assert (Hqq : taskQueue q = taskQueue p) by exact F3.
  assert (Hqi : idleWorkers q = idleWorkers p ++ [w]) by reflexivity.
  assert (Hqc : isClosing q = false) by (rewrite <- Hc; exact F4).
  assert (Hqm : workerTaskMap q = WMap.delete w (workerTaskMap p)) by exact F7.
  assert (Hqt : forall t x, In (t, x) (timers q) ->
                  In (t, x) (timers p) /\ timeoutId hs <> Some t).
  { intros t x. subst q. unfold finished, clearTimeout. simpl.
    destruct (timeoutId hs) as [t0|]; simpl.
    - rewrite filter_In, negb_true_iff, Nat.eqb_neq. simpl.
      intros [Hin Hne]. split; [exact Hin|]. intros [= E]. now apply Hne.
    - intros Hin. split; [exact Hin | discriminate]. }
  assert (Hqn : nextTimeout q = nextTimeout p
                /\ terminated q = terminated p
                /\ timedOutWorkers q = timedOutWorkers p
                /\ erroredWorkers q = erroredWorkers p).
  { subst q. unfold finished, clearTimeout. destruct (timeoutId hs); repeat split. }
  destruct Hqn as (Hqn & Hqte & Hqto & Hqer).
  assert (Hqw : workers q = workers p) by exact F1.
  assert (Hqth : threads q = threads p) by exact F5.
  assert (Hqnw : nextWorker q = nextWorker p) by exact F6.
  assert (Hqs : settled q = settled p ++ [(handle hs, o)]) by exact F8.
  clearbody q.
  assert (Hst : settled p' = settled p ++ [(handle hs, o)]).
  { now rewrite Ep, D10. }
  repeat split.
  - exact Ep.
  - exact Hst.
  - assert (1 <= settlements p' (handle hs)).
    { apply (settlements_In _ o). rewrite Hst. apply in_app_iff. right. now left. }
    pose proof (settlements_le_1 p' (handle hs) Hinv'). lia.
  - intros t Ht. apply pendingTimer_None. intros x Hx. rewrite Ep in Hx.
    pose proof (inv_map_timeout_fresh _ Hinv w hs t (get_Some_In _ _ _ Hget) Ht)
      as Hfresh.
    destruct (dispatch_cases q) as [[_ E]|(i & qu & wk & l & _ & _ & _ & E)];
      rewrite E in Hx.
    + apply Hqt in Hx. destruct Hx as [_ Hne]. now apply Hne.
    + simpl in Hx. destruct (taskTimeoutMs q).
      * apply in_app_iff in Hx. destruct Hx as [Hx|[Hx|[]]].
        -- apply Hqt in Hx. destruct Hx as [_ Hne]. now apply Hne.
        -- injection Hx as Hx _. rewrite Hqn in Hx. lia.
      * apply Hqt in Hx. destruct Hx as [_ Hne]. now apply Hne.
  - now rewrite Ep, D3.
  - now rewrite Ep, D3, Hqw.
  - now rewrite Ep, D7.
  - now rewrite Ep, D8.
  - now rewrite Ep, D11.
  - now rewrite Ep, D5.
  - now rewrite Ep, D6.
  - rewrite Ep, dispatch_idle; [exact Hqi|].
    unfold canAssign. rewrite Hqq, H. simpl. now rewrite andb_false_r.
  - rewrite Ep, dispatch_idle.
    + rewrite Hqm. apply get_None_keys. rewrite delete_keys. apply without_self.
    + unfold canAssign. rewrite Hqq, H. simpl. now rewrite andb_false_r.
  - destruct Hquiet as [Hq0|Hi0]; [congruence|].
    rewrite Hi0 in Hqi. simpl in Hqi.
    rewrite Ep, (dispatch_assigned q item queue w [] Hqc); [reflexivity | | exact Hqi].
    now rewrite Hqq.
  - destruct Hquiet as [Hq0|Hi0]; [congruence|].
    rewrite Hi0 in Hqi. simpl in Hqi.
    rewrite Ep, (dispatch_assigned q item queue w [] Hqc); [reflexivity | | exact Hqi].
    now rewrite Hqq.
  - destruct Hquiet as [Hq0|Hi0]; [congruence|].
    rewrite Hi0 in Hqi. simpl in Hqi.
    rewrite Ep, (dispatch_assigned q item queue w [] Hqc); [| | exact Hqi].
    + eexists. simpl. apply get_set_same.
    + now rewrite Hqq.
  - exact Hquiet'.
Qed.

(** ** The census of the registry *)

Lemma Census_dispatch n p : Census n p -> Census n (dispatch p).
Proof.
  intros [K1 K2 K3 K4 K5 K6 K7].
  destruct (dispatch_cases p) as [[_ E]|(i & q & w & l & Hc & Hq & Hi & E)];
    rewrite E; [now constructor|].
  constructor; simpl; try assumption.
  - intros x Hx. apply K4. rewrite Hi. now right.
  - intros x Hx. apply set_keys in Hx. destruct Hx as [->|Hx]; [|auto].
    apply K4. rewrite Hi. now left.
  - intros _ x Hx. destruct (K6 Hc x Hx) as [H|H].
    + rewrite Hi in H. destruct H as [<-|H]; [right|left; assumption].
      apply set_keys. now left.
    + right. apply set_keys. now right.
Qed.

Lemma Census_spawnWorker n p :
  Census n p -> (isClosing p = false -> length (workers p) < n) ->
  Census n (spawnWorker dispatch p).
Proof.
  intros H Hlt. rewrite spawnWorker_eq. destruct (isClosing p) eqn:Hc; [assumption|].
  apply Census_dispatch. destruct H as [K1 K2 K3 K4 K5 K6 K7].
  assert (Hnew : ~ In (nextWorker p) (workers p)).
  { intros Hin. apply K2 in Hin. lia. }
  constructor; simpl.
  - apply NoDup_app; auto.
    + constructor; [simpl; tauto | constructor].
    + intros x Hx [<-|[]]. tauto.
  - intros x Hx. apply in_app_iff in Hx. destruct Hx as [Hx|[<-|[]]]; [|lia].
    apply K2 in Hx. lia.
  - rewrite length_app. simpl. specialize (Hlt eq_refl). lia.
  - intros x Hx. apply in_app_iff in Hx. apply in_app_iff.
    destruct Hx as [Hx|Hx]; [left; auto | now right].
  - intros x Hx. apply in_app_iff. left. auto.
  - intros _ x Hx. apply in_app_iff in Hx. destruct Hx as [Hx|Hx].
    + destruct (K6 Hc x Hx) as [H|H]; [left; apply in_app_iff; now left | now right].
    + left. apply in_app_iff. now right.
  - intros x Hx Hnot. apply in_app_iff in Hx. destruct Hx as [Hx|[<-|[]]].
    + apply K7; [assumption|]. intros Hin. apply Hnot. apply in_app_iff. now left.
    + exfalso. apply Hnot. apply in_app_iff. right. now left.
Qed.

Lemma Census_removed n p q w :
  Census n p ->
  workers q = without w (workers p) ->
  idleWorkers q = without w (idleWorkers p) ->
  (forall x, In x (keys (workerTaskMap q)) ->
             In x (keys (workerTaskMap p)) /\ x <> w) ->
  (forall x, In x (keys (workerTaskMap p)) -> x <> w ->
             In x (keys (workerTaskMap q))) ->
  isClosing q = isClosing p -> nextWorker q = nextWorker p ->
  (forall x, In x (threads q) -> In x (threads p)) ->
  (forall x, x <> w ->
             In x (timedOutWorkers p) \/ In x (erroredWorkers p) ->
             In x (timedOutWorkers q) \/ In x (erroredWorkers q)) ->
  (In w (threads q) -> In w (timedOutWorkers q) \/ In w (erroredWorkers q)) ->
  Census n q /\ (In w (workers p) -> length (workers q) < n).
Proof.
  intros [K1 K2 K3 K4 K5 K6 K7] Ew Ei Hk1 Hk2 Ec En Hth Hm Hw. split.
  - constructor; rewrite ?Ew, ?Ei, ?Ec, ?En.
    + now apply without_NoDup.
    + intros x Hx. apply without_In in Hx. now apply K2.
    + pose proof (without_length w (workers p)). lia.
    + intros x Hx. apply without_In in Hx. apply without_In. split; [|tauto].
      apply K4. tauto.
    + intros x Hx. apply Hk1 in Hx. apply without_In. split; [|tauto].
      apply K5. tauto.
    + intros Hc x Hx. apply without_In in Hx. destruct Hx as [Hx Hne].
      destruct (K6 Hc x Hx) as [H|H]; [left|right; auto].
      apply without_In. auto.
    + intros x Hx Hnot. destruct (Nat.eq_dec x w) as [->|Hne]; [auto|].
      apply Hm; [assumption|]. apply K7; [auto|].
      intros Hin. apply Hnot. apply without_In. auto.
  - intros Hin. rewrite Ew. pose proof (without_length_In w (workers p) K1 Hin). lia.
Qed.

Lemma Census_same n p q :
  Census n p ->
  workers q = workers p -> idleWorkers q = idleWorkers p ->
  workerTaskMap q = workerTaskMap p -> isClosing q = isClosing p ->
  nextWorker q = nextWorker p -> threads q = threads p ->
  timedOutWorkers q = timedOutWorkers p -> erroredWorkers q = erroredWorkers p ->
  Census n q.
Proof.
  intros [K1 K2 K3 K4 K5 K6 K7] E1 E2 E3 E4 E5 E6 E7 E8.
  constructor; rewrite ?E1, ?E2, ?E3, ?E4, ?E5, ?E6, ?E7, ?E8; assumption.
Qed.

Lemma Census_registered n p w :
  Census n p -> In w (threads p) ->
  WeakSet.has w (timedOutWorkers p) = false ->
  WeakSet.has w (erroredWorkers p) = false ->
  In w (workers p).
Proof.
  intros H Hth H1 H2. destruct (in_dec Nat.eq_dec w (workers p)) as [Hin|Hnot];
    [assumption|].
  exfalso. destruct (cen_gone _ _ H w Hth Hnot) as [Hm|Hm];
    apply WeakSet_has_In in Hm; congruence.
Qed.

Lemma Census_handle_event n p ev :
  Inv p -> Attributed p -> Census n p ->
  enabled p ev = true -> regular p ev = true ->
  Census n (handle_event dispatch ev p).
Proof.
  intros Hinv Ha Hcen He Hreg.
  destruct ev as [t| |w m|w err|w code|t]; simpl in *.
  - unfold runTask. destruct (isClosing p); simpl; [assumption|].
    apply Census_dispatch. apply (Census_same n p); auto.
  - rewrite close_eq. destruct Hcen as [K1 K2 K3 K4 K5 K6 K7].
    constructor; simpl; try assumption.
    + intros x [].
    + discriminate.
  - unfold onMessage.
    destruct (WMap.get w (workerTaskMap p)) as [hs|] eqn:Hget; [|assumption].
    apply Census_dispatch.
    pose proof (get_Some_keys _ _ _ Hget) as Hk.
    assert (G : forall q,
               workers q = workers p -> idleWorkers q = idleWorkers p ++ [w] ->
               workerTaskMap q = WMap.delete w (workerTaskMap p) ->
               isClosing q = isClosing p -> nextWorker q = nextWorker p ->
               threads q = threads p ->
               timedOutWorkers q = timedOutWorkers p ->
               erroredWorkers q = erroredWorkers p -> Census n q).
    { intros q E1 E2 E3 E4 E5 E6 E7 E8.
      destruct Hcen as [K1 K2 K3 K4 K5 K6 K7].
      constructor; rewrite ?E1, ?E2, ?E3, ?E4, ?E5, ?E6, ?E7, ?E8;
        try assumption.
      - intros x Hx. apply in_app_iff in Hx.
        destruct Hx as [Hx|[<-|[]]]; auto.
      - intros x Hx. rewrite delete_keys in Hx. apply without_In in Hx.
        apply K5. tauto.
      - intros Hc x Hx. rewrite delete_keys, in_app_iff, without_In. simpl.
        destruct (Nat.eq_dec x w) as [->|Hne]; [left; right; now left|].
        destruct (K6 Hc x Hx); auto. }
    apply G; destruct (status m), (timeoutId hs); reflexivity.
  - apply andb_true_iff in Hreg. destruct Hreg as [R1 R2].
    apply negb_true_iff in R1. apply negb_true_iff in R2.
    apply existsb_eqb_In in He.
    pose proof (Census_registered n p w Hcen He R1 R2) as Hw.
    unfold onError, replaceWorker.
    match goal with |- Census n (spawnWorker dispatch ?q) =>
      assert (Hq : Census n q /\ (In w (workers p) -> length (workers q) < n)) end.
    { simpl. destruct (WMap.get w (workerTaskMap p)) as [hs|] eqn:Hget;
        [unfold clearTimeout; destruct (timeoutId hs)|];
        (apply (Census_removed n p); try assumption; try reflexivity; simpl;
         [ intros x Hx; first [ rewrite delete_keys, without_In in Hx; exact Hx
                              | split; [exact Hx|]; intros ->;
                                apply get_None_keys in Hget; now apply Hget ]
         | intros x Hx Hne; rewrite ?delete_keys, ?without_In; auto
         | auto
         | intros x _ [H|H]; [left; exact H | right; apply WeakSet_add_In; now right]
         | intros _; right; apply WeakSet_add_In; now left ]). }
    destruct Hq as [Hq Hlen]. apply Census_spawnWorker; [exact Hq | auto].
  - apply existsb_eqb_In in He.
    assert (Rm : forall q,
               In w (timedOutWorkers p) \/ In w (erroredWorkers p) ->
               workers q = workers p -> idleWorkers q = idleWorkers p ->
               workerTaskMap q = workerTaskMap p -> isClosing q = isClosing p ->
               nextWorker q = nextWorker p ->
               threads q = without w (threads p) ->
               (forall x, x <> w -> In x (timedOutWorkers p) ->
                          In x (timedOutWorkers q)) ->
               (forall x, x <> w -> In x (erroredWorkers p) ->
                          In x (erroredWorkers q)) ->
               Census n (removeWorker w q)).
    { intros q Hm E1 E2 E3 E4 E5 E6 M1 M2.
      destruct (Ha w Hm) as [_ Hfree].
      apply (Census_removed n p (removeWorker w q) w); try assumption; simpl;
        rewrite ?E1, ?E2, ?E3, ?E6; auto.
      - intros x Hx. split; [exact Hx|]. intros ->. apply Hfree. now left.
      - intros x Hx. apply without_In in Hx. tauto.
      - intros x Hne [H|H]; auto.
      - intros Hx. now apply without_self in Hx. }
    assert (Ru : forall q,
               WeakSet.has w (timedOutWorkers p) = false ->
               WeakSet.has w (erroredWorkers p) = false ->
               workers q = workers p -> idleWorkers q = idleWorkers p ->
               (forall x, In x (keys (workerTaskMap q)) ->
                          In x (keys (workerTaskMap p)) /\ x <> w) ->
               (forall x, In x (keys (workerTaskMap p)) -> x <> w ->
                          In x (keys (workerTaskMap q))) ->
               isClosing q = isClosing p -> nextWorker q = nextWorker p ->
               threads q = without w (threads p) ->
               timedOutWorkers q = timedOutWorkers p ->
               erroredWorkers q = erroredWorkers p ->
               Census n (removeWorker w q)
               /\ length (workers (removeWorker w q)) < n).
    { intros q U1 U2 E1 E2 Hk1 Hk2 E4 E5 E6 E7 E8.
      pose proof (Census_registered n p w Hcen He U1 U2) as Hw.
      assert (X : Census n (removeWorker w q)
                  /\ (In w (workers p) -> length (workers (removeWorker w q)) < n)).
      { apply (Census_removed n p (removeWorker w q) w); try assumption; simpl;
          rewrite ?E1, ?E2, ?E6, ?E7, ?E8; auto.
        - intros x Hx. apply without_In in Hx. tauto.
        - intros Hx. now apply without_self in Hx. }
      destruct X as [Hq Hlen]. split; [exact Hq | now apply Hlen]. }
    unfold onExit, replaceWorker. simpl.
    destruct (WeakSet.has w (timedOutWorkers p)) eqn:U1,
             (WeakSet.has w (erroredWorkers p)) eqn:U2; simpl;
      rewrite ?andb_false_r; simpl;
      try (apply Rm; try reflexivity; simpl; unfold WeakSet.delete;
           first [ left; now apply WeakSet_has_In
                 | right; now apply WeakSet_has_In
                 | intros x Hne Hx; rewrite ?without_In; auto ]).
    destruct (code =? 0)%Z eqn:Hcode; simpl.
    + simpl in Hreg. apply negb_true_iff in Hreg.
      refine (proj1 (Ru _ eq_refl eq_refl _ _ _ _ _ _ _ _ _)); try reflexivity; simpl.
      * intros x Hx. split; [exact Hx|]. intros ->.
        apply get_None_keys in Hx; [assumption|].
        unfold WMap.has in Hreg. destruct (WMap.get w (workerTaskMap p)); congruence.
      * auto.
    + destruct (isClosing p) eqn:Hc; simpl.
      * apply Census_spawnWorker; [|simpl; congruence].
        destruct (inv_closing _ Hinv Hc) as [_ Hm].
        refine (proj1 (Ru _ eq_refl eq_refl _ _ _ _ _ _ _ _ _)); try reflexivity;
          simpl; first [assumption | rewrite Hm; simpl; tauto].
      * destruct (WMap.get w (workerTaskMap p)) as [hs|] eqn:Hget;
          [unfold clearTimeout; destruct (timeoutId hs)|];
          (match goal with |- Census n (spawnWorker dispatch (removeWorker w ?q)) =>
             destruct (Ru q eq_refl eq_refl) as [Hq Hlen] end;
           try reflexivity; try assumption; simpl;
           [ intros x Hx; first [ rewrite delete_keys, without_In in Hx; exact Hx
                                | split; [exact Hx|]; intros ->;
                                  apply get_None_keys in Hget; now apply Hget ]
           | intros x Hx Hne; rewrite ?delete_keys, ?without_In; auto
           | apply Census_spawnWorker; [exact Hq | intros _; exact Hlen] ]).
  - destruct (pendingTimer t p) as [[w h]|] eqn:Hp; [|assumption].
    unfold onTimeout. simpl.
    destruct (WMap.has w (workerTaskMap p)) eqn:Hhas; simpl.
    + apply has_get in Hhas. destruct Hhas as [hs Hget].
      pose proof (cen_busy _ _ Hcen w (get_Some_keys _ _ _ Hget)) as Hw.
      apply Census_dispatch. unfold replaceWorker.
      match goal with |- Census n (spawnWorker dispatch ?q) =>
        assert (Hq : Census n q /\ (In w (workers p) -> length (workers q) < n)) end.
      { apply (Census_removed n p); try assumption; try reflexivity; simpl.
        - intros x Hx. rewrite delete_keys, without_In in Hx. exact Hx.
        - intros x Hx Hne. rewrite delete_keys, without_In. auto.
        - auto.
        - intros x _ [H|H]; [left; apply WeakSet_add_In; now right | now right].
        - intros _. left. apply WeakSet_add_In. now left. }
      destruct Hq as [Hq Hlen]. apply Census_spawnWorker; [exact Hq | auto].
    + apply (Census_same n p); auto.
Qed.

Lemma run_regular_run evs : forall p p',
  run_regular evs p = Some p' -> run dispatch evs p = Some p'.
Proof.
  induction evs as [|ev evs IH]; simpl; intros p p' H; [assumption|].
  destruct (enabled p ev); simpl in H; [|discriminate].
  destruct (regular p ev); [|discriminate]. now apply IH.
Qed.

Lemma Census_run_regular n evs : forall p p',
  Inv p -> Attributed p -> Census n p ->
  run_regular evs p = Some p' -> Census n p'.
Proof.
  induction evs as [|ev evs IH]; simpl; intros p p' Hinv Ha Hcen Hr.
  - now injection Hr as <-.
  - destruct (enabled p ev) eqn:He; simpl in Hr; [|discriminate].
    destruct (regular p ev) eqn:Hreg; [|discriminate].
    eapply IH; [| | |eassumption].
    + now apply Inv_handle_event.
    + now apply Attributed_handle_event.
    + now apply Census_handle_event.
Qed.

Lemma Census_initWorkers n k : forall p,
  Census n p -> length (workers p) + k <= n ->
  Census n (initWorkers dispatch k p).
Proof.
  induction k as [|k IH]; simpl; intros p H Hlen; [assumption|].
  apply IH.
  - apply Census_spawnWorker; [assumption | intros _; lia].
  - destruct (spawnWorker_frame p) as (_ & _ & _ & _ & _ & _ & _ & _ & _ & F & _).
    rewrite F. destruct (isClosing p); [lia|]. rewrite length_app. simpl. lia.
Qed.

Lemma Census_new n tmo : Census n (new dispatch n tmo).
Proof.
  unfold new. apply Census_initWorkers; [|simpl; lia].
  constructor; simpl; try (constructor; fail); try (intros ? []; fail);
    try (intros ? ? []; fail); try lia.
Qed.

Lemma census_count (idle busy ws : list Worker) :
  NoDup idle -> NoDup busy -> NoDup ws ->
  (forall w, In w idle -> ~ In w busy) ->
  incl idle ws -> incl busy ws ->
  (forall w, In w ws -> In w idle \/ In w busy) ->
  length idle + length busy = length ws.
Proof.
  intros N1 N2 N3 Hdis H1 H2 H3.
  assert (Nab : NoDup (idle ++ busy)).
  { apply NoDup_app; auto. }
  assert (L1 : length (idle ++ busy) <= length ws).
  { apply NoDup_incl_length; [assumption|].
    intros x Hx. apply in_app_iff in Hx. destruct Hx; auto. }
  assert (L2 : length ws <= length (idle ++ busy)).
  { apply NoDup_incl_length; [assumption|].
    intros x Hx. apply in_app_iff. auto. }
  rewrite length_app in *. lia.
Qed.

(** C3, as amended: between two handlers the idle workers are registered,
    hold no assignment, and are no more than the workers. If moreover no
    fault is delivered for a worker already marked as timed out or faulted
    and no busy worker exits with status 0, a pool built with capacity [n]
    never registers more than [n] workers; idle plus busy is the number of
    workers while the pool is not closing; and once it is closing the map is
    empty, the terminated workers staying registered until they exit, so
    that idle plus busy is at most the number of workers. *)
Theorem registry_census n tmo :
  (forall p,
     Reachable n tmo p ->
     incl (idleWorkers p) (workers p)
     /\ length (idleWorkers p) <= length (workers p)
     /\ (forall w, In w (idleWorkers p) -> WMap.get w (workerTaskMap p) = None))
  /\ (forall evs p,
        run_regular evs (new dispatch n tmo) = Some p ->
        length (workers p) <= n
        /\ (isClosing p = false ->
            length (idleWorkers p) + length (workerTaskMap p)
            = length (workers p))
        /\ (isClosing p = true ->
            workerTaskMap p = []
            /\ length (idleWorkers p) + length (workerTaskMap p)
               <= length (workers p))).
Proof.
  assert (G : forall p, Reachable n tmo p ->
                incl (idleWorkers p) (workers p)
                /\ length (idleWorkers p) <= length (workers p)
                /\ (forall w, In w (idleWorkers p) ->
                              WMap.get w (workerTaskMap p) = None)).
  { intros p Hr. pose proof (Inv_Reachable _ _ _ Hr) as Hinv.
    split; [apply (inv_idle_workers _ Hinv)|]. split.
    - apply NoDup_incl_length;
        [apply (inv_idle_nodup _ Hinv) | apply (inv_idle_workers _ Hinv)].
    - intros w Hw. apply get_None_keys. now apply (inv_idle_unassigned _ Hinv). }
  split; [exact G|].
  intros evs p Hrun.
  assert (Hr : Reachable n tmo p).
  { exists evs. now apply run_regular_run. }
  pose proof (Inv_Reachable _ _ _ Hr) as Hinv.
  assert (Hcen : Census n p).
  { apply (Census_run_regular n evs (new dispatch n tmo) p);
      [apply Inv_new | | apply Census_new | exact Hrun].
    apply (Attributed_Reachable n tmo). now exists []. }
  destruct (G p Hr) as (_ & Hle & _).
  split; [apply (cen_capacity _ _ Hcen)|]. split.
  - intros Hc. rewrite <- (length_map fst (workerTaskMap p)).
    apply census_count.
    + apply (inv_idle_nodup _ Hinv).
    + apply (inv_map_nodup _ Hinv).
    + apply (inv_workers_nodup _ Hinv).
    + apply (inv_idle_unassigned _ Hinv).
    + apply (inv_idle_workers _ Hinv).
    + intros w Hw. now apply (cen_busy _ _ Hcen).
    + apply (cen_placed _ _ Hcen Hc).
  - intros Hc. destruct (inv_closing _ Hinv Hc) as [_ Hm].
    split; [exact Hm|]. rewrite Hm. simpl. lia.
Qed.

(** ** A fault after a timeout *)

(** C2: the claim fails on the class when the worker that faults has timed
    out. With one worker and a timeout, a task is submitted and its deadline
    elapses: the callback marks the worker as timed out, terminates it and
    replaces it. The thread, on its way out, still reports a fault and then
    exits. The fault handler marks the worker as faulted but does not look
    at the timeout mark, and calls [replaceWorker] again: three workers have
    been created in all, two of them for the one that failed, and the
    registry holds two workers for a capacity of one. The exit handler,
    which checks both marks, spawns nothing. *)
Theorem one_failure_two_replacements :
  exists p,
    run dispatch
      [Call_runTask aTask; On_timeout 0;
       On_error 0 "Uncaught worker error"%string; On_exit 0 1%Z]
      (new dispatch 1 (Some 50)) = Some p
    /\ nextWorker (new dispatch 1 (Some 50)) = 1
    /\ nextWorker p = 3
    /\ numThreads p = 1
    /\ workers p = [1; 2]
    /\ threads p = [1; 2]
    /\ settled p = [(0, Rejected TimedOut)].
Proof.
  exists (after 1 (Some 50)
            [Call_runTask aTask; On_timeout 0;
             On_error 0 "Uncaught worker error"%string; On_exit 0 1%Z]).
  vm_compute. repeat split.
Qed.

(** When a busy worker exits with status 0 it leaves the registry while its
    assignment stays in the map, until its deadline or [close]. Neither this
    run nor the one above is regular. *)
Lemma busy_worker_clean_exit :
  (exists p,
     run dispatch [Call_runTask aTask; On_exit 0 0%Z] (new dispatch 1 None)
     = Some p
     /\ workers p = []
     /\ workerTaskMap p = [(0, {| handle := 0; timeoutId := None |})]
     /\ settled p = [])
  /\ run_regular [Call_runTask aTask; On_exit 0 0%Z] (new dispatch 1 None) = None
  /\ run_regular
       [Call_runTask aTask; On_timeout 0;
        On_error 0 "Uncaught worker error"%string]
       (new dispatch 1 (Some 50)) = None.
Proof.
  split; [|split; vm_compute; reflexivity].
  exists (after 1 None [Call_runTask aTask; On_exit 0 0%Z]).
  vm_compute. repeat split.
Qed.

(** ** The claims on sample runs *)

(** C3 as stated asks for idle plus busy to be the number of workers at
    every instant. After [close] has rejected the task in flight, its worker
    is still registered, until it exits. *)
Lemma closing_pool_idle_plus_busy :
  Reachable 1 None (after 1 None [Call_runTask aTask; Call_close])
  /\ length (idleWorkers (after 1 None [Call_runTask aTask; Call_close]))
     + length (workerTaskMap (after 1 None [Call_runTask aTask; Call_close]))
     <> length (workers (after 1 None [Call_runTask aTask; Call_close])).
Proof.
  split.
  - exists [Call_runTask aTask; Call_close]. vm_compute. reflexivity.
  - vm_compute. discriminate.
Qed.

Lemma result_handle_settled_exactly_once_witness :
  Reachable 1 (Some 50) (after 1 (Some 50) [Call_runTask aTask; On_message 0 okMessage])
  /\ settlements (after 1 (Some 50) [Call_runTask aTask; On_message 0 okMessage]) 0 = 1.
Proof.
  assert (R : Reachable 1 (Some 50)
                (after 1 (Some 50) [Call_runTask aTask; On_message 0 okMessage])).
  { exists [Call_runTask aTask; On_message 0 okMessage]. vm_compute. reflexivity. }
  split; [exact R|].
  destruct (result_handle_settled_exactly_once _ _ _ R) as (_ & H & _).
  apply (H 0); [vm_compute; lia|]. split; vm_compute; tauto.
Defined.

Lemma close_rejects_and_empties_witness :
  Reachable 1 (Some 50) (after 1 (Some 50) [Call_runTask aTask; Call_runTask aTask])
  /\ stats (after 1 (Some 50)
              [Call_runTask aTask; Call_runTask aTask; Call_close; On_exit 0 1%Z])
     = {| stat_workers := 0; stat_idle := 0; stat_queue := 0 |}.
Proof.
  assert (R : Reachable 1 (Some 50)
                (after 1 (Some 50) [Call_runTask aTask; Call_runTask aTask])).
  { exists [Call_runTask aTask; Call_runTask aTask]. vm_compute. reflexivity. }
  split; [exact R|].
  destruct (close_rejects_and_empties _ _ _ R) as (_ & _ & _ & _ & _ & _ & _ & H).
  apply (H [On_exit 0 1%Z]); [vm_compute; reflexivity|].
  vm_compute. tauto.
Defined.

Lemma dispatch_is_the_specified_loop_witness :
  run dispatch_spec [Call_runTask aTask; Call_runTask aTask; On_message 0 okMessage]
    (new dispatch_spec 1 None)
  = Some (after 1 None [Call_runTask aTask; Call_runTask aTask; On_message 0 okMessage])
  /\ dispatch (close (new dispatch 1 None)) = close (new dispatch 1 None).
Proof.
  destruct dispatch_is_the_specified_loop as (H1 & _ & _ & _ & _ & H6).
  split.
  - apply (H6 1 None [Call_runTask aTask; Call_runTask aTask; On_message 0 okMessage]).
    vm_compute. reflexivity.
  - apply H1. vm_compute. reflexivity.
Defined.

Lemma deadline_elapsed_witness :
  Reachable 1 (Some 50) (after 1 (Some 50) [Call_runTask aTask])
  /\ pendingTimer 0 (after 1 (Some 50) [Call_runTask aTask]) = Some (0, 0)
  /\ settled (handle_event dispatch (On_timeout 0)
                (after 1 (Some 50) [Call_runTask aTask]))
     = settled (after 1 (Some 50) [Call_runTask aTask]) ++ [(0, Rejected TimedOut)].
Proof.
  assert (R : Reachable 1 (Some 50) (after 1 (Some 50) [Call_runTask aTask])).
  { exists [Call_runTask aTask]. vm_compute. reflexivity. }
  assert (E : pendingTimer 0 (after 1 (Some 50) [Call_runTask aTask]) = Some (0, 0))
    by (vm_compute; reflexivity).
  split; [exact R|]. split; [exact E|].
  destruct (deadline_elapsed 1 (Some 50) (after 1 (Some 50) [Call_runTask aTask]) 0 0 0)
    as [_ H].
  destruct (H R E) as (_ & H2 & _).
  exact H2.
Defined.

Lemma submission_rejected_when_closing_witness :
  isClosing (close (new dispatch 1 None)) = true
  /\ runTask dispatch aTask (close (new dispatch 1 None))
     = (RejectedNow PoolClosing, close (new dispatch 1 None)).
Proof.
  assert (E : isClosing (close (new dispatch 1 None)) = true)
    by (vm_compute; reflexivity).
  split; [exact E|].
  destruct (submission_rejected_when_closing (close (new dispatch 1 None)) aTask E)
    as [H _].
  exact H.
Defined.

Lemma compute_failure_keeps_worker_witness :
  Reachable 1 (Some 50) (after 1 (Some 50) [Call_runTask aTask])
  /\ settled (handle_event dispatch (On_message 0 errorMessage)
                (after 1 (Some 50) [Call_runTask aTask]))
     = settled (after 1 (Some 50) [Call_runTask aTask])
       ++ [(0, Rejected (MessageError (error errorMessage)))].
Proof.
  assert (R : Reachable 1 (Some 50) (after 1 (Some 50) [Call_runTask aTask])).
  { exists [Call_runTask aTask]. vm_compute. reflexivity. }
  assert (E1 : enabled (after 1 (Some 50) [Call_runTask aTask])
                 (On_message 0 errorMessage) = true) by (vm_compute; reflexivity).
  assert (E2 : WMap.get 0 (workerTaskMap (after 1 (Some 50) [Call_runTask aTask]))
               = Some {| handle := 0; timeoutId := Some 0 |})
    by (vm_compute; reflexivity).
  split; [exact R|].
  destruct (compute_failure_keeps_worker 1 (Some 50) _ 0 errorMessage
              {| handle := 0; timeoutId := Some 0 |} R E1 eq_refl E2)
    as (_ & H2 & _).
  exact H2.
Defined.

Lemma stale_message_ignored_witness :
  WMap.get 0 (workerTaskMap (new dispatch 1 None)) = None
  /\ handle_event dispatch (On_message 0 okMessage) (new dispatch 1 None)
     = new dispatch 1 None.
Proof.
  assert (E : WMap.get 0 (workerTaskMap (new dispatch 1 None)) = None)
    by (vm_compute; reflexivity).
  split; [exact E|].
  destruct (stale_message_ignored (new dispatch 1 None) 0 okMessage) as [H _].
  apply (H E dispatch).
Defined.

Lemma closing_is_final_witness :
  Reachable 1 None (after 1 None [Call_close])
  /\ isClosing (after 1 None [Call_close]) = true
  /\ spawnWorker dispatch (after 1 None [Call_close]) = after 1 None [Call_close].
Proof.
  assert (R : Reachable 1 None (after 1 None [Call_close])).
  { exists [Call_close]. vm_compute. reflexivity. }
  assert (E : isClosing (after 1 None [Call_close]) = true)
    by (vm_compute; reflexivity).
  split; [exact R|]. split; [exact E|].
  destruct (closing_is_final _ _ _ R E) as (_ & H2 & _).
  exact H2.
Defined.

Lemma registry_census_witness :
  run_regular
    [Call_runTask aTask; On_error 0 "Uncaught worker error"%string; On_exit 0 1%Z]
    (new dispatch 2 (Some 50))
  = Some (after 2 (Some 50)
            [Call_runTask aTask; On_error 0 "Uncaught worker error"%string;
             On_exit 0 1%Z])
  /\ length (workers (after 2 (Some 50)
                        [Call_runTask aTask;
                         On_error 0 "Uncaught worker error"%string;
                         On_exit 0 1%Z])) <= 2.
Proof.
  assert (E : run_regular
                [Call_runTask aTask; On_error 0 "Uncaught worker error"%string;
                 On_exit 0 1%Z]
                (new dispatch 2 (Some 50))
              = Some (after 2 (Some 50)
                        [Call_runTask aTask;
                         On_error 0 "Uncaught worker error"%string;
                         On_exit 0 1%Z])) by (vm_compute; reflexivity).
  split; [exact E|].
  destruct (registry_census 2 (Some 50)) as [_ H].
  destruct (H _ _ E) as (H1 & _).
  exact H1.
Defined.

(** ** The constructor *)

Lemma spawnWorker_empty_queue p :
  isClosing p = false -> taskQueue p = [] -> spawnWorker dispatch p = spawned p.
Proof.
  intros Hc Hq. rewrite spawnWorker_eq, Hc. apply dispatch_idle.
  unfold canAssign. simpl. rewrite Hq. simpl. now rewrite andb_false_r.
Qed.

Lemma initWorkers_empty_queue k : forall p,
  isClosing p = false -> taskQueue p = [] ->
  workers (initWorkers dispatch k p) = workers p ++ seq (nextWorker p) k
  /\ idleWorkers (initWorkers dispatch k p) = idleWorkers p ++ seq (nextWorker p) k
  /\ threads (initWorkers dispatch k p) = threads p ++ seq (nextWorker p) k
  /\ nextWorker (initWorkers dispatch k p) = nextWorker p + k
  /\ taskQueue (initWorkers dispatch k p) = []
  /\ workerTaskMap (initWorkers dispatch k p) = workerTaskMap p
  /\ timers (initWorkers dispatch k p) = timers p
  /\ settled (initWorkers dispatch k p) = settled p
  /\ posted (initWorkers dispatch k p) = posted p
  /\ isClosing (initWorkers dispatch k p) = false
  /\ numThreads (initWorkers dispatch k p) = numThreads p
  /\ taskTimeoutMs (initWorkers dispatch k p) = taskTimeoutMs p.
Proof.
  induction k as [|k IH]; intros p Hc Hq; simpl.
  - rewrite !app_nil_r, Nat.add_0_r. repeat split; assumption.
  - rewrite (spawnWorker_empty_queue p Hc Hq).
    destruct (IH (spawned p) Hc Hq)
      as (E1 & E2 & E3 & E4 & E5 & E6 & E7 & E8 & E9 & E10 & E11 & E12).
    rewrite E1, E2, E3, E4, E5, E6, E7, E8, E9, E10, E11, E12. simpl.
    rewrite <- !app_assoc. simpl.
    repeat split; lia.
Qed.

(** X1: The constructor starts [numThreads] workers, numbered from 0, all
    registered and idle, with nothing queued, assigned, posted or settled
    and no timer set. *)
Theorem new_pool n tmo :
  workers (new dispatch n tmo) = seq 0 n
  /\ idleWorkers (new dispatch n tmo) = seq 0 n
  /\ threads (new dispatch n tmo) = seq 0 n
  /\ nextWorker (new dispatch n tmo) = n
  /\ taskQueue (new dispatch n tmo) = []
  /\ workerTaskMap (new dispatch n tmo) = []
  /\ timers (new dispatch n tmo) = []
  /\ settled (new dispatch n tmo) = []
  /\ posted (new dispatch n tmo) = []
  /\ isClosing (new dispatch n tmo) = false
  /\ numThreads (new dispatch n tmo) = n
  /\ taskTimeoutMs (new dispatch n tmo) = tmo
  /\ stats (new dispatch n tmo)
     = {| stat_workers := n; stat_idle := n; stat_queue := 0 |}.
Proof.
  unfold new.
  destruct (initWorkers_empty_queue n
              (mkAsyncJson n tmo [] [] [] [] false [] [] [] 0 0 0 [] [] [] [])
              eq_refl eq_refl)
    as (E1 & E2 & E3 & E4 & E5 & E6 & E7 & E8 & E9 & E10 & E11 & E12).
  simpl in E1, E2, E3, E4, E5, E6, E7, E8, E9, E10, E11, E12.
  unfold stats. rewrite E1, E2, E3, E4, E5, E6, E7, E8, E9, E10, E11, E12.
  rewrite length_seq. repeat split.
Qed.

(** ** Submitting a task *)

Lemma runTask_idle_state p t w idle :
  Quiescent p -> isClosing p = false -> idleWorkers p = w :: idle ->
  taskQueue p = []
  /\ runTask dispatch t p
     = (Pending (nextHandle p),
        assigned {| task := t; item_handle := nextHandle p |} [] w idle
          (enqueued t p)).
Proof.
  intros [Hq|Hi] Hc Hidle; [|congruence]. split; [exact Hq|].
  unfold runTask. rewrite Hc. f_equal.
  apply (dispatch_assigned (enqueued t p)); simpl; [assumption | | assumption].
  now rewrite Hq.
Qed.

Lemma runTask_busy_state p t :
  isClosing p = false -> idleWorkers p = [] ->
  runTask dispatch t p = (Pending (nextHandle p), enqueued t p).
Proof.
  intros Hc Hi. unfold runTask. rewrite Hc. f_equal.
  apply (dispatch_idle (enqueued t p)). unfold canAssign. simpl.
  rewrite Hi. simpl. now rewrite andb_false_r.
Qed.

(** X2: A task submitted to a running pool gets a fresh handle. If a worker is
    idle the queue was empty and stays so: the task is posted at once, to
    the worker that has been idle longest, and the assignment is recorded
    with a timer if a timeout is configured. If no worker is idle the task
    goes to the back of the queue and nothing is posted. *)
Theorem runTask_posts_or_queues n tmo p t :
  Reachable n tmo p -> isClosing p = false ->
  fst (runTask dispatch t p) = Pending (nextHandle p)
  /\ nextHandle (snd (runTask dispatch t p)) = S (nextHandle p)
  /\ (forall w idle,
        idleWorkers p = w :: idle ->
        taskQueue p = []
        /\ taskQueue (snd (runTask dispatch t p)) = []
        /\ idleWorkers (snd (runTask dispatch t p)) = idle
        /\ posted (snd (runTask dispatch t p)) = posted p ++ [(w, t)]
        /\ workerTaskMap (snd (runTask dispatch t p))
           = workerTaskMap p
             ++ [(w, {| handle := nextHandle p;
                        timeoutId := match taskTimeoutMs p with
                                     | Some _ => Some (nextTimeout p)
                                     | None => None
                                     end |})]
        /\ timers (snd (runTask dispatch t p))
           = match taskTimeoutMs p with
             | Some _ => timers p ++ [(nextTimeout p, (w, nextHandle p))]
             | None => timers p
             end)
  /\ (idleWorkers p = [] ->
      taskQueue (snd (runTask dispatch t p))
      = taskQueue p ++ [{| task := t; item_handle := nextHandle p |}]
      /\ posted (snd (runTask dispatch t p)) = posted p
      /\ workerTaskMap (snd (runTask dispatch t p)) = workerTaskMap p
      /\ timers (snd (runTask dispatch t p)) = timers p
      /\ idleWorkers (snd (runTask dispatch t p)) = []).
Proof.
  intros Hr Hc. pose proof (Inv_Reachable _ _ _ Hr) as Hinv.
  pose proof (Settled_Reachable _ _ _ Hr) as [Hquiet _].
  split; [|split; [|split]].
  - unfold runTask. now rewrite Hc.
  - unfold runTask. rewrite Hc. simpl.
    destruct (dispatch_frame (enqueued t p)) as (_ & _ & _ & _ & _ & _ & _ & _ & F & _).
    exact F.
  - intros w idle Hi.
    destruct (runTask_idle_state p t w idle Hquiet Hc Hi) as [Hq E].
    rewrite E. simpl.
    assert (Hw : ~ In w (keys (workerTaskMap p))).
    { apply (inv_idle_unassigned _ Hinv). rewrite Hi. now left. }
    rewrite (set_absent _ _ _ Hw).
    destruct (taskTimeoutMs p); repeat split; assumption.
  - intros Hi. rewrite (runTask_busy_state p t Hc Hi). simpl.
    repeat split. exact Hi.
Qed.

Lemma runTask_posts_or_queues_witness :
  Reachable 1 (Some 50) (after 1 (Some 50) [Call_runTask aTask])
  /\ taskQueue (snd (runTask dispatch aTask (after 1 (Some 50) [Call_runTask aTask])))
     = taskQueue (after 1 (Some 50) [Call_runTask aTask])
       ++ [{| task := aTask;
              item_handle := nextHandle (after 1 (Some 50) [Call_runTask aTask]) |}].
Proof.
  assert (R : Reachable 1 (Some 50) (after 1 (Some 50) [Call_runTask aTask])).
  { exists [Call_runTask aTask]. vm_compute. reflexivity. }
  assert (E : isClosing (after 1 (Some 50) [Call_runTask aTask]) = false)
    by (vm_compute; reflexivity).
  assert (I : idleWorkers (after 1 (Some 50) [Call_runTask aTask]) = [])
    by (vm_compute; reflexivity).
  split; [exact R|].
  destruct (runTask_posts_or_queues 1 (Some 50) _ aTask R E) as (_ & _ & _ & H).
  destruct (H I) as (H1 & _). exact H1.
Defined.

(** ** A task from submission to settlement *)

Lemma delete_last w hs m :
  ~ In w (keys m) -> WMap.delete w (m ++ [(w, hs)]) = m.
Proof.
  intros H. unfold WMap.delete. rewrite filter_app. simpl.
  rewrite Nat.eqb_refl. simpl. rewrite app_nil_r.
  now apply delete_absent.
Qed.

Lemma clear_last (tm : list (Timeout * (Worker * ResultHandle))) nt y :
  (forall t x, In (t, x) tm -> t < nt) ->
  filter (fun e => negb (fst e =? nt)) (tm ++ [(nt, y)]) = tm.
Proof.
  intros H. rewrite filter_app. simpl. rewrite Nat.eqb_refl. simpl.
  rewrite app_nil_r. induction tm as [|[t x] tm IH]; simpl; [reflexivity|].
  assert (t < nt) by (apply (H t x); now left).
  destruct (Nat.eqb_spec t nt); [lia|]. simpl. f_equal. apply IH.
  intros t' x' Hin. apply (H t' x'). now right.
Qed.

(** What an idle worker of a running pool is. *)
Lemma idle_worker n tmo p w idle :
  Reachable n tmo p -> idleWorkers p = w :: idle ->
  ~ In w (keys (workerTaskMap p))
  /\ ~ In w idle
  /\ In w (workers p) /\ In w (threads p) /\ w < nextWorker p
  /\ WeakSet.has w (timedOutWorkers p) = false
  /\ WeakSet.has w (erroredWorkers p) = false
  /\ taskQueue p = [].
Proof.
  intros Hr Hi. pose proof (Inv_Reachable _ _ _ Hr) as Hinv.
  pose proof (Attributed_Reachable _ _ _ Hr) as Ha.
  pose proof (Settled_Reachable _ _ _ Hr) as [Hquiet _].
  assert (Hin : In w (idleWorkers p)) by (rewrite Hi; now left).
  pose proof (inv_idle_workers _ Hinv w Hin) as Hw.
  pose proof (inv_workers_threads _ Hinv w Hw) as Hth.
  assert (Hfree : forall s, In w s -> In w (timedOutWorkers p) \/ In w (erroredWorkers p) ->
                            False).
  { intros s _ Hm. destruct (Ha w Hm) as [_ Hf]. apply Hf. now right. }
  repeat split.
  - now apply (inv_idle_unassigned _ Hinv).
  - pose proof (inv_idle_nodup _ Hinv) as Hnd. rewrite Hi in Hnd.
    now inversion Hnd.
  - exact Hw.
  - exact Hth.
  - now apply (inv_threads_fresh _ Hinv).
  - destruct (WeakSet.has w (timedOutWorkers p)) eqn:E; [|reflexivity].
    apply WeakSet_has_In in E. exfalso. apply (Hfree _ E). now left.
  - destruct (WeakSet.has w (erroredWorkers p)) eqn:E; [|reflexivity].
    apply WeakSet_has_In in E. exfalso. apply (Hfree _ E). now right.
  - destruct Hquiet as [Hq|Hq]; [exact Hq | congruence].
Qed.

(** The state in which the worker [w] of a running pool, idle when the task
    was submitted, answers with [m]. *)
Lemma answered_state n tmo p t w idle m :
  Reachable n tmo p -> isClosing p = false -> idleWorkers p = w :: idle ->
  enabled (snd (runTask dispatch t p)) (On_message w m) = true
  /\ handle_event dispatch (On_message w m) (snd (runTask dispatch t p))
     = mkAsyncJson (numThreads p) (taskTimeoutMs p) (workers p) (idle ++ [w]) []
         (workerTaskMap p) false (timedOutWorkers p) (erroredWorkers p)
         (threads p) (nextWorker p) (S (nextHandle p))
         (match taskTimeoutMs p with
          | Some _ => S (nextTimeout p)
          | None => nextTimeout p
          end)
         (timers p)
         (settled p ++ [(nextHandle p, messageOutcome m)])
         (posted p ++ [(w, t)]) (terminated p).
Proof.
  intros Hr Hc Hi. pose proof (Inv_Reachable _ _ _ Hr) as Hinv.
  destruct (idle_worker n tmo p w idle Hr Hi)
    as (Hk & Hni & Hw & Hth & Hlt & Hto & Her & Hq).
  pose proof (Settled_Reachable _ _ _ Hr) as [Hquiet _].
  destruct (runTask_idle_state p t w idle Hquiet Hc Hi) as [_ E].
  rewrite E. cbn [snd]. split.
  - simpl. now apply existsb_eqb_In.
  - cbn [handle_event]. unfold onMessage, assigned.
    cbn [workerTaskMap]. rewrite get_set_same.
    rewrite (set_absent _ _ _ Hk).
    unfold clearTimeout, settle, messageOutcome. simpl.
    destruct (status m), (taskTimeoutMs p) eqn:Et; simpl;
      (rewrite dispatch_idle by (unfold canAssign; simpl; rewrite Hc; reflexivity));
      apply AsyncJson_ext; simpl; rewrite ?Hc, ?Et; try reflexivity;
      try (apply delete_last; exact Hk);
      apply clear_last; intros t' x Hin; apply (inv_timers_fresh _ Hinv t' x Hin).
Qed.

Lemma without_last w x l : x <> w -> without w (l ++ [x]) = without w l ++ [x].
Proof.
  intros H. unfold without. rewrite filter_app. simpl.
  apply Nat.eqb_neq in H. now rewrite H.
Qed.

Lemma without_twice w l : without w (without w l) = without w l.
Proof. apply without_absent, without_self. Qed.

Lemma WeakSet_has_false w s : WeakSet.has w s = false -> ~ In w s.
Proof. intros H Hin. apply WeakSet_has_In in Hin. congruence. Qed.

Lemma crashed_state n tmo p t w idle code :
  Reachable n tmo p -> isClosing p = false -> idleWorkers p = w :: idle ->
  code <> 0%Z ->
  enabled (snd (runTask dispatch t p)) (On_exit w code) = true
  /\ handle_event dispatch (On_exit w code) (snd (runTask dispatch t p))
     = replaced_state p t w idle (ExitError code).
Proof.
  intros Hr Hc Hi Hcode. pose proof (Inv_Reachable _ _ _ Hr) as Hinv.
  destruct (idle_worker n tmo p w idle Hr Hi)
    as (Hk & Hni & Hw & Hth & Hlt & Hto & Her & Hq).
  pose proof (Settled_Reachable _ _ _ Hr) as [Hquiet _].
  destruct (runTask_idle_state p t w idle Hquiet Hc Hi) as [_ E].
  rewrite E. cbn [snd]. split.
  - simpl. now apply existsb_eqb_In.
  - apply Z.eqb_neq in Hcode.
    cbn [handle_event]. unfold onExit, replaceWorker, assigned. simpl.
    rewrite Hto, Her, Hcode. simpl. rewrite ?Hc. simpl. rewrite get_set_same.
    rewrite (set_absent _ _ _ Hk). rewrite spawnWorker_eq.
    unfold clearTimeout, settle, replaced_state. simpl.
    destruct (taskTimeoutMs p) eqn:Et; simpl; rewrite ?Hc; simpl;
      (rewrite dispatch_idle by (unfold canAssign; simpl; rewrite ?Hc; reflexivity));
      apply AsyncJson_ext; simpl; rewrite ?Hc, ?Et; try reflexivity;
      try (apply delete_last; exact Hk);
      try (now rewrite (without_absent w idle Hni));
      apply clear_last; intros t' x Hin; apply (inv_timers_fresh _ Hinv t' x Hin).
Qed.

Lemma faulted_state n tmo p t w idle err code :
  Reachable n tmo p -> isClosing p = false -> idleWorkers p = w :: idle ->
  run dispatch [On_error w err; On_exit w code] (snd (runTask dispatch t p))
  = Some (replaced_state p t w idle (WorkerError err)).
Proof.
  intros Hr Hc Hi. pose proof (Inv_Reachable _ _ _ Hr) as Hinv.
  destruct (idle_worker n tmo p w idle Hr Hi)
    as (Hk & Hni & Hw & Hth & Hlt & Hto & Her & Hq).
  pose proof (Settled_Reachable _ _ _ Hr) as [Hquiet _].
  destruct (runTask_idle_state p t w idle Hquiet Hc Hi) as [_ E].
  rewrite E. cbn [snd].
  assert (Hne : nextWorker p <> w) by lia.
  assert (Hw1 : WeakSet.add w (erroredWorkers p) = w :: erroredWorkers p).
  { unfold WeakSet.add. now rewrite Her. }
  assert (E1 : handle_event dispatch (On_error w err)
                 (assigned {| task := t; item_handle := nextHandle p |} [] w idle
                    (enqueued t p))
               = set_erroredWorkers (w :: erroredWorkers p)
                   (set_threads (threads p ++ [nextWorker p])
                      (set_workers (without w (workers p) ++ [nextWorker p])
                         (replaced_state p t w idle (WorkerError err))))).
  { cbn [handle_event]. unfold onError, replaceWorker, assigned. simpl.
    rewrite get_set_same, (set_absent _ _ _ Hk), spawnWorker_eq, Hw1.
    unfold clearTimeout, settle, replaced_state. simpl.
    destruct (taskTimeoutMs p) eqn:Et; simpl; rewrite ?Hc; simpl;
      (rewrite dispatch_idle by (unfold canAssign; simpl; rewrite ?Hc; reflexivity));
      apply AsyncJson_ext; simpl; rewrite ?Hc, ?Et; try reflexivity;
      try (apply delete_last; exact Hk);
      try (now rewrite (without_absent w idle Hni));
      apply clear_last; intros t' x Hin; apply (inv_timers_fresh _ Hinv t' x Hin). }
  change (run dispatch [On_error w err; On_exit w code] ?q)
    with (if enabled q (On_error w err)
          then (if enabled (handle_event dispatch (On_error w err) q) (On_exit w code)
                then Some (handle_event dispatch (On_exit w code)
                             (handle_event dispatch (On_error w err) q))
                else None)
          else None).
  rewrite E1.
  assert (En1 : enabled (assigned {| task := t; item_handle := nextHandle p |} [] w idle
                           (enqueued t p)) (On_error w err) = true).
  { simpl. now apply existsb_eqb_In. }
  rewrite En1.
  match goal with |- (if enabled ?q _ then _ else _) = _ =>
    assert (En2 : enabled q (On_exit w code) = true) end.
  { simpl. apply existsb_eqb_In. apply in_app_iff. now left. }
  rewrite En2. f_equal.
  rewrite exit_attributed by (right; simpl; now left).
  unfold replaced_state. apply AsyncJson_ext; simpl; try reflexivity.
  - rewrite (without_last w _ _ Hne). now rewrite without_twice.
  - rewrite (without_last w _ _ Hne). now rewrite (without_absent w idle Hni).
  - now apply without_absent, WeakSet_has_false.
  - rewrite Nat.eqb_refl. simpl. now apply without_absent, WeakSet_has_false.
  - now rewrite (without_last w _ _ Hne).
Qed.

Lemma timed_out_state n tmo p t w idle ms code :
  Reachable n tmo p -> isClosing p = false -> idleWorkers p = w :: idle ->
  taskTimeoutMs p = Some ms ->
  pendingTimer (nextTimeout p) (snd (runTask dispatch t p)) = Some (w, nextHandle p)
  /\ run dispatch [On_timeout (nextTimeout p); On_exit w code]
       (snd (runTask dispatch t p))
     = Some (set_terminated (terminated p ++ [w])
               (replaced_state p t w idle TimedOut)).
Proof.
  intros Hr Hc Hi Hms. pose proof (Inv_Reachable _ _ _ Hr) as Hinv.
  destruct (idle_worker n tmo p w idle Hr Hi)
    as (Hk & Hni & Hw & Hth & Hlt & Hto & Her & Hq).
  pose proof (Settled_Reachable _ _ _ Hr) as [Hquiet _].
  destruct (runTask_idle_state p t w idle Hquiet Hc Hi) as [_ E].
  rewrite E. cbn [snd].
  assert (Hne : nextWorker p <> w) by lia.
  assert (Hw1 : WeakSet.add w (timedOutWorkers p) = w :: timedOutWorkers p).
  { unfold WeakSet.add. now rewrite Hto. }
  assert (Hfind : find (fun e : Timeout * (Worker * ResultHandle) =>
                          fst e =? nextTimeout p)
                    (timers p ++ [(nextTimeout p, (w, nextHandle p))])
                  = Some (nextTimeout p, (w, nextHandle p))).
  { pose proof (inv_timers_fresh _ Hinv) as Hf.
    induction (timers p) as [|[t' x] tm IH]; simpl.
    - now rewrite Nat.eqb_refl.
    - assert (t' < nextTimeout p) by (apply (Hf t' x); now left).
      destruct (Nat.eqb_spec t' (nextTimeout p)); [lia|].
      apply IH. intros t'' x' Hin. apply (Hf t'' x'). now right. }
  assert (Hp : pendingTimer (nextTimeout p)
                 (assigned {| task := t; item_handle := nextHandle p |} [] w idle
                    (enqueued t p)) = Some (w, nextHandle p)).
  { assert (Ht : timers (assigned {| task := t; item_handle := nextHandle p |} [] w
                          idle (enqueued t p))
                 = timers p ++ [(nextTimeout p, (w, nextHandle p))]).
    { unfold assigned. simpl. now rewrite Hms. }
    unfold pendingTimer. rewrite Ht.
    change (find _ (timers p ++ [(nextTimeout p, (w, nextHandle p))]))
      with (find (fun e : Timeout * (Worker * ResultHandle) =>
                    fst e =? nextTimeout p)
              (timers p ++ [(nextTimeout p, (w, nextHandle p))])).
    now rewrite Hfind. }
  split; [exact Hp|].
  assert (E1 : handle_event dispatch (On_timeout (nextTimeout p))
                 (assigned {| task := t; item_handle := nextHandle p |} [] w idle
                    (enqueued t p))
               = set_timedOutWorkers (w :: timedOutWorkers p)
                   (set_terminated (terminated p ++ [w])
                      (set_threads (threads p ++ [nextWorker p])
                         (set_workers (without w (workers p) ++ [nextWorker p])
                            (replaced_state p t w idle TimedOut))))).
  { cbn [handle_event]. rewrite Hp. unfold onTimeout, replaceWorker, WMap.has.
    unfold assigned. simpl. rewrite get_set_same. simpl.
    rewrite (set_absent _ _ _ Hk), spawnWorker_eq, Hw1, Hms.
    unfold settle, terminate, replaced_state. simpl. rewrite Hc. simpl.
    rewrite (dispatch_idle (spawned _))
      by (unfold canAssign; simpl; rewrite ?Hc; reflexivity).
    rewrite dispatch_idle by (unfold canAssign; simpl; rewrite ?Hc; reflexivity).
    apply AsyncJson_ext; simpl; rewrite ?Hc, ?Hms; try reflexivity.
    - now rewrite (without_absent w idle Hni).
    - apply delete_last; exact Hk.
    - apply clear_last. intros t' x Hin. apply (inv_timers_fresh _ Hinv t' x Hin). }
  change (run dispatch [On_timeout (nextTimeout p); On_exit w code] ?q)
    with (if enabled q (On_timeout (nextTimeout p))
          then (if enabled (handle_event dispatch (On_timeout (nextTimeout p)) q)
                     (On_exit w code)
                then Some (handle_event dispatch (On_exit w code)
                             (handle_event dispatch (On_timeout (nextTimeout p)) q))
                else None)
          else None).
  rewrite E1.
  assert (En1 : enabled (assigned {| task := t; item_handle := nextHandle p |} [] w idle
                           (enqueued t p)) (On_timeout (nextTimeout p)) = true).
  { cbn [enabled]. now rewrite Hp. }
  rewrite En1.
  match goal with |- (if enabled ?q _ then _ else _) = _ =>
    assert (En2 : enabled q (On_exit w code) = true) end.
  { simpl. apply existsb_eqb_In. apply in_app_iff. now left. }
  rewrite En2. f_equal.
  rewrite exit_attributed by (left; simpl; now left).
  unfold replaced_state. apply AsyncJson_ext; simpl; try reflexivity.
  - rewrite (without_last w _ _ Hne). now rewrite without_twice.
  - rewrite (without_last w _ _ Hne). now rewrite (without_absent w idle Hni).
  - rewrite Nat.eqb_refl. simpl. now apply without_absent, WeakSet_has_false.
  - now apply without_absent, WeakSet_has_false.
  - now rewrite (without_last w _ _ Hne).
Qed.

Lemma run_one ev p :
  run dispatch [ev] p
  = if enabled p ev then Some (handle_event dispatch ev p) else None.
Proof. reflexivity. Qed.

Lemma replaced_stats n tmo p t w idle reason :
  Reachable n tmo p -> idleWorkers p = w :: idle ->
  stats (replaced_state p t w idle reason) = stats p.
Proof.
  intros Hr Hi. pose proof (Inv_Reachable _ _ _ Hr) as Hinv.
  destruct (idle_worker n tmo p w idle Hr Hi)
    as (_ & _ & Hw & _ & _ & _ & _ & Hq).
  unfold stats, replaced_state. simpl. rewrite Hq, Hi. simpl.
  rewrite !length_app. simpl.
  rewrite <- (without_length_In w (workers p) (inv_workers_nodup _ Hinv) Hw).
  f_equal; lia.
Qed.

Lemma answered_run JSON_parse JSON_stringify n tmo p t w idle c :
  Reachable n tmo p -> isClosing p = false -> idleWorkers p = w :: idle ->
  tryBlock JSON_parse JSON_stringify t = inr c ->
  exists q,
    run dispatch (workerEvents w (workerOnMessage JSON_parse JSON_stringify t))
      (snd (runTask dispatch t p)) = Some q
    /\ Reachable n tmo q
    /\ isClosing q = false
    /\ nextHandle q = S (nextHandle p)
    /\ settled q = settled p ++ [(nextHandle p, computedOutcome c)]
    /\ idleWorkers q = idle ++ [w]
    /\ workers q = workers p
    /\ threads q = threads p
    /\ nextWorker q = nextWorker p
    /\ terminated q = terminated p
    /\ workerTaskMap q = workerTaskMap p
    /\ timers q = timers p
    /\ taskQueue q = []
    /\ stats q = stats p.
Proof.
  intros Hr Hc Hi Ht.
  destruct (idle_worker n tmo p w idle Hr Hi) as (_ & _ & _ & _ & _ & _ & _ & Hq).
  set (m := match c with
            | Returns result => {| status := StatusOk; data := result; error := None |}
            | Throws message =>
                {| status := StatusError; data := None; error := Some message |}
            end).
  assert (Ev : workerEvents w (workerOnMessage JSON_parse JSON_stringify t)
               = [On_message w m]).
  { unfold workerOnMessage. rewrite Ht. subst m. now destruct c. }
  assert (Ho : messageOutcome m = computedOutcome c) by (subst m; now destruct c).
  destruct (answered_state n tmo p t w idle m Hr Hc Hi) as [En E].
  assert (Hr' : Reachable n tmo
                  (handle_event dispatch (On_message w m)
                     (snd (runTask dispatch t p)))).
  { apply Reachable_step; [|exact En].
    apply (Reachable_step n tmo p (Call_runTask t) Hr). reflexivity. }
  rewrite Ev, run_one, En. eexists. split; [reflexivity|].
  split; [exact Hr'|]. rewrite E, Ho. simpl.
  repeat split.
  unfold stats. simpl. rewrite Hq, Hi, length_app. simpl. f_equal. lia.
Qed.

(** X3: The worker's answer to a task, end to end. A task is submitted to a
    running pool whose first idle worker is [w]; the [try] block of the
    worker code computes a result or throws, so the worker posts one message.
    Once that message is handled, the promise of the task is settled with
    what was computed (resolved with the result, or rejected with the message
    of the error thrown), [w] is idle again, at the back of the idle list,
    and the registry, the assignments, the timers and the statistics are
    those of before the submission: no worker was terminated or spawned, and
    the deadline set for the task can no longer elapse. *)
Theorem worker_answer_settles_task JSON_parse JSON_stringify n tmo p t w idle c :
  Reachable n tmo p -> isClosing p = false -> idleWorkers p = w :: idle ->
  tryBlock JSON_parse JSON_stringify t = inr c ->
  exists q,
    run dispatch (workerEvents w (workerOnMessage JSON_parse JSON_stringify t))
      (snd (runTask dispatch t p)) = Some q
    /\ settled q = settled p ++ [(nextHandle p, computedOutcome c)]
    /\ idleWorkers q = idle ++ [w]
    /\ workers q = workers p
    /\ threads q = threads p
    /\ nextWorker q = nextWorker p
    /\ terminated q = terminated p
    /\ workerTaskMap q = workerTaskMap p
    /\ timers q = timers p
    /\ enabled q (On_timeout (nextTimeout p)) = false
    /\ taskQueue q = []
    /\ stats q = stats p.
Proof.
  intros Hr Hc Hi Ht. pose proof (Inv_Reachable _ _ _ Hr) as Hinv.
  destruct (answered_run JSON_parse JSON_stringify n tmo p t w idle c Hr Hc Hi Ht)
    as (q & H1 & _ & _ & _ & H2 & H3 & H4 & H5 & H6 & H7 & H8 & H9 & H10 & H11).
  exists q. repeat split; try assumption.
  simpl. rewrite pendingTimer_None; [reflexivity|].
  intros x Hin. rewrite H9 in Hin.
  pose proof (inv_timers_fresh _ Hinv _ _ Hin). lia.
Qed.

Lemma worker_answer_settles_task_witness :
  exists q,
    run dispatch
      (workerEvents 0
         (workerOnMessage (fun v => Returns (Some v)) (fun v => Returns (Some v))
            aTask))
      (snd (runTask dispatch aTask (after 1 (Some 50) []))) = Some q
    /\ settled q = [(0, Resolved (Some 7))]
    /\ idleWorkers q = [0].
Proof.
  assert (R : Reachable 1 (Some 50) (after 1 (Some 50) [])).
  { exists []. vm_compute. reflexivity. }
  assert (E : isClosing (after 1 (Some 50) []) = false) by (vm_compute; reflexivity).
  assert (I : idleWorkers (after 1 (Some 50) []) = [0]) by (vm_compute; reflexivity).
  assert (T : tryBlock (fun v => Returns (Some v)) (fun v => Returns (Some v)) aTask
              = inr (Returns (Some 7))) by (vm_compute; reflexivity).
  destruct (worker_answer_settles_task (fun v => Returns (Some v))
              (fun v => Returns (Some v)) 1 (Some 50) _ aTask 0 [] _ R E I T)
    as (q & H1 & H2 & H3 & _).
  exists q. split; [exact H1|]. split; [exact H2|exact H3].
Defined.

(** X4: A task that ends its worker, end to end. The worker code calls
    [process.exit(1)] for a [__TEST_CRASH__] task, so the main thread sees one
    'exit' with code 1. The promise of the task is then rejected with the
    exit error, the worker leaves the registry and one new worker, never seen
    before, takes its place at the back of the idle list: the statistics are
    those of before the submission, and [terminate] was not called. *)
Theorem crash_task_replaces_worker JSON_parse JSON_stringify n tmo p t w idle :
  Reachable n tmo p -> isClosing p = false -> idleWorkers p = w :: idle ->
  type t = TEST_CRASH ->
  run dispatch (workerEvents w (workerOnMessage JSON_parse JSON_stringify t))
    (snd (runTask dispatch t p))
  = Some (replaced_state p t w idle (ExitError 1))
  /\ stats (replaced_state p t w idle (ExitError 1)) = stats p
  /\ ~ In w (workers (replaced_state p t w idle (ExitError 1)))
  /\ ~ In (nextWorker p) (workers p).
Proof.
  intros Hr Hc Hi Ht. pose proof (Inv_Reachable _ _ _ Hr) as Hinv.
  destruct (idle_worker n tmo p w idle Hr Hi)
    as (_ & _ & Hw & _ & Hlt & _ & _ & _).
  assert (Ev : workerEvents w (workerOnMessage JSON_parse JSON_stringify t)
               = [On_exit w 1%Z]).
  { unfold workerOnMessage, tryBlock. now rewrite Ht. }
  destruct (crashed_state n tmo p t w idle 1%Z Hr Hc Hi) as [En E]; [discriminate|].
  rewrite Ev, run_one, En, E.
  split; [reflexivity|]. split; [exact (replaced_stats n tmo p t w idle _ Hr Hi)|].
  split.
  - simpl. intros Hin. apply in_app_iff in Hin. destruct Hin as [Hin|[Hin|[]]].
    + apply without_In in Hin. tauto.
    + lia.
  - intros Hin. apply (inv_workers_threads _ Hinv) in Hin.
    apply (inv_threads_fresh _ Hinv) in Hin. lia.
Qed.

Lemma crash_task_replaces_worker_witness :
  run dispatch
    (workerEvents 0
       (workerOnMessage (fun v => Returns (Some v)) (fun v => Returns (Some v))
          {| type := TEST_CRASH; payload := 0 |}))
    (snd (runTask dispatch {| type := TEST_CRASH; payload := 0 |}
            (after 1 (Some 50) [])))
  = Some (replaced_state (after 1 (Some 50) [])
            {| type := TEST_CRASH; payload := 0 |} 0 [] (ExitError 1)).
Proof.
  assert (R : Reachable 1 (Some 50) (after 1 (Some 50) [])).
  { exists []. vm_compute. reflexivity. }
  assert (E : isClosing (after 1 (Some 50) []) = false) by (vm_compute; reflexivity).
  assert (I : idleWorkers (after 1 (Some 50) []) = [0]) by (vm_compute; reflexivity).
  destruct (crash_task_replaces_worker (fun v => Returns (Some v))
              (fun v => Returns (Some v)) 1 (Some 50) _
              {| type := TEST_CRASH; payload := 0 |} 0 [] R E I eq_refl)
    as (H & _).
  exact H.
Defined.

(** X5: An exception thrown outside of the [try] block, end to end. For a
    [__TEST_UNCAUGHT_ERROR__] task the worker code sets a timer whose callback
    throws, so the main thread sees an 'error' and then an 'exit' with code 1.
    After both, the promise of the task is rejected with the error of the
    'error' event, exactly one new worker has been created for the two
    events, the marks of timed-out and errored workers are what they were,
    and the statistics are those of before the submission. *)
Theorem uncaught_error_task_replaces_worker_once
    JSON_parse JSON_stringify n tmo p t w idle :
  Reachable n tmo p -> isClosing p = false -> idleWorkers p = w :: idle ->
  type t = TEST_UNCAUGHT_ERROR ->
  run dispatch (workerEvents w (workerOnMessage JSON_parse JSON_stringify t))
    (snd (runTask dispatch t p))
  = Some (replaced_state p t w idle (WorkerError "Uncaught worker error"))
  /\ nextWorker (replaced_state p t w idle (WorkerError "Uncaught worker error"))
     = S (nextWorker p)
  /\ stats (replaced_state p t w idle (WorkerError "Uncaught worker error"))
     = stats p.
Proof.
  intros Hr Hc Hi Ht.
  assert (Ev : workerEvents w (workerOnMessage JSON_parse JSON_stringify t)
               = [On_error w "Uncaught worker error"; On_exit w 1%Z]).
  { unfold workerOnMessage, tryBlock. now rewrite Ht. }
  rewrite Ev.
  rewrite (faulted_state n tmo p t w idle _ 1%Z Hr Hc Hi).
  split; [reflexivity|]. split; [reflexivity|].
  exact (replaced_stats n tmo p t w idle _ Hr Hi).
Qed.

Lemma uncaught_error_task_replaces_worker_once_witness :
  run dispatch
    (workerEvents 0
       (workerOnMessage (fun v => Returns (Some v)) (fun v => Returns (Some v))
          {| type := TEST_UNCAUGHT_ERROR; payload := 0 |}))
    (snd (runTask dispatch {| type := TEST_UNCAUGHT_ERROR; payload := 0 |}
            (after 2 None [])))
  = Some (replaced_state (after 2 None [])
            {| type := TEST_UNCAUGHT_ERROR; payload := 0 |} 0 [1]
            (WorkerError "Uncaught worker error")).
Proof.
  assert (R : Reachable 2 None (after 2 None [])).
  { exists []. vm_compute. reflexivity. }
  assert (E : isClosing (after 2 None []) = false) by (vm_compute; reflexivity).
  assert (I : idleWorkers (after 2 None []) = [0; 1]) by (vm_compute; reflexivity).
  destruct (uncaught_error_task_replaces_worker_once (fun v => Returns (Some v))
              (fun v => Returns (Some v)) 2 None _
              {| type := TEST_UNCAUGHT_ERROR; payload := 0 |} 0 [1] R E I eq_refl)
    as (H & _).
  exact H.
Defined.

(** X6: A task that is never answered, end to end. For a [__TEST_HANG__] task
    the worker code returns without posting anything: no event comes from the
    worker. In a pool with a timeout, the timer set at dispatch is pending;
    when its callback runs and the terminated worker then exits, with
    whatever code, the promise of the task is rejected with the timeout
    error, [terminate] has been called once on the worker, one new worker
    has taken its place, the mark of the timed-out worker is gone again and
    the statistics are those of before the submission. *)
Theorem hung_task_times_out JSON_parse JSON_stringify n tmo p t w idle ms code :
  Reachable n tmo p -> isClosing p = false -> idleWorkers p = w :: idle ->
  type t = TEST_HANG -> taskTimeoutMs p = Some ms ->
  workerEvents w (workerOnMessage JSON_parse JSON_stringify t) = []
  /\ pendingTimer (nextTimeout p) (snd (runTask dispatch t p))
     = Some (w, nextHandle p)
  /\ run dispatch [On_timeout (nextTimeout p); On_exit w code]
       (snd (runTask dispatch t p))
     = Some (set_terminated (terminated p ++ [w])
               (replaced_state p t w idle TimedOut))
  /\ stats (set_terminated (terminated p ++ [w])
              (replaced_state p t w idle TimedOut)) = stats p.
Proof.
  intros Hr Hc Hi Ht Hms.
  split.
  { unfold workerOnMessage, tryBlock. now rewrite Ht. }
  destruct (timed_out_state n tmo p t w idle ms code Hr Hc Hi Hms) as [Hp E].
  split; [exact Hp|]. split; [exact E|].
  exact (replaced_stats n tmo p t w idle TimedOut Hr Hi).
Qed.

Lemma hung_task_times_out_witness :
  run dispatch [On_timeout (nextTimeout (after 1 (Some 50) [])); On_exit 0 1%Z]
    (snd (runTask dispatch {| type := TEST_HANG; payload := 0 |}
            (after 1 (Some 50) [])))
  = Some (set_terminated (terminated (after 1 (Some 50) []) ++ [0])
            (replaced_state (after 1 (Some 50) [])
               {| type := TEST_HANG; payload := 0 |} 0 [] TimedOut)).
Proof.
  assert (R : Reachable 1 (Some 50) (after 1 (Some 50) [])).
  { exists []. vm_compute. reflexivity. }
  assert (E : isClosing (after 1 (Some 50) []) = false) by (vm_compute; reflexivity).
  assert (I : idleWorkers (after 1 (Some 50) []) = [0]) by (vm_compute; reflexivity).
  assert (T : taskTimeoutMs (after 1 (Some 50) []) = Some 50)
    by (vm_compute; reflexivity).
  destruct (hung_task_times_out (fun v => Returns (Some v))
              (fun v => Returns (Some v)) 1 (Some 50) _
              {| type := TEST_HANG; payload := 0 |} 0 [] 50 1%Z R E I eq_refl T)
    as (_ & _ & H & _).
  exact H.
Defined.

(** ** Two tasks in a row *)

(** X7: A value sent through the pool and back. In a running pool with an idle
    worker, [stringify] of a value is answered by the worker code, then
    [parse] of the string it gave is submitted and answered, by the worker
    that is now first in the idle list. If [JSON.parse] inverts
    [JSON.stringify] on that value, the second promise is resolved with the
    value that was given to the first call: the pool hands payloads and
    results over unchanged, and leaves the statistics as they were. *)
Theorem stringify_then_parse_round_trip
    JSON_parse JSON_stringify n tmo p v s w idle :
  Reachable n tmo p -> isClosing p = false -> idleWorkers p = w :: idle ->
  JSON_stringify v = Returns (Some s) -> JSON_parse s = Returns (Some v) ->
  exists q1 q2,
    run dispatch
      (workerEvents w
         (workerOnMessage JSON_parse JSON_stringify
            {| type := stringify; payload := v |}))
      (snd (stringify_ dispatch v p)) = Some q1
    /\ run dispatch
         (workerEvents (hd w idle)
            (workerOnMessage JSON_parse JSON_stringify
               {| type := parse; payload := s |}))
         (snd (parse_ dispatch s q1)) = Some q2
    /\ settled q2
       = settled p ++ [(nextHandle p, Resolved (Some s));
                       (S (nextHandle p), Resolved (Some v))]
    /\ idleWorkers q2 = tl (idle ++ [w]) ++ [hd w idle]
    /\ workers q2 = workers p
    /\ stats q2 = stats p.
Proof.
  intros Hr Hc Hi Hs Hp.
  destruct (answered_run JSON_parse JSON_stringify n tmo p
              {| type := stringify; payload := v |} w idle
              (JSON_stringify v) Hr Hc Hi eq_refl)
    as (q1 & R1 & Hr1 & Hc1 & Hh1 & S1 & I1 & W1 & _ & _ & _ & _ & _ & _ & St1).
  assert (I1' : idleWorkers q1 = hd w idle :: tl (idle ++ [w])).
  { rewrite I1. destruct idle; reflexivity. }
  destruct (answered_run JSON_parse JSON_stringify n tmo q1
              {| type := parse; payload := s |} (hd w idle) (tl (idle ++ [w]))
              (JSON_parse s) Hr1 Hc1 I1' eq_refl)
    as (q2 & R2 & _ & _ & _ & S2 & I2 & W2 & _ & _ & _ & _ & _ & _ & St2).
  exists q1, q2. split; [exact R1|]. split; [exact R2|].
  rewrite S2, S1, Hh1, Hs, Hp, <- app_assoc, I2, W2, W1, St2, St1.
  repeat split.
Qed.

Lemma stringify_then_parse_round_trip_witness :
  exists q1 q2,
    run dispatch
      (workerEvents 0
         (workerOnMessage (fun s => Returns (Some (s - 1)))
            (fun v => Returns (Some (v + 1)))
            {| type := stringify; payload := 7 |}))
      (snd (stringify_ dispatch 7 (after 1 (Some 50) []))) = Some q1
    /\ run dispatch
         (workerEvents 0
            (workerOnMessage (fun s => Returns (Some (s - 1)))
               (fun v => Returns (Some (v + 1)))
               {| type := parse; payload := 8 |}))
         (snd (parse_ dispatch 8 q1)) = Some q2
    /\ settled q2 = [(0, Resolved (Some 8)); (1, Resolved (Some 7))].
Proof.
  assert (R : Reachable 1 (Some 50) (after 1 (Some 50) [])).
  { exists []. vm_compute. reflexivity. }
  assert (E : isClosing (after 1 (Some 50) []) = false) by (vm_compute; reflexivity).
  assert (I : idleWorkers (after 1 (Some 50) []) = [0]) by (vm_compute; reflexivity).
  destruct (stringify_then_parse_round_trip (fun s => Returns (Some (s - 1)))
              (fun v => Returns (Some (v + 1))) 1 (Some 50) _ 7 8 0 []
              R E I eq_refl eq_refl)
    as (q1 & q2 & H1 & H2 & H3 & _).
  exists q1, q2. split; [exact H1|]. split; [exact H2|exact H3].
Defined.

(** ** Order of service *)

Lemma In_inFlight h p :
  In h (inFlight p) <-> exists w hs, In (w, hs) (workerTaskMap p) /\ handle hs = h.
Proof.
  unfold inFlight. rewrite in_map_iff. split.
  - intros [[w hs] [E Hin]]. now exists w, hs.
  - intros (w & hs & Hin & E). now exists (w, hs).
Qed.

Lemma handles_fresh p h :
  Inv p -> In h (queued p) \/ In h (served p) -> h < nextHandle p.
Proof.
  intros Hinv Hin. pose proof (inv_tally _ Hinv h) as Ht. unfold tally in Ht.
  destruct (Nat.ltb_spec h (nextHandle p)) as [Hlt|Hge]; [exact Hlt|].
  unfold served in Hin. rewrite in_app_iff in Hin. rewrite !occ_In in Hin. lia.
Qed.

Lemma Leaves_refl p : Leaves p p.
Proof. exists []. split; [reflexivity|]. now left. Qed.

Lemma Leaves_trans p q r : Leaves p q -> Leaves q r -> Leaves p r.
Proof.
  intros (f1 & E1 & H1) (f2 & E2 & H2). exists (f1 ++ f2). split.
  - now rewrite E1, E2, app_assoc.
  - intros h Hh. rewrite in_app_iff. destruct (H2 h Hh) as [H|H]; [|tauto].
    destruct (H1 h H); tauto.
Qed.

Lemma Leaves_sub p q :
  taskQueue q = taskQueue p ->
  (forall h, In h (served q) -> In h (served p)) -> Leaves p q.
Proof.
  intros E H. exists []. split; [unfold queued; now rewrite E|]. intros h Hh.
  left. now apply H.
Qed.

Lemma served_sub p q :
  (forall e, In e (workerTaskMap q) -> In e (workerTaskMap p)) ->
  (forall h, In h (settledHandles q) ->
             In h (settledHandles p) \/ In h (inFlight p)) ->
  forall h, In h (served q) -> In h (served p).
Proof.
  intros Hm Hs h. unfold served. rewrite !in_app_iff, !In_inFlight.
  intros [(w & hs & Hin & E)|H].
  - left. exists w, hs. split; [now apply Hm|exact E].
  - destruct (Hs h H) as [H'|H']; [now right|left; now apply In_inFlight].
Qed.

Lemma Leaves_dispatch p : Leaves p (dispatch p).
Proof.
  destruct (dispatch_cases p) as [[_ E]|(i & q & w & l & _ & Hq & _ & E)];
    rewrite E; [apply Leaves_refl|].
  exists [item_handle i]. split.
  - unfold queued. now rewrite Hq.
  - intros h Hh. unfold served in *. rewrite in_app_iff in *.
    destruct Hh as [Hh|Hh]; [|left; now right].
    apply In_inFlight in Hh. destruct Hh as (x & hs & Hin & <-).
    simpl in Hin.
    assert (G : forall m, In (x, hs) (WMap.set w
                 {| handle := item_handle i;
                    timeoutId := if match taskTimeoutMs p with
                                    | Some _ => true | None => false end
                                 then Some (nextTimeout p) else None |} m) ->
                In (x, hs) m \/ handle hs = item_handle i).
    { induction m as [|[y hy] m IH]; simpl.
      - intros [[= <- <-]|[]]. now right.
      - destruct (Nat.eqb y w).
        + intros [[= <- <-]|H]; [now right|left; now right].
        + intros [H|H]; [left; now left|]. destruct (IH H); [left; now right|now right]. }
    destruct (G _ Hin) as [H|H].
    + left. left. apply In_inFlight. now exists x, hs.
    + right. left. now symmetry.
Qed.

Lemma Leaves_spawnWorker p : Leaves p (spawnWorker dispatch p).
Proof.
  rewrite spawnWorker_eq. destruct (isClosing p); [apply Leaves_refl|].
  apply (Leaves_trans _ (spawned p)); [|apply Leaves_dispatch].
  apply Leaves_sub; [reflexivity|]. intros h Hh. exact Hh.
Qed.

Lemma Leaves_finished p w hs o :
  WMap.get w (workerTaskMap p) = Some hs -> Leaves p (finished w hs o p).
Proof.
  intros Hget.
  destruct (finished_frame w hs o p) as (_ & _ & Eq & _ & _ & _ & Em & Es).
  apply Leaves_sub; [exact Eq|]. intros h. unfold served, settledHandles.
  rewrite Es, map_app, !in_app_iff, !In_inFlight, Em. simpl.
  intros [(x & hx & Hin & E)|[H|[<-|[]]]].
  - left. apply delete_In in Hin. now exists x, hx.
  - now right.
  - left. exists w, hs. split; [now apply get_Some_In|reflexivity].
Qed.

Lemma Fifo_Leaves p q : Fifo p -> Leaves p q -> Fifo q.
Proof.
  intros [Hs Hlt] (front & E & H). rewrite E in Hs.
  assert (Hq : StronglySorted lt (queued q) /\
               forall a b, In a front -> In b (queued q) -> a < b).
  { clear E H Hlt. induction front as [|a front IH]; simpl in Hs.
    - split; [exact Hs|]. intros a b [].
    - inversion Hs as [|x l Hl Hall]; subst. destruct (IH Hl) as [I1 I2].
      split; [exact I1|]. intros a' b [<-|Ha] Hb; [|now apply I2].
      rewrite Forall_forall in Hall. apply Hall. rewrite in_app_iff. now right. }
  destruct Hq as [Hq1 Hq2]. split; [exact Hq1|].
  intros h h' Hh Hh'. destruct (H h' Hh') as [Hp|Hf].
  - apply Hlt; [|exact Hp]. rewrite E, in_app_iff. now right.
  - now apply Hq2.
Qed.

Lemma Fifo_enqueued p t : Inv p -> Fifo p -> Fifo (enqueued t p).
Proof.
  intros Hinv [Hs Hlt]. unfold Fifo, queued, served, enqueued, inFlight,
    settledHandles. simpl. rewrite map_app. simpl.
  assert (Hf : forall h, In h (queued p) \/ In h (served p) -> h < nextHandle p)
    by (intros h; apply handles_fresh; exact Hinv).
  split.
  - assert (Hq : forall h, In h (queued p) -> h < nextHandle p) by (intros; auto).
    clear Hlt Hf. unfold queued in *. induction (map item_handle (taskQueue p))
      as [|a l IH]; simpl.
    + repeat constructor.
    + inversion Hs as [|x l' Hl Hall]; subst. constructor.
      * apply IH; [exact Hl|]. intros h Hh. apply Hq. now right.
      * rewrite Forall_forall in *. intros x Hx. rewrite in_app_iff in Hx.
        destruct Hx as [Hx|[<-|[]]]; [now apply Hall|]. apply Hq. now left.
  - intros h h' Hh Hh'. rewrite in_app_iff in Hh. destruct Hh as [Hh|[<-|[]]].
    + now apply Hlt.
    + apply Hf. now right.
Qed.

Lemma Leaves_handle_event p ev :
  Inv p -> enabled p ev = true ->
  match ev with Call_runTask _ => isClosing p = true | _ => True end ->
  Leaves p (handle_event dispatch ev p).
Proof.
  intros Hinv He Hrun. destruct ev as [t| |w m|w err|w code|t]; simpl in *.
  - unfold runTask. rewrite Hrun. apply Leaves_refl.
  - rewrite close_eq. exists (queued p). split.
    + unfold queued. simpl. now rewrite app_nil_r.
    + intros h. unfold served, settledHandles, queued, inFlight. simpl.
      unfold closingRejections. rewrite !map_app, !map_map. simpl.
      rewrite !in_app_iff. tauto.
  - unfold onMessage.
    destruct (WMap.get w (workerTaskMap p)) as [hs|] eqn:Hget; [|apply Leaves_refl].
    eapply Leaves_trans; [|apply Leaves_dispatch].
    eapply Leaves_trans;
      [apply (Leaves_finished p w hs (messageOutcome m) Hget)|].
    apply Leaves_sub.
    + unfold finished, clearTimeout, messageOutcome.
      destruct (status m), (timeoutId hs); reflexivity.
    + unfold finished, clearTimeout, messageOutcome, served, inFlight,
        settledHandles.
      destruct (status m), (timeoutId hs); simpl; auto.
  - unfold onError, replaceWorker.
    eapply Leaves_trans; [|apply Leaves_spawnWorker]. simpl.
    destruct (WMap.get w (workerTaskMap p)) as [hs|] eqn:Hget.
    + eapply Leaves_trans;
        [apply (Leaves_finished p w hs (Rejected (WorkerError err)) Hget)|].
      apply Leaves_sub.
      * unfold finished, clearTimeout. destruct (timeoutId hs); reflexivity.
      * unfold finished, clearTimeout, served, inFlight, settledHandles.
        destruct (timeoutId hs); simpl; auto.
    + apply Leaves_sub; [reflexivity|]. unfold served, inFlight, settledHandles.
      simpl. auto.
  - unfold onExit, replaceWorker. simpl.
    destruct (WeakSet.has w (timedOutWorkers p)), (WeakSet.has w (erroredWorkers p));
      simpl; destruct (code =? 0)%Z, (isClosing p); simpl;
      try (destruct (WMap.get w (workerTaskMap p)) as [hs|] eqn:Hget);
      try (eapply Leaves_trans; [|apply Leaves_spawnWorker]);
      (apply Leaves_sub;
       [ unfold clearTimeout; try destruct (timeoutId hs); reflexivity
       | apply served_sub;
         [ intros e Hin; unfold clearTimeout in Hin;
           try destruct (timeoutId hs); simpl in Hin;
           try apply delete_In in Hin; tauto
         | intros h Hh; unfold settledHandles, clearTimeout in Hh;
           try destruct (timeoutId hs); simpl in Hh;
           try (rewrite map_app, in_app_iff in Hh; simpl in Hh;
                destruct Hh as [Hh|[<-|[]]];
                [ left; exact Hh
                | right; apply In_inFlight; exists w, hs;
                  split; [apply get_Some_In; exact Hget|reflexivity] ]);
           left; exact Hh ] ]).
  - destruct (pendingTimer t p) as [[w h]|] eqn:Hp; [|apply Leaves_refl].
    unfold onTimeout. simpl.
    destruct (WMap.has w (workerTaskMap p)) eqn:Hhas; simpl.
    + apply pendingTimer_In in Hp.
      pose proof (inv_timers _ Hinv t w h Hp) as Hin.
      eapply Leaves_trans; [|apply Leaves_dispatch]. unfold replaceWorker.
      eapply Leaves_trans; [|apply Leaves_spawnWorker].
      apply Leaves_sub; [reflexivity|]. intros x.
      unfold served, inFlight, settledHandles. simpl.
      rewrite map_app, !in_app_iff. simpl.
      intros [Hx|[Hx|[E|[]]]].
      * left. apply in_map_iff in Hx. destruct Hx as [e [Ee He']].
        apply delete_In in He'. apply in_map_iff. exists e. tauto.
      * now right.
      * left. apply in_map_iff.
        exists (w, {| handle := h; timeoutId := Some t |}). split; [exact E|].
        exact Hin.
    + apply Leaves_sub; [reflexivity|]. unfold served, inFlight, settledHandles.
      simpl. auto.
Qed.

Lemma Fifo_handle_event p ev :
  Inv p -> Fifo p -> enabled p ev = true -> Fifo (handle_event dispatch ev p).
Proof.
  intros Hinv Hf He.
  destruct ev as [t| | | | |];
    try (apply (Fifo_Leaves p); [exact Hf|];
         apply Leaves_handle_event; [exact Hinv|exact He|exact I]).
  destruct (isClosing p) eqn:Hc.
  - apply (Fifo_Leaves p); [exact Hf|].
    apply Leaves_handle_event; [exact Hinv|exact He|exact Hc].
  - simpl. unfold runTask. rewrite Hc. simpl.
    apply (Fifo_Leaves (enqueued t p)); [|apply Leaves_dispatch].
    now apply Fifo_enqueued.
Qed.

Lemma Fifo_run evs : forall p p',
  Inv p -> Fifo p -> run dispatch evs p = Some p' -> Fifo p'.
Proof.
  induction evs as [|ev evs IH]; simpl; intros p p' Hi Hf Hr.
  - now injection Hr as <-.
  - destruct (enabled p ev) eqn:He; [|discriminate].
    eapply IH; [| |eassumption].
    + now apply Inv_handle_event.
    + now apply Fifo_handle_event.
Qed.

(** X8: First come, first served. Handles are numbered in the order of
    submission. In every state that a pool reaches, the queue holds its
    handles in that order, and every handle that has left the queue (to a
    worker, or to be settled) was submitted before every handle that still
    waits: no task overtakes an earlier one on its way out of the queue. *)
Theorem no_task_overtakes n tmo p :
  Reachable n tmo p ->
  StronglySorted lt (queued p)
  /\ (forall h h', In h (queued p) ->
        In h' (inFlight p) \/ In h' (settledHandles p) -> h' < h)
  /\ (forall h, In h (queued p) -> h < nextHandle p).
Proof.
  intros Hr. pose proof (Inv_Reachable _ _ _ Hr) as Hinv.
  destruct Hr as [evs Hr].
  assert (Hf : Fifo p).
  { apply (Fifo_run evs (new dispatch n tmo) p); [apply Inv_new| |exact Hr].
    destruct (initWorkers_empty_queue n
                (mkAsyncJson n tmo [] [] [] [] false [] [] [] 0 0 0 [] [] [] [])
                eq_refl eq_refl) as (_ & _ & _ & _ & E & _).
    unfold Fifo, queued, new. rewrite E. simpl. split; [constructor|].
    intros h h' []. }
  destruct Hf as [H1 H2]. split; [exact H1|]. split.
  - intros h h' Hh Hh'. apply (H2 h h' Hh). unfold served.
    now rewrite in_app_iff.
  - intros h Hh. apply handles_fresh; [exact Hinv|now left].
Qed.

Lemma no_task_overtakes_witness :
  StronglySorted lt
    (queued (after 1 None [Call_runTask aTask; Call_runTask aTask;
                           Call_runTask aTask])).
Proof.
  assert (R : Reachable 1 None
                (after 1 None [Call_runTask aTask; Call_runTask aTask;
                               Call_runTask aTask])).
  { exists [Call_runTask aTask; Call_runTask aTask; Call_runTask aTask].
    vm_compute. reflexivity. }
  destruct (no_task_overtakes 1 None _ R) as [H _]. exact H.
Defined.

(** ** Order of posting *)

Lemma Hands_refl p : Hands p p.
Proof. repeat split. Qed.

Lemma Hands_trans p q r : Hands p q -> Hands q r -> Hands p r.
Proof.
  intros (A1 & A2 & A3) (B1 & B2 & B3). repeat split; congruence.
Qed.

Lemma Hands_sub p q :
  posted q = posted p -> taskQueue q = taskQueue p ->
  nextHandle q = nextHandle p -> isClosing q = isClosing p -> Hands p q.
Proof.
  intros E1 E2 E3 E4. unfold Hands, tasksOf. rewrite E1, E2. repeat split; assumption.
Qed.

Lemma Hands_dispatch p : Hands p (dispatch p).
Proof.
  destruct (dispatch_cases p) as [[_ E]|(i & q & w & l & _ & Hq & _ & E)];
    rewrite E; [apply Hands_refl|].
  unfold Hands, tasksOf. simpl. rewrite Hq, map_app, <- app_assoc. simpl.
  repeat split.
Qed.

Lemma Hands_spawnWorker p : Hands p (spawnWorker dispatch p).
Proof.
  rewrite spawnWorker_eq. destruct (isClosing p); [apply Hands_refl|].
  apply (Hands_trans _ (spawned p)); [|apply Hands_dispatch].
  apply Hands_sub; reflexivity.
Qed.

Lemma Hands_handle_event p ev :
  match ev with
  | Call_runTask _ => isClosing p = true
  | Call_close => False
  | _ => True
  end ->
  Hands p (handle_event dispatch ev p).
Proof.
  intros Hev. destruct ev as [t| |w m|w err|w code|t]; simpl in *.
  - unfold runTask. rewrite Hev. apply Hands_refl.
  - contradiction.
  - unfold onMessage.
    destruct (WMap.get w (workerTaskMap p)) as [hs|]; [|apply Hands_refl].
    eapply Hands_trans; [|apply Hands_dispatch].
    apply Hands_sub; unfold clearTimeout;
      destruct (status m), (timeoutId hs); reflexivity.
  - unfold onError, replaceWorker.
    eapply Hands_trans; [|apply Hands_spawnWorker]. simpl.
    destruct (WMap.get w (workerTaskMap p)) as [hs|];
      apply Hands_sub; unfold clearTimeout; try destruct (timeoutId hs);
      reflexivity.
  - unfold onExit, replaceWorker. simpl.
    destruct (WeakSet.has w (timedOutWorkers p)), (WeakSet.has w (erroredWorkers p));
      simpl; destruct (code =? 0)%Z, (isClosing p); simpl;
      try (destruct (WMap.get w (workerTaskMap p)) as [hs|]);
      try (eapply Hands_trans; [|apply Hands_spawnWorker]);
      apply Hands_sub; unfold clearTimeout; try destruct (timeoutId hs);
      reflexivity.
  - destruct (pendingTimer t p) as [[w h]|]; [|apply Hands_refl].
    unfold onTimeout. simpl.
    destruct (WMap.has w (workerTaskMap p)); simpl.
    + eapply Hands_trans; [|apply Hands_dispatch]. unfold replaceWorker.
      eapply Hands_trans; [|apply Hands_spawnWorker].
      apply Hands_sub; reflexivity.
    + apply Hands_sub; reflexivity.
Qed.

Lemma submitted_handle_event p ev :
  isClosing (handle_event dispatch ev p) = false ->
  tasksOf (handle_event dispatch ev p) = tasksOf p ++ submitted [ev]
  /\ nextHandle (handle_event dispatch ev p)
     = nextHandle p + length (submitted [ev])
  /\ isClosing p = false.
Proof.
  intros Hq.
  assert (G : match ev with Call_runTask _ | Call_close => False | _ => True end ->
              tasksOf (handle_event dispatch ev p) = tasksOf p ++ submitted [ev]
              /\ nextHandle (handle_event dispatch ev p)
                 = nextHandle p + length (submitted [ev])
              /\ isClosing p = false).
  { intros Hev.
    assert (Hh : Hands p (handle_event dispatch ev p)).
    { apply Hands_handle_event. destruct ev; tauto. }
    destruct Hh as (H1 & H2 & H3).
    rewrite H1, H2, <- H3. destruct ev; simpl; try tauto;
      rewrite app_nil_r, Nat.add_0_r; repeat split; exact Hq. }
  destruct ev as [t| | | | |]; try (apply G; exact I).
  - simpl in *. unfold runTask in *. destruct (isClosing p) eqn:Hc.
    + simpl in Hq. congruence.
    + simpl. destruct (Hands_dispatch (enqueued t p)) as (H1 & H2 & _).
      change (dispatch _) with (dispatch (enqueued t p)).
      rewrite H1, H2. unfold tasksOf, enqueued. simpl.
      rewrite map_app, app_assoc. simpl. repeat split. lia.
  - simpl in Hq. rewrite close_eq in Hq. discriminate.
Qed.

Lemma submitted_cons ev evs :
  submitted (ev :: evs) = submitted [ev] ++ submitted evs.
Proof. unfold submitted. simpl. now rewrite app_nil_r. Qed.

Lemma submitted_run evs : forall p p',
  run dispatch evs p = Some p' -> isClosing p' = false ->
  tasksOf p' = tasksOf p ++ submitted evs
  /\ nextHandle p' = nextHandle p + length (submitted evs).
Proof.
  induction evs as [|ev evs IH]; intros p p' Hr Hc.
  - simpl in *. injection Hr as <-. now rewrite app_nil_r, Nat.add_0_r.
  - simpl in Hr. destruct (enabled p ev); [|discriminate].
    assert (Hq : isClosing (handle_event dispatch ev p) = false).
    { destruct (isClosing (handle_event dispatch ev p)) eqn:E; [|reflexivity].
      destruct (closing_run evs _ _ E Hr) as [H _]. congruence. }
    destruct (IH _ _ Hr Hc) as [I1 I2].
    destruct (submitted_handle_event p ev Hq) as (S1 & S2 & _).
    rewrite (submitted_cons ev evs), I1, I2, S1, S2, length_app, <- app_assoc.
    split; [reflexivity|lia].
Qed.

(** X9: Tasks are posted in the order of submission. A pool that has not been
    closed has posted to its workers, one [postMessage] each and in the
    order of the calls of [runTask], the tasks it was given, up to those
    that still wait in the queue in the same order; and it has allotted as
    many handles as it was given tasks. *)
Theorem tasks_posted_in_submission_order n tmo evs p :
  run dispatch evs (new dispatch n tmo) = Some p -> isClosing p = false ->
  map snd (posted p) ++ map task (taskQueue p) = submitted evs
  /\ nextHandle p = length (submitted evs)
  /\ length (posted p) + length (taskQueue p) = nextHandle p.
Proof.
  intros Hr Hc. destruct (submitted_run evs _ _ Hr Hc) as [H1 H2].
  destruct (initWorkers_empty_queue n
              (mkAsyncJson n tmo [] [] [] [] false [] [] [] 0 0 0 [] [] [] [])
              eq_refl eq_refl)
    as (_ & _ & _ & _ & Eq & _ & _ & _ & Ep & _).
  assert (G : forall k q, nextHandle (initWorkers dispatch k q) = nextHandle q).
  { induction k as [|k IH]; intros q; simpl; [reflexivity|].
    rewrite IH. destruct (spawnWorker_frame q) as (_ & _ & _ & _ & _ & F & _).
    exact F. }
  unfold tasksOf in H1. unfold new in H1, H2. rewrite Eq, Ep in H1.
  rewrite G in H2. simpl in H1, H2.
  split; [exact H1|]. split; [exact H2|].
  rewrite H2, <- H1, length_app, !length_map. reflexivity.
Qed.

Lemma tasks_posted_in_submission_order_witness :
  map snd (posted (after 1 None [Call_runTask aTask; Call_runTask aTask]))
  ++ map task (taskQueue (after 1 None [Call_runTask aTask; Call_runTask aTask]))
  = [aTask; aTask].
Proof.
  assert (R : run dispatch [Call_runTask aTask; Call_runTask aTask]
                (new dispatch 1 None)
              = Some (after 1 None [Call_runTask aTask; Call_runTask aTask]))
    by (vm_compute; reflexivity).
  assert (E : isClosing (after 1 None [Call_runTask aTask; Call_runTask aTask])
              = false) by (vm_compute; reflexivity).
  destruct (tasks_posted_in_submission_order 1 None _ _ R E) as [H _]. exact H.
Defined.

(** ** Pools without a timeout *)

Lemma set_In w h m e : In e (WMap.set w h m) -> In e m \/ e = (w, h).
Proof.
  induction m as [|[y hy] m IH]; simpl.
  - intros [<-|[]]. now right.
  - destruct (Nat.eqb_spec y w) as [->|Hne].
    + intros [<-|H]; [now right|left; now right].
    + intros [H|H]; [left; now left|].
      destruct (IH H) as [H'|H']; [left; now right|now right].
Qed.

Lemma NoDeadline_sub p q :
  NoDeadline p ->
  taskTimeoutMs q = taskTimeoutMs p ->
  timers q = timers p ->
  timedOutWorkers q = timedOutWorkers p ->
  (forall e, In e (workerTaskMap q) -> In e (workerTaskMap p)) ->
  (forall h, In (h, Rejected TimedOut) (settled q) ->
             In (h, Rejected TimedOut) (settled p)) ->
  NoDeadline q.
Proof.
  intros (H1 & H2 & H3 & H4 & H5) E1 E2 E3 Hm Hs.
  unfold NoDeadline. rewrite E1, E2, E3. repeat split; try assumption.
  - intros h Hh. apply (H4 h). now apply Hs.
  - intros w hs Hin. apply (H5 w hs). now apply Hm.
Qed.

Lemma NoDeadline_dispatch p : NoDeadline p -> NoDeadline (dispatch p).
Proof.
  intros Hn.
  destruct (dispatch_cases p) as [[_ E]|(i & q & w & l & _ & _ & _ & E)];
    rewrite E; [exact Hn|].
  destruct Hn as (H1 & H2 & H3 & H4 & H5).
  unfold NoDeadline, assigned. simpl. rewrite H1. repeat split; try assumption.
  intros x hs Hin. apply set_In in Hin. destruct Hin as [Hin|[= _ ->]].
  - now apply (H5 x hs).
  - reflexivity.
Qed.

Lemma NoDeadline_spawnWorker p :
  NoDeadline p -> NoDeadline (spawnWorker dispatch p).
Proof.
  intros Hn. rewrite spawnWorker_eq. destruct (isClosing p); [exact Hn|].
  apply NoDeadline_dispatch. apply (NoDeadline_sub p); auto.
Qed.

Lemma NoDeadline_finished p w hs o :
  NoDeadline p -> o <> Rejected TimedOut -> NoDeadline (finished w hs o p).
Proof.
  intros Hn Ho. pose proof Hn as (H1 & H2 & H3 & H4 & H5).
  destruct (finished_frame w hs o p) as (_ & _ & _ & _ & _ & _ & Em & Es).
  unfold NoDeadline. rewrite Em, Es.
  assert (Et : timers (finished w hs o p) = []).
  { unfold finished, clearTimeout. destruct (timeoutId hs); simpl; rewrite H2;
      reflexivity. }
  assert (Eo : taskTimeoutMs (finished w hs o p) = None).
  { unfold finished, clearTimeout. destruct (timeoutId hs); simpl; exact H1. }
  assert (Ew : timedOutWorkers (finished w hs o p) = []).
  { unfold finished, clearTimeout. destruct (timeoutId hs); simpl; exact H3. }
  repeat split; try assumption.
  - intros h Hh. apply in_app_iff in Hh. destruct Hh as [Hh|[[= _ E]|[]]].
    + now apply (H4 h).
    + now apply Ho.
  - intros x hx Hin. apply delete_In in Hin. apply (H5 x hx). tauto.
Qed.

Lemma NoDeadline_handle_event p ev :
  NoDeadline p -> NoDeadline (handle_event dispatch ev p).
Proof.
  intros Hn. pose proof Hn as (H1 & H2 & H3 & H4 & H5).
  destruct ev as [t| |w m|w err|w code|t]; simpl.
  - unfold runTask. destruct (isClosing p); simpl; [exact Hn|].
    apply NoDeadline_dispatch. apply (NoDeadline_sub p); auto.
  - rewrite close_eq. unfold NoDeadline, closed. simpl. rewrite H2.
    repeat split; try assumption.
    + intros h Hh. apply in_app_iff in Hh. destruct Hh as [Hh|Hh]; [now apply (H4 h)|].
      unfold closingRejections in Hh. apply in_app_iff in Hh.
      destruct Hh as [Hh|Hh]; apply in_map_iff in Hh;
        destruct Hh as [x [E _]]; discriminate.
    + intros w hs [].
  - unfold onMessage.
    destruct (WMap.get w (workerTaskMap p)) as [hs|] eqn:Hget; [|exact Hn].
    apply NoDeadline_dispatch.
    apply (NoDeadline_sub (finished w hs (messageOutcome m) p)).
    + apply NoDeadline_finished; [exact Hn|].
      unfold messageOutcome. destruct (status m); discriminate.
    + unfold finished, clearTimeout, messageOutcome.
      destruct (status m), (timeoutId hs); reflexivity.
    + unfold finished, clearTimeout, messageOutcome.
      destruct (status m), (timeoutId hs); reflexivity.
    + unfold finished, clearTimeout, messageOutcome.
      destruct (status m), (timeoutId hs); reflexivity.
    + unfold finished, clearTimeout, messageOutcome.
      destruct (status m), (timeoutId hs); simpl; auto.
    + unfold finished, clearTimeout, messageOutcome.
      destruct (status m), (timeoutId hs); simpl; auto.
  - unfold onError, replaceWorker. apply NoDeadline_spawnWorker. simpl.
    destruct (WMap.get w (workerTaskMap p)) as [hs|] eqn:Hget.
    + apply (NoDeadline_sub (finished w hs (Rejected (WorkerError err)) p));
        [apply NoDeadline_finished; [exact Hn|discriminate]| | | | |];
        unfold finished, clearTimeout; destruct (timeoutId hs); simpl; auto.
    + apply (NoDeadline_sub p); auto.
  - unfold onExit, replaceWorker. simpl. rewrite H3. simpl.
    destruct (WeakSet.has w (erroredWorkers p));
      simpl; destruct (code =? 0)%Z, (isClosing p); simpl;
      try (destruct (WMap.get w (workerTaskMap p)) as [hs|] eqn:Hget);
      try apply NoDeadline_spawnWorker;
      first
        [ apply (NoDeadline_sub p); [exact Hn|reflexivity..| |]; simpl; now auto
        | apply (NoDeadline_sub (finished w hs (Rejected (ExitError code)) p));
          [apply NoDeadline_finished; [exact Hn|discriminate]| | | | |];
          unfold finished, clearTimeout; destruct (timeoutId hs); simpl; auto ].
  - unfold pendingTimer. rewrite H2. simpl. exact Hn.
Qed.

Lemma NoDeadline_run evs : forall p p',
  NoDeadline p -> run dispatch evs p = Some p' ->
  NoDeadline p' /\ forall t, ~ In (On_timeout t) evs.
Proof.
  induction evs as [|ev evs IH]; simpl; intros p p' Hn Hr.
  - injection Hr as <-. split; [exact Hn|]. intros t [].
  - destruct (enabled p ev) eqn:He; [|discriminate].
    destruct (IH _ _ (NoDeadline_handle_event p ev Hn) Hr) as (I1 & I3).
    split; [exact I1|]. intros t [->|Hin]; [|now apply (I3 t)].
    simpl in He. unfold pendingTimer in He. destruct Hn as (_ & H2 & _).
    rewrite H2 in He. discriminate.
Qed.

Lemma NoDeadline_new n : NoDeadline (new dispatch n None).
Proof.
  unfold new.
  assert (G : forall k q, NoDeadline q -> NoDeadline (initWorkers dispatch k q)).
  { induction k as [|k IH]; intros q Hq; simpl; [exact Hq|].
    apply IH. now apply NoDeadline_spawnWorker. }
  apply G. unfold NoDeadline. simpl. repeat split; auto.
  intros w hs [].
Qed.

(** X10: A pool made with [taskTimeoutMs: undefined] has no deadlines. Whatever
    the events, such a pool never sets a timer, so no deadline can elapse;
    it never rejects a promise with the timeout error, never marks a worker
    as timed out, and no assignment of its map carries a [timeoutId]. *)
Theorem no_timeout_no_deadline n evs p :
  run dispatch evs (new dispatch n None) = Some p ->
  taskTimeoutMs p = None
  /\ timers p = []
  /\ (forall t, enabled p (On_timeout t) = false)
  /\ (forall t, ~ In (On_timeout t) evs)
  /\ timedOutWorkers p = []
  /\ (forall h, ~ In (h, Rejected TimedOut) (settled p))
  /\ (forall w hs, WMap.get w (workerTaskMap p) = Some hs -> timeoutId hs = None).
Proof.
  intros Hr.
  destruct (NoDeadline_run evs _ _ (NoDeadline_new n) Hr)
    as ((H1 & H2 & H3 & H4 & H5) & Hev).
  repeat split; try assumption.
  - intros t. simpl. unfold pendingTimer. now rewrite H2.
  - intros w hs Hget. apply (H5 w hs). now apply get_Some_In.
Qed.

Lemma no_timeout_no_deadline_witness :
  timers (after 1 None [Call_runTask aTask]) = [].
Proof.
  assert (R : run dispatch [Call_runTask aTask] (new dispatch 1 None)
              = Some (after 1 None [Call_runTask aTask]))
    by (vm_compute; reflexivity).
  destruct (no_timeout_no_deadline 1 _ _ R) as (_ & H & _). exact H.
Defined.

(** ** Events of other workers *)

Lemma get_delete_other w x m :
  x <> w -> WMap.get w (WMap.delete x m) = WMap.get w m.
Proof.
  intros Hne. unfold WMap.delete. induction m as [|[y hy] m IH]; simpl; [reflexivity|].
  destruct (Nat.eqb_spec y x) as [->|Hyx]; simpl.
  - destruct (Nat.eqb_spec x w); [contradiction|]. exact IH.
  - destruct (Nat.eqb y w); [reflexivity|exact IH].
Qed.

Lemma Undisturbed_refl w p : Undisturbed w p p.
Proof. repeat split; auto. Qed.

Lemma Undisturbed_trans w p q r :
  Undisturbed w p q -> Undisturbed w q r -> Undisturbed w p r.
Proof.
  intros (A1 & A2 & A3 & A4) (B1 & B2 & B3 & B4).
  repeat split; [congruence|auto|auto|lia].
Qed.

Lemma Undisturbed_Free w p q : Free w p -> Undisturbed w p q -> Free w q.
Proof. intros [F1 F2] (_ & A2 & _ & A4). split; [auto|lia]. Qed.

Lemma Undisturbed_step w p q r :
  Free w p -> Undisturbed w p q -> (Free w q -> Undisturbed w q r) ->
  Undisturbed w p r.
Proof.
  intros F H1 H2. apply (Undisturbed_trans w p q r H1). apply H2.
  now apply (Undisturbed_Free w p q).
Qed.

Lemma Undisturbed_dispatch w p : Free w p -> Undisturbed w p (dispatch p).
Proof.
  intros [F1 F2].
  destruct (dispatch_cases p) as [[_ E]|(i & q & x & l & _ & _ & Hi & E)];
    rewrite E; [apply Undisturbed_refl|].
  assert (Hne : w <> x). { intros ->. apply F1. rewrite Hi. now left. }
  repeat split; simpl.
  - now apply get_set_other.
  - intros H. rewrite Hi. now right.
  - auto.
  - lia.
Qed.

Lemma Undisturbed_spawnWorker w p :
  Free w p -> Undisturbed w p (spawnWorker dispatch p).
Proof.
  intros F. rewrite spawnWorker_eq. destruct (isClosing p); [apply Undisturbed_refl|].
  apply (Undisturbed_step w p (spawned p)); [exact F| |apply Undisturbed_dispatch].
  destruct F as [F1 F2]. repeat split; simpl.
  - intros H. apply in_app_iff in H. destruct H as [H|[H|[]]]; [exact H|lia].
  - intros H. apply in_app_iff. now left.
  - lia.
Qed.

Lemma Undisturbed_removed w x p q :
  x <> w ->
  WMap.get w (workerTaskMap q) = WMap.get w (workerTaskMap p)
  \/ workerTaskMap q = WMap.delete x (workerTaskMap p) ->
  idleWorkers q = idleWorkers p -> workers q = workers p ->
  nextWorker q = nextWorker p ->
  Undisturbed w p (removeWorker x q).
Proof.
  intros Hne Hm Ei Ew En. repeat split; simpl.
  - destruct Hm as [Hm|Hm]; [exact Hm|]. rewrite Hm. now apply get_delete_other.
  - rewrite Ei. intros H. apply without_In in H. tauto.
  - rewrite Ew. intros H. apply without_In. split; [exact H|]. intros ->. now apply Hne.
  - lia.
Qed.

Lemma Undisturbed_handle_event w p ev :
  Free w p -> spares w p ev = true ->
  Undisturbed w p (handle_event dispatch ev p).
Proof.
  intros F Hs. destruct ev as [t| |x m|x err|x code|t]; simpl in *;
    try discriminate.
  - unfold runTask. destruct (isClosing p); simpl; [apply Undisturbed_refl|].
    apply (Undisturbed_step w p (enqueued t p));
      [exact F|repeat split; auto|apply Undisturbed_dispatch].
  - apply negb_true_iff, Nat.eqb_neq in Hs. unfold onMessage.
    destruct (WMap.get x (workerTaskMap p)) as [hs|]; [|apply Undisturbed_refl].
    eapply (Undisturbed_step w p); [exact F| |apply Undisturbed_dispatch].
    unfold clearTimeout. destruct (status m), (timeoutId hs); repeat split; simpl;
      try (now apply get_delete_other); try lia; auto;
      intros H; apply in_app_iff in H; destruct H as [H|[H|[]]]; congruence.
  - apply negb_true_iff, Nat.eqb_neq in Hs. unfold onError, replaceWorker.
    eapply (Undisturbed_step w p); [exact F| |apply Undisturbed_spawnWorker].
    simpl. destruct (WMap.get x (workerTaskMap p)) as [hs|];
      apply Undisturbed_removed; try exact Hs;
      unfold clearTimeout; try destruct (timeoutId hs); simpl; auto.
  - apply negb_true_iff, Nat.eqb_neq in Hs. unfold onExit, replaceWorker. simpl.
    destruct (WeakSet.has x (timedOutWorkers p)), (WeakSet.has x (erroredWorkers p));
      simpl; destruct (code =? 0)%Z, (isClosing p); simpl;
      try (destruct (WMap.get x (workerTaskMap p)) as [hs|]);
      try (eapply (Undisturbed_step w p); [exact F| |apply Undisturbed_spawnWorker]);
      apply Undisturbed_removed; try exact Hs;
      unfold clearTimeout; try destruct (timeoutId hs); simpl; auto.
  - destruct (pendingTimer t p) as [[x h]|]; [|apply Undisturbed_refl].
    apply negb_true_iff, Nat.eqb_neq in Hs. unfold onTimeout. simpl.
    destruct (WMap.has x (workerTaskMap p)); simpl.
    + eapply (Undisturbed_step w p); [exact F| |apply Undisturbed_dispatch].
      unfold replaceWorker.
      eapply (Undisturbed_step w p); [exact F| |apply Undisturbed_spawnWorker].
      apply Undisturbed_removed; simpl; auto.
    + repeat split; auto.
Qed.

Lemma busy_Free p w hs :
  Inv p -> WMap.get w (workerTaskMap p) = Some hs -> Free w p.
Proof.
  intros Hinv Hget. pose proof (get_Some_keys _ _ _ Hget) as Hk. split.
  - intros Hin. now apply (inv_idle_unassigned _ Hinv w Hin).
  - now apply (inv_map_fresh _ Hinv).
Qed.

Lemma busy_unsettled p w hs :
  Inv p -> WMap.get w (workerTaskMap p) = Some hs ->
  settlements p (handle hs) = 0.
Proof.
  intros Hinv Hget. pose proof (inv_tally _ Hinv (handle hs)) as Ht.
  assert (Hin : In (handle hs) (inFlight p)).
  { apply In_inFlight. exists w, hs. split; [now apply get_Some_In|reflexivity]. }
  apply occ_In in Hin. unfold tally, settlements in *.
  destruct (handle hs <? nextHandle p); lia.
Qed.

Lemma undisturbed_run w hs evs : forall p p',
  Inv p -> WMap.get w (workerTaskMap p) = Some hs ->
  run_sparing w evs p = Some p' ->
  run dispatch evs p = Some p'
  /\ WMap.get w (workerTaskMap p') = Some hs
  /\ (In w (workers p) -> In w (workers p')).
Proof.
  induction evs as [|ev evs IH]; simpl; intros p p' Hinv Hget Hr.
  - injection Hr as <-. auto.
  - destruct (enabled p ev) eqn:He; [|discriminate].
    destruct (spares w p ev) eqn:Hs; [|discriminate]. simpl in Hr.
    destruct (Undisturbed_handle_event w p ev (busy_Free p w hs Hinv Hget) Hs)
      as (U1 & _ & U3 & _).
    rewrite Hget in U1.
    destruct (IH _ _ (Inv_handle_event p ev Hinv He) U1 Hr) as (I1 & I2 & I3).
    auto.
Qed.

(** X11: A busy worker and the events of the others. While the pool is not
    closed, events that are not events of the worker [w] (a submission; a
    message, a fault or an exit of another worker; the deadline of another
    worker's task) leave the assignment of [w] as it is: its promise is not
    settled, [w] is not made idle, so it is given no second task, and [w]
    stays in the registry if it was there. *)
Theorem busy_worker_undisturbed n tmo p w hs evs p' :
  Reachable n tmo p -> WMap.get w (workerTaskMap p) = Some hs ->
  run_sparing w evs p = Some p' ->
  run dispatch evs p = Some p'
  /\ WMap.get w (workerTaskMap p') = Some hs
  /\ settlements p' (handle hs) = 0
  /\ ~ In w (idleWorkers p')
  /\ (In w (workers p) -> In w (workers p')).
Proof.
  intros Hr Hget Hs. pose proof (Inv_Reachable _ _ _ Hr) as Hinv.
  destruct (undisturbed_run w hs evs p p' Hinv Hget Hs) as (H1 & H2 & H3).
  pose proof (Inv_run evs p p' Hinv H1) as Hinv'.
  repeat split; try assumption.
  - now apply (busy_unsettled p' w hs).
  - now destruct (busy_Free p' w hs Hinv' H2).
Qed.

Lemma busy_worker_undisturbed_witness :
  WMap.get 0
    (workerTaskMap
       (after 2 (Some 50)
          [Call_runTask aTask; Call_runTask aTask; On_message 1 okMessage]))
  = Some {| handle := 0; timeoutId := Some 0 |}.
Proof.
  assert (R : Reachable 2 (Some 50) (after 2 (Some 50) [Call_runTask aTask])).
  { exists [Call_runTask aTask]. vm_compute. reflexivity. }
  assert (G : WMap.get 0 (workerTaskMap (after 2 (Some 50) [Call_runTask aTask]))
              = Some {| handle := 0; timeoutId := Some 0 |})
    by (vm_compute; reflexivity).
  assert (S : run_sparing 0 [Call_runTask aTask; On_message 1 okMessage]
                (after 2 (Some 50) [Call_runTask aTask])
              = Some (after 2 (Some 50)
                        [Call_runTask aTask; Call_runTask aTask;
                         On_message 1 okMessage]))
    by (vm_compute; reflexivity).
  destruct (busy_worker_undisturbed 2 (Some 50) _ 0 _ _ _ R G S) as (_ & H & _).
  exact H.
Defined.

Lemma quiet_sparing w evs : forall p p',
  NoDeadline p -> run dispatch evs p = Some p' ->
  forallb (quiet w) evs = true -> run_sparing w evs p = Some p'.
Proof.
  induction evs as [|ev evs IH]; simpl; intros p p' Hn Hr Hq; [exact Hr|].
  apply andb_true_iff in Hq. destruct Hq as [Hq1 Hq2].
  destruct (enabled p ev) eqn:He; [|discriminate].
  assert (Hs : spares w p ev = true).
  { destruct ev; simpl in *; try assumption.
    destruct Hn as (_ & H2 & _). unfold pendingTimer. now rewrite H2. }
  rewrite Hs. simpl. apply IH; [|exact Hr|exact Hq2].
  now apply NoDeadline_handle_event.
Qed.

(** X12: A worker that never answers, in a pool without a timeout. If the pool
    was made with [taskTimeoutMs: undefined] and a worker holds a task, then
    as long as that worker emits nothing and [close] is not called, whatever
    else happens, the promise of the task stays pending and the worker stays
    assigned: nothing in the pool recovers it. *)
Theorem hung_worker_never_recovers n p w hs evs p' :
  Reachable n None p -> WMap.get w (workerTaskMap p) = Some hs ->
  run dispatch evs p = Some p' -> forallb (quiet w) evs = true ->
  WMap.get w (workerTaskMap p') = Some hs
  /\ settlements p' (handle hs) = 0
  /\ ~ In w (idleWorkers p')
  /\ forall o, ~ In (handle hs, o) (settled p').
Proof.
  intros Hr Hget Hrun Hq. pose proof (Inv_Reachable _ _ _ Hr) as Hinv.
  assert (Hn : NoDeadline p).
  { destruct Hr as [evs0 Hr].
    now destruct (NoDeadline_run evs0 _ _ (NoDeadline_new n) Hr). }
  pose proof (quiet_sparing w evs p p' Hn Hrun Hq) as Hs.
  destruct (undisturbed_run w hs evs p p' Hinv Hget Hs) as (_ & H2 & _).
  pose proof (Inv_run evs p p' Hinv Hrun) as Hinv'.
  pose proof (busy_unsettled p' w hs Hinv' H2) as H0.
  repeat split; try assumption.
  - now destruct (busy_Free p' w hs Hinv' H2).
  - intros o Hin. apply settlements_In in Hin. lia.
Qed.

Lemma hung_worker_never_recovers_witness :
  settlements
    (after 1 None
       [Call_runTask {| type := TEST_HANG; payload := 0 |}; Call_runTask aTask])
    0 = 0.
Proof.
  assert (R : Reachable 1 None
                (after 1 None [Call_runTask {| type := TEST_HANG; payload := 0 |}])).
  { exists [Call_runTask {| type := TEST_HANG; payload := 0 |}].
    vm_compute. reflexivity. }
  assert (G : WMap.get 0
                (workerTaskMap
                   (after 1 None
                      [Call_runTask {| type := TEST_HANG; payload := 0 |}]))
              = Some {| handle := 0; timeoutId := None |})
    by (vm_compute; reflexivity).
  assert (S : run dispatch [Call_runTask aTask]
                (after 1 None [Call_runTask {| type := TEST_HANG; payload := 0 |}])
              = Some (after 1 None
                        [Call_runTask {| type := TEST_HANG; payload := 0 |};
                         Call_runTask aTask]))
    by (vm_compute; reflexivity).
  assert (Q : forallb (quiet 0) [Call_runTask aTask] = true)
    by (vm_compute; reflexivity).
  destruct (hung_worker_never_recovers 1 _ 0 _ _ _ R G S Q) as (_ & H & _).
  exact H.
Defined.

(** ** Threads that have ended *)

Lemma Fresh_refl p : Fresh p p.
Proof. split; auto. Qed.

Lemma Fresh_trans p q r : Fresh p q -> Fresh q r -> Fresh p r.
Proof.
  intros [A1 A2] [B1 B2]. split; [lia|]. intros x Hx.
  destruct (B2 x Hx) as [H|H]; [|right; lia].
  destruct (A2 x H); auto.
Qed.

Lemma Fresh_sub p q :
  nextWorker q = nextWorker p -> incl (threads q) (threads p) -> Fresh p q.
Proof. intros E H. split; [lia|]. intros x Hx. left. now apply H. Qed.

Lemma Fresh_dispatch p : Fresh p (dispatch p).
Proof.
  destruct (dispatch_frame p) as (_ & _ & _ & _ & _ & _ & F7 & F8 & _).
  apply Fresh_sub; [exact F8|]. rewrite F7. apply incl_refl.
Qed.

Lemma Fresh_spawnWorker p : Fresh p (spawnWorker dispatch p).
Proof.
  destruct (spawnWorker_frame p) as (_ & _ & _ & _ & _ & _ & _ & _ & F9 & _ & F11).
  split; rewrite ?F9, ?F11; destruct (isClosing p); try lia; auto.
  intros x Hx. apply in_app_iff in Hx. destruct Hx as [Hx|[<-|[]]]; auto.
Qed.

Lemma Fresh_handle_event p ev : Fresh p (handle_event dispatch ev p).
Proof.
  destruct ev as [t| |w m|w err|w code|t]; simpl.
  - unfold runTask. destruct (isClosing p); simpl; [apply Fresh_refl|].
    eapply Fresh_trans; [|apply Fresh_dispatch].
    apply Fresh_sub; [reflexivity|apply incl_refl].
  - rewrite close_eq. apply Fresh_sub; [reflexivity|apply incl_refl].
  - unfold onMessage.
    destruct (WMap.get w (workerTaskMap p)) as [hs|]; [|apply Fresh_refl].
    eapply Fresh_trans; [|apply Fresh_dispatch].
    unfold clearTimeout. destruct (status m), (timeoutId hs);
      (apply Fresh_sub; [reflexivity|apply incl_refl]).
  - unfold onError, replaceWorker.
    eapply Fresh_trans; [|apply Fresh_spawnWorker]. simpl.
    destruct (WMap.get w (workerTaskMap p)) as [hs|];
      unfold clearTimeout; try destruct (timeoutId hs);
      (apply Fresh_sub; [reflexivity|apply incl_refl]).
  - unfold onExit, replaceWorker. simpl.
    destruct (WeakSet.has w (timedOutWorkers p)), (WeakSet.has w (erroredWorkers p));
      simpl; destruct (code =? 0)%Z, (isClosing p); simpl;
      try (destruct (WMap.get w (workerTaskMap p)) as [hs|]);
      try (eapply Fresh_trans; [|apply Fresh_spawnWorker]);
      unfold clearTimeout; try destruct (timeoutId hs);
      (apply Fresh_sub; [reflexivity|apply without_incl]).
  - destruct (pendingTimer t p) as [[w h]|]; [|apply Fresh_refl].
    unfold onTimeout. simpl.
    destruct (WMap.has w (workerTaskMap p)); simpl.
    + eapply Fresh_trans; [|apply Fresh_dispatch]. unfold replaceWorker.
      eapply Fresh_trans; [|apply Fresh_spawnWorker].
      apply Fresh_sub; [reflexivity|apply incl_refl].
    + apply Fresh_sub; [reflexivity|apply incl_refl].
Qed.

Lemma Fresh_run evs : forall p p',
  run dispatch evs p = Some p' -> Fresh p p'.
Proof.
  induction evs as [|ev evs IH]; simpl; intros p p' Hr.
  - injection Hr as <-. apply Fresh_refl.
  - destruct (enabled p ev); [|discriminate].
    apply (Fresh_trans p (handle_event dispatch ev p) p');
      [apply Fresh_handle_event|apply IH; exact Hr].
Qed.

(** X13: No worker is used again. Workers are numbered as they are created. A
    worker whose thread has emitted 'exit' never comes back: whatever happens
    next, it is not registered, not idle, has no thread, emits no event that
    a listener would see, and no task is posted to it: every replacement is
    a worker that did not exist before. *)
Theorem ended_worker_never_returns n tmo p w evs p' :
  Reachable n tmo p -> w < nextWorker p -> ~ In w (threads p) ->
  run dispatch evs p = Some p' ->
  ~ In w (threads p') /\ ~ In w (workers p') /\ ~ In w (idleWorkers p')
  /\ (forall m, enabled p' (On_message w m) = false)
  /\ (forall err, enabled p' (On_error w err) = false)
  /\ (forall code, enabled p' (On_exit w code) = false)
  /\ (forall t, posted (snd (runTask dispatch t p')) <> posted p' ++ [(w, t)]).
Proof.
  intros Hr Hlt Hw Hrun. pose proof (Inv_Reachable _ _ _ Hr) as Hinv.
  pose proof (Inv_run evs p p' Hinv Hrun) as Hinv'.
  destruct (Fresh_run evs p p' Hrun) as [F1 F2].
  assert (Ht : ~ In w (threads p')).
  { intros Hin. destruct (F2 w Hin); [tauto|lia]. }
  assert (Hws : ~ In w (workers p')).
  { intros Hin. apply Ht. now apply (inv_workers_threads _ Hinv'). }
  assert (Hi : ~ In w (idleWorkers p')).
  { intros Hin. apply Hws. now apply (inv_idle_workers _ Hinv'). }
  assert (He : existsb (Nat.eqb w) (threads p') = false).
  { destruct (existsb (Nat.eqb w) (threads p')) eqn:E; [|reflexivity].
    apply existsb_eqb_In in E. tauto. }
  split; [exact Ht|]. split; [exact Hws|]. split; [exact Hi|].
  split; [intros m; exact He|]. split; [intros err; exact He|].
  split; [intros code; exact He|].
  intros t Hp. unfold runTask in Hp. destruct (isClosing p') eqn:Hc; simpl in Hp.
  - apply (f_equal (@length _)) in Hp. rewrite length_app in Hp. simpl in Hp. lia.
  - destruct (dispatch_cases (enqueued t p'))
      as [[_ E]|(i & q & x & l & _ & _ & Hidle & E)].
    + change (dispatch _) with (dispatch (enqueued t p')) in Hp.
      rewrite E in Hp. simpl in Hp.
      apply (f_equal (@length _)) in Hp. rewrite length_app in Hp. simpl in Hp. lia.
    + change (dispatch _) with (dispatch (enqueued t p')) in Hp.
      rewrite E in Hp. simpl in Hp. apply app_inv_head in Hp.
      injection Hp as -> _. apply Hi. simpl in Hidle. rewrite Hidle. now left.
Qed.

Lemma ended_worker_never_returns_witness :
  ~ In 0 (workers (after 1 None
                     [Call_runTask aTask; On_exit 0 1%Z; Call_runTask aTask])).
Proof.
  assert (R : Reachable 1 None (after 1 None [Call_runTask aTask; On_exit 0 1%Z])).
  { exists [Call_runTask aTask; On_exit 0 1%Z]. vm_compute. reflexivity. }
  assert (L : 0 < nextWorker (after 1 None [Call_runTask aTask; On_exit 0 1%Z]))
    by (vm_compute; lia).
  assert (T : ~ In 0 (threads (after 1 None [Call_runTask aTask; On_exit 0 1%Z]))).
  { vm_compute. intros [H|[]]. discriminate. }
  assert (S : run dispatch [Call_runTask aTask]
                (after 1 None [Call_runTask aTask; On_exit 0 1%Z])
              = Some (after 1 None
                        [Call_runTask aTask; On_exit 0 1%Z; Call_runTask aTask]))
    by (vm_compute; reflexivity).
  destruct (ended_worker_never_returns 1 None _ 0 _ _ R L T S) as (_ & H & _).
  exact H.
Defined.

(** ** [powersOfTwoUpTo] *)

Lemma toInt32_small z : (- 2 ^ 31 <= z < 2 ^ 31)%Z -> toInt32 z = z.
Proof.
  intros H. unfold toInt32. rewrite Z.mod_small; lia.
Qed.

Lemma shl1_pow2 (i : nat) :
  i < 30 -> shl1 (2 ^ Z.of_nat i) = (2 ^ Z.of_nat (S i))%Z.
Proof.
  intros Hi. unfold shl1. rewrite Z.shiftl_mul_pow2 by lia.
  assert (E : (2 ^ Z.of_nat (S i) = 2 ^ Z.of_nat i * 2 ^ 1)%Z).
  { rewrite <- Z.pow_add_r by lia. f_equal. lia. }
  rewrite <- E. apply toInt32_small.
  assert (0 < 2 ^ Z.of_nat (S i))%Z by (apply Z.pow_pos_nonneg; lia).
  assert (2 ^ Z.of_nat (S i) <= 2 ^ 30)%Z by (apply Z.pow_le_mono_r; lia).
  lia.
Qed.

Lemma powersLoop_counts (m : Z) (L : nat) :
  (2 ^ Z.of_nat L <= m < 2 ^ Z.of_nat (S L))%Z -> L < 30 ->
  forall d i turns counts,
    i + d = L -> d + 2 <= turns ->
    powersLoop turns (2 ^ Z.of_nat i) (BoundZ m) counts
    = Some (counts ++ map (fun j => 2 ^ Z.of_nat j)%Z (seq i (S d))).
Proof.
  intros Hm HL. induction d as [|d IH]; intros i turns counts Hi Ht.
  - destruct turns as [|[|turns]]; try lia. simpl.
    assert (i = L) by lia. subst i.
    assert (E1 : (2 ^ Z.of_nat L <=? m)%Z = true) by (apply Z.leb_le; lia).
    rewrite E1, (shl1_pow2 L HL).
    assert (E2 : (2 ^ Z.of_nat (S L) <=? m)%Z = false) by (apply Z.leb_gt; lia).
    now rewrite E2.
  - destruct turns as [|turns]; try lia.
    change (powersLoop (S turns) ?n ?b ?c)
      with (if leBound n b then powersLoop turns (shl1 n) b (c ++ [n]) else Some c).
    assert (E1 : (2 ^ Z.of_nat i <=? m)%Z = true).
    { apply Z.leb_le. apply Z.le_trans with (2 ^ Z.of_nat L)%Z; [|lia].
      apply Z.pow_le_mono_r; lia. }
    unfold leBound. rewrite E1, (shl1_pow2 i) by lia.
    rewrite (IH (S i) turns) by lia.
    rewrite <- app_assoc. reflexivity.
Qed.

Lemma powersLoop_zero max : leBound 0 max = true ->
  forall turns counts, powersLoop turns 0 max counts = None.
Proof.
  intros H. induction turns as [|turns IH]; intros counts; simpl; [reflexivity|].
  rewrite H. change (shl1 0) with 0%Z. apply IH.
Qed.

Lemma powersLoop_wraps max :
  leBound (2 ^ 30) max = true ->
  (forall a b, (a <= b)%Z -> leBound b max = true -> leBound a max = true) ->
  forall d i turns counts,
    i + d = 30 -> powersLoop turns (2 ^ Z.of_nat i) max counts = None.
Proof.
  intros Hmax Hmono.
  assert (Hz : leBound 0 max = true) by (apply (Hmono 0%Z (2 ^ 30)%Z); [lia|exact Hmax]).
  assert (Hn : leBound (- 2 ^ 31) max = true)
    by (apply (Hmono (- 2 ^ 31)%Z (2 ^ 30)%Z); [lia|exact Hmax]).
  induction d as [|d IH]; intros i turns counts Hi.
  - assert (i = 30) by lia. subst i.
    destruct turns as [|turns]; [reflexivity|].
    change (powersLoop (S turns) ?n ?b ?c)
      with (if leBound n b then powersLoop turns (shl1 n) b (c ++ [n]) else Some c).
    change (2 ^ Z.of_nat 30)%Z with (2 ^ 30)%Z. rewrite Hmax.
    change (shl1 (2 ^ 30)) with (- 2 ^ 31)%Z.
    destruct turns as [|turns]; [reflexivity|].
    change (powersLoop (S turns) ?n ?b ?c)
      with (if leBound n b then powersLoop turns (shl1 n) b (c ++ [n]) else Some c).
    rewrite Hn. change (shl1 (- 2 ^ 31)) with 0%Z.
    now apply powersLoop_zero.
  - destruct turns as [|turns]; [reflexivity|].
    change (powersLoop (S turns) ?n ?b ?c)
      with (if leBound n b then powersLoop turns (shl1 n) b (c ++ [n]) else Some c).
    assert (E : leBound (2 ^ Z.of_nat i) max = true).
    { apply (Hmono _ (2 ^ 30)%Z); [|exact Hmax].
      change (2 ^ 30)%Z with (2 ^ Z.of_nat 30)%Z. apply Z.pow_le_mono_r; lia. }
    rewrite E, (shl1_pow2 i) by lia. apply IH. lia.
Qed.

Lemma powersLoop_from_one m turns :
  (1 <= m < 2 ^ 30)%Z -> 32 <= turns ->
  powersLoop turns 1 (BoundZ m) []
  = Some (map (fun j => 2 ^ Z.of_nat j)%Z (seq 0 (S (Z.to_nat (Z.log2 m))))).
Proof.
  intros Hm Ht.
  destruct (Z.log2_spec m) as [L1 L2]; [lia|].
  pose proof (Z.log2_nonneg m) as L0.
  assert (L3 : (Z.log2 m < 30)%Z).
  { apply Z.log2_lt_pow2; lia. }
  set (L := Z.to_nat (Z.log2 m)).
  assert (EL : Z.of_nat L = Z.log2 m) by (unfold L; lia).
  change 1%Z with (2 ^ Z.of_nat 0)%Z at 1.
  rewrite (powersLoop_counts m L) with (d := L); try lia.
  - reflexivity.
  - rewrite Nat2Z.inj_succ, EL. lia.
Qed.

(** X14: [powersOfTwoUpTo] for a limit whose floor is below 2^30: the loop ends
    within 32 turns and returns the powers of two from 1 up to the largest
    one that is at most [max(1, floor(limit))], in ascending order. A limit
    below 2, or negative, gives [[1]]. *)
Theorem powersOfTwoUpTo_below_2_30 turns q :
  (Qround.Qfloor q < 2 ^ 30)%Z -> 32 <= turns ->
  powersOfTwoUpTo turns (Finite q)
  = Some (map (fun j => 2 ^ Z.of_nat j)%Z
            (seq 0 (S (Z.to_nat (Z.log2 (Z.max 1 (Qround.Qfloor q))))))).
Proof.
  intros Hq Ht. unfold powersOfTwoUpTo, Math_max_1_floor.
  apply powersLoop_from_one; [lia|exact Ht].
Qed.

Lemma powersOfTwoUpTo_below_2_30_witness :
  powersOfTwoUpTo 32 (Finite (QArith_base.Qmake 17 2)) = Some [1; 2; 4; 8]%Z.
Proof.
  assert (H : (Qround.Qfloor (QArith_base.Qmake 17 2) < 2 ^ 30)%Z)
    by (vm_compute; reflexivity).
  assert (T : 32 <= 32) by lia.
  exact (powersOfTwoUpTo_below_2_30 32 (QArith_base.Qmake 17 2) H T).
Defined.

(** X15: [powersOfTwoUpTo] for a limit of 2^30 or more, or plus infinity: the
    loop never ends. [n <<= 1] is a shift of 32-bit integers, so after 2^30
    the variable [n] is -2^31 and then 0 for ever; each is at most [max],
    and the loop goes on pushing 0: no list is ever returned. *)
Theorem powersOfTwoUpTo_never_returns turns limit :
  limit = PlusInfinity
  \/ (exists q, limit = Finite q /\ (2 ^ 30 <= Qround.Qfloor q)%Z) ->
  powersOfTwoUpTo turns limit = None.
Proof.
  intros H. unfold powersOfTwoUpTo.
  change 1%Z with (2 ^ Z.of_nat 0)%Z at 1.
  apply (powersLoop_wraps _) with (d := 30); [| |reflexivity].
  - destruct H as [->|(q & -> & Hq)]; simpl; [reflexivity|].
    apply Z.leb_le. lia.
  - destruct H as [->|(q & -> & Hq)]; simpl; [reflexivity|].
    intros a b Hab Hb. apply Z.leb_le in Hb. apply Z.leb_le. lia.
Qed.

Lemma powersOfTwoUpTo_never_returns_witness :
  powersOfTwoUpTo 1000 (Finite (QArith_base.inject_Z (2 ^ 30))) = None.
Proof.
  apply powersOfTwoUpTo_never_returns. right.
  exists (QArith_base.inject_Z (2 ^ 30)). split; [reflexivity|].
  vm_compute. discriminate.
Defined.

(** X16: [getDefaultWorkerCounts]: whatever the operating system reports, as
    long as it is below 2^30, the list starts with 1 and holds the powers of
    two up to the number of available processors; a report of 0 processors
    is taken as 1 and gives [[1]], and [os.cpus().length] is used only if
    [os.availableParallelism] does not exist. *)
Theorem getDefaultWorkerCounts_powers turns availableParallelism cpus :
  32 <= turns ->
  (Z.of_nat (match availableParallelism with Some a => a | None => cpus end)
   < 2 ^ 30)%Z ->
  getDefaultWorkerCounts turns availableParallelism cpus
  = Some (map (fun j => 2 ^ Z.of_nat j)%Z
            (seq 0 (S (Z.to_nat
                         (Z.log2
                            (Z.of_nat
                               (match availableParallelism with
                                | Some a => a
                                | None => cpus
                                end))))))).
Proof.
  intros Ht Ha. unfold getDefaultWorkerCounts.
  set (a := match availableParallelism with Some a => a | None => cpus end) in *.
  assert (Hf : forall k, Qround.Qfloor (QArith_base.inject_Z k) = k).
  { intros k. unfold Qround.Qfloor, QArith_base.inject_Z. apply Z.div_1_r. }
  unfold powersOfTwoUpTo, Math_max_1_floor. rewrite Hf.
  rewrite powersLoop_from_one; [|destruct (Nat.eqb_spec a 0); lia|exact Ht].
  do 3 f_equal.
  destruct (Nat.eqb_spec a 0) as [->|Hne]; [reflexivity|].
  now rewrite Z.max_r by lia.
Qed.

Lemma getDefaultWorkerCounts_powers_witness :
  getDefaultWorkerCounts 32 None 0 = Some [1%Z].
Proof.
  assert (T : 32 <= 32) by lia.
  assert (A : (Z.of_nat (match @None nat with Some a => a | None => 0 end)
               < 2 ^ 30)%Z) by (vm_compute; reflexivity).
  exact (getDefaultWorkerCounts_powers 32 None 0 T A).
Defined.

(** ** [runNaiveWorker] *)

Lemma naiveHandle_counts ev c :
  length (naiveSettled c)
  = (if onceMessage c then 0 else 1) + (if onceError c then 0 else 1) ->
  naiveTerminated c = length (naiveSettled c) ->
  length (naiveSettled (naiveHandle ev c))
  = (if onceMessage (naiveHandle ev c) then 0 else 1)
    + (if onceError (naiveHandle ev c) then 0 else 1)
  /\ naiveTerminated (naiveHandle ev c) = length (naiveSettled (naiveHandle ev c))
  /\ exists l, naiveSettled (naiveHandle ev c) = naiveSettled c ++ l.
Proof.
  intros H1 H2. destruct ev as [m|err]; simpl.
  - destruct (onceMessage c) eqn:E; simpl.
    + rewrite length_app. simpl. rewrite H1, H2, H1.
      split; [lia|]. split; [lia|]. eexists; reflexivity.
    + rewrite E. split; [exact H1|]. split; [exact H2|].
      exists []. now rewrite app_nil_r.
  - destruct (onceError c) eqn:E; simpl.
    + rewrite length_app. simpl. rewrite H1, H2, H1.
      split; [lia|]. split; [lia|]. eexists; reflexivity.
    + rewrite E. split; [exact H1|]. split; [exact H2|].
      exists []. now rewrite app_nil_r.
Qed.

Lemma naive_run_counts evs : forall c,
  length (naiveSettled c)
  = (if onceMessage c then 0 else 1) + (if onceError c then 0 else 1) ->
  naiveTerminated c = length (naiveSettled c) ->
  let c' := fold_left (fun c ev => naiveHandle ev c) evs c in
  length (naiveSettled c') <= 2
  /\ naiveTerminated c' = length (naiveSettled c')
  /\ exists l, naiveSettled c' = naiveSettled c ++ l.
Proof.
  induction evs as [|ev evs IH]; intros c H1 H2; simpl.
  - split; [destruct (onceMessage c), (onceError c); lia|].
    split; [exact H2|]. exists []. now rewrite app_nil_r.
  - destruct (naiveHandle_counts ev c H1 H2) as (K1 & K2 & l & K3).
    destruct (IH (naiveHandle ev c) K1 K2) as (I1 & I2 & l' & I3).
    split; [exact I1|]. split; [exact I2|].
    exists (l ++ l'). now rewrite I3, K3, app_assoc.
Qed.

(** X17: The promise of [runNaiveWorker]. Whatever the worker emits, the first
    event decides the promise: a message with status ok resolves it with
    its data, any other message rejects it with its error, an 'error'
    rejects it with that error; later events change nothing of it. Each of
    the two listeners runs at most once, so [resolve] or [reject] is called
    at most twice in all, and [terminate] once for each such call. Without
    an event the promise stays pending. *)
Theorem naive_promise_first_event type payload evs :
  let c := fold_left (fun c ev => naiveHandle ev c) evs
             (runNaiveWorker type payload) in
  promiseState (naiveSettled c)
  = match evs with
    | [] => None
    | Naive_message m :: _ => Some (messageOutcome m)
    | Naive_error err :: _ => Some (Rejected (WorkerError err))
    end
  /\ length (naiveSettled c) <= 2
  /\ naiveTerminated c = length (naiveSettled c).
Proof.
  simpl.
  destruct (naive_run_counts evs (runNaiveWorker type payload) eq_refl eq_refl)
    as (H1 & H2 & _).
  split; [|split; assumption].
  destruct evs as [|ev evs]; [reflexivity|]. simpl.
  destruct (naive_run_counts evs (naiveHandle ev (runNaiveWorker type payload)))
    as (_ & _ & l & E).
  - destruct ev; reflexivity.
  - destruct ev; reflexivity.
  - simpl in E. rewrite E. destruct ev; reflexivity.
Qed.

(** X18: [runNaiveWorker], end to end. The code of the naive worker posts one
    message; with it the promise is resolved with what [JSON.parse] returned
    (for the type ['parse']) or [JSON.stringify] returned (for any other
    type), or rejected with the message of the error thrown, and
    [terminate] was called once. *)
Theorem naive_worker_round_trip JSON_parse JSON_stringify type payload :
  let c := naiveHandle
             (Naive_message
                (naiveWorkerCode JSON_parse JSON_stringify
                   (workerData (runNaiveWorker type payload))))
             (runNaiveWorker type payload) in
  promiseState (naiveSettled c)
  = Some (computedOutcome
            (match type with
             | parse => JSON_parse payload
             | _ => JSON_stringify payload
             end))
  /\ naiveTerminated c = 1.
Proof.
  simpl. split; [|reflexivity]. unfold naiveWorkerCode. simpl.
  destruct type; simpl;
    [destruct (JSON_parse payload)|destruct (JSON_stringify payload)..];
    reflexivity.
Qed.
